(** * HTTP response-caching middleware (package [cache], file cache.go)

    A shallow embedding of the middleware and of the parts of the Go
    libraries its behaviour depends on:

    - [time.Time] values, as wall-clock instants (seconds and nanoseconds
      since January 1 of year 1, UTC); the location and the monotonic clock
      reading of a Go [Time] are not part of the model, so two times are
      equal here when [Time.Equal] holds of them;
    - the [encoding/gob] wire format for the [Response] structure;
    - [net/url] query parsing and encoding (Go 1.17 and later, where a
      semicolon no longer separates parameters);
    - the FNV-1a hash used for cache keys;
    - the middleware itself, as a state-passing program over the storage
      adapter, the clock and the outbound response writer.

    The model is that of a 64-bit platform: Go's [int] is [int64]. A nil
    slice and an empty one are the same list.

    The first part of the file is the model, the second ([Facts]) what is
    proved of it; the properties of the specification are the theorems
    named [C1] to [C10], and further properties of the code, [X1] to
    [X24], follow them. *)

From Stdlib Require Import ZArith Lia Strings.Byte Strings.String Strings.Ascii.
From stdpp Require Import gmap strings list fin_maps sorting.

Open Scope Z_scope.

(** ** Machine integers and bytes *)

Definition max_int64 : Z := 2 ^ 63 - 1.
Definition min_int64 : Z := - 2 ^ 63.

Definition is_int64 (z : Z) : Prop := min_int64 <= z <= max_int64.
Definition is_uint64 (z : Z) : Prop := 0 <= z < 2 ^ 64.

(** Conversion of an integer to [uint64] and to [int64] (two's complement). *)
Definition to_uint64 (z : Z) : Z := z mod 2 ^ 64.
Definition to_int64 (z : Z) : Z := (z + 2 ^ 63) mod 2 ^ 64 - 2 ^ 63.

Definition byte_val (b : byte) : Z := Z.of_N (Byte.to_N b).

(** [byte(x)]: the low eight bits of [x]. *)
Definition byte_of (z : Z) : byte :=
  match Byte.of_N (Z.to_N (z mod 256)) with
  | Some b => b
  | None => x00
  end.

(** [[]byte(s)] and [string(b)]. *)
Definition bytes_of_string (s : string) : list byte := list_byte_of_string s.
Definition string_of_bytes (b : list byte) : string := string_of_list_byte b.

Definition len {A} (l : list A) : Z := Z.of_nat (length l).

(** ** time.Time *)

Module time.

(** [sec] counts seconds since January 1, year 1 00:00:00 UTC (what
    [Time.sec()] returns); [nsec] is the nanosecond within the second. *)
Record Time := mkTime { sec : Z; nsec : Z }.

(** A [Duration] is a count of nanoseconds in an [int64]. *)
Definition Duration := Z.

(** [Time{}], the zero value. *)
Definition zero : Time := mkTime 0 0.

Definition valid (t : Time) : Prop :=
  is_int64 (sec t) /\ 0 <= nsec t < 10 ^ 9.

(** [t.After(u)] on wall-clock readings:
    [ts > us || ts == us && t.nsec() > u.nsec()]. *)
Definition After (t u : Time) : bool :=
  (sec u <? sec t) || ((sec t =? sec u) && (nsec u <? nsec t)).

(** [t] is strictly later than [u]. *)
Definition later (t u : Time) : Prop :=
  sec u < sec t \/ (sec t = sec u /\ nsec u < nsec t).

(** [reflect.Value.IsZero] on a [Time]. *)
Definition IsZero (t : Time) : bool := (sec t =? 0) && (nsec t =? 0).

(** [t.addSec(d)]: the seconds counter saturates instead of overflowing. *)
Definition addSec (t : Time) (d : Z) : Time :=
  let sum := to_int64 (sec t + d) in
  if Bool.eqb (sec t <? sum) (0 <? d) then mkTime sum (nsec t)
  else if 0 <? d then mkTime max_int64 (nsec t)
  else mkTime (- max_int64) (nsec t).

(** [t.Add(d)]: Go's [/] and [%] truncate towards zero. *)
Definition Add (t : Time) (d : Duration) : Time :=
  let dsec := Z.quot d (10 ^ 9) in
  let n := nsec t + Z.rem d (10 ^ 9) in
  if 10 ^ 9 <=? n then addSec (mkTime (sec t) (n - 10 ^ 9)) (dsec + 1)
  else if n <? 0 then addSec (mkTime (sec t) (n + 10 ^ 9)) (dsec - 1)
  else addSec (mkTime (sec t) n) dsec.

(** The instant of [t] in nanoseconds since the zero time. *)
Definition nanos (t : Time) : Z := sec t * 10 ^ 9 + nsec t.

End time.

Abbreviation Time := time.Time.

(** ** The cached response *)

Module http.

(** [http.Header] is [map[string][]string]. *)
Abbreviation Header := (gmap string (list string)).

End http.

(** [Response] is the cached response data structure. A nil and an empty
    slice are not told apart (the codec never does); a nil map is [None]
    and differs from the empty map [Some ∅], which the codec transmits. *)
Record Response := mkResponse {
  Value : list byte;
  Header : option http.Header;
  Expiration : Time;
  LastAccess : Time;
  Frequency : Z
}.

(** [var r Response]: the zero value. *)
Definition zeroResponse : Response :=
  mkResponse [] None time.zero time.zero 0.

(** ** encoding/gob for [Response] *)

(** The wire format is the one the package documents: unsigned integers in
    one byte or as a negated byte count and big-endian bytes, signed
    integers with the sign in bit 0, byte counts before strings and slices,
    structures as field deltas closed by a zero, and a stream that opens
    with the definitions of its types. The encoder and the decoder below are
    those of the type [Response] alone. *)

Module gob.

Definition uint64Size : Z := 8.

(** [tooBig = (1 << 30) << (^uint(0) >> 62)]: the largest message and the
    largest slice the package accepts. *)
Definition tooBig : Z := 2 ^ 33.

(** The [n] low bytes of [x], most significant first. *)
Fixpoint bigEndian (n : nat) (x : Z) : list byte :=
  match n with
  | O => []
  | S n' => byte_of (Z.shiftr x (8 * Z.of_nat n')) :: bigEndian n' x
  end.

(** [x = x<<8 | uint64(b)] over the bytes of a buffer. *)
Definition beValue (bs : list byte) : Z :=
  fold_left (fun x b => Z.lor (Z.shiftl x 8) (byte_val b)) bs 0.

(** [bits.LeadingZeros64(x)] for [0 < x < 2^64]. *)
Definition leadingZeros64 (x : Z) : Z := 64 - (Z.log2 x + 1).

(** [encodeUint]: a value below 128 is one byte; otherwise the byte count,
    negated, is followed by the value in as few big-endian bytes as hold
    it. *)
Definition encodeUint (x : Z) : list byte :=
  if x <=? 127 then [byte_of x]
  else
    let bc := Z.shiftr (leadingZeros64 x) 3 in
    byte_of (bc - uint64Size) :: bigEndian (Z.to_nat (uint64Size - bc)) x.

(** [encodeInt]: the sign goes to bit 0. *)
Definition encodeInt (i : Z) : list byte :=
  if i <? 0 then encodeUint (Z.lor (to_uint64 (Z.shiftl (Z.lnot i) 1)) 1)
  else encodeUint (to_uint64 (Z.shiftl i 1)).

(** [decodeUint] on the message buffer; [None] is a decoding error. *)
Definition decodeUint (b : list byte) : option (Z * list byte) :=
  match b with
  | [] => None
  | c :: b' =>
      if byte_val c <=? 127 then Some (byte_val c, b')
      else
        let n := 256 - byte_val c in
        if uint64Size <? n then None
        else if len b' <? n then None
        else Some (beValue (take (Z.to_nat n) b'), drop (Z.to_nat n) b')
  end.

Definition decodeInt (b : list byte) : option (Z * list byte) :=
  match decodeUint b with
  | None => None
  | Some (x, b') =>
      if Z.testbit x 0 then Some (Z.lnot (Z.shiftr x 1), b')
      else Some (Z.shiftr x 1, b')
  end.

(** [[]byte] and [string] values: the length, then the bytes. *)
Definition encBytes (bs : list byte) : list byte :=
  encodeUint (len bs) ++ bs.

Definition encString (s : string) : list byte :=
  encBytes (bytes_of_string s).

(** [getLength] followed by the read of that many bytes. *)
Definition decBytes (b : list byte) : option (list byte * list byte) :=
  match decodeUint b with
  | None => None
  | Some (n, b') =>
      if (max_int64 <? n) || (len b' <? n) || (tooBig <=? n) then None
      else Some (take (Z.to_nat n) b', drop (Z.to_nat n) b')
  end.

Definition decString (b : list byte) : option (string * list byte) :=
  match decBytes b with
  | None => None
  | Some (bs, b') => Some (string_of_bytes bs, b')
  end.

(** [[]string]: [encodeArray] writes the count, then every element. *)
Definition encStringSlice (vs : list string) : list byte :=
  encodeUint (len vs) ++ flat_map encString vs.

(** The element loop of [decodeArrayHelper]. Every element takes at least
    one byte, so the length of the buffer bounds the recursion; an
    exhausted buffer with elements outstanding is a decoding error. *)
Fixpoint decStrings (fuel : nat) (n : Z) (b : list byte)
    : option (list string * list byte) :=
  if n <=? 0 then Some ([], b)
  else
    match fuel with
    | O => None
    | S fuel' =>
        match decString b with
        | None => None
        | Some (s, b') =>
            match decStrings fuel' (n - 1) b' with
            | None => None
            | Some (vs, b'') => Some (s :: vs, b'')
            end
        end
    end.

(** [unsafe.Sizeof("")]: the size of the slice element. *)
Definition stringSize : Z := 16.

(** [decodeSlice] at element type [string]. *)
Definition decStringSlice (b : list byte) : option (list string * list byte) :=
  match decodeUint b with
  | None => None
  | Some (u, b') =>
      if (max_int64 <? u) || (tooBig <? u * stringSize) then None
      else decStrings (length b') u b'
  end.

(** [map[string][]string]: the count, then key and element of every
    entry, in the order the map is ranged over. *)
Definition encEntry (kv : string * list string) : list byte :=
  encString kv.1 ++ encStringSlice kv.2.

Definition encMap (kvs : list (string * list string)) : list byte :=
  encodeUint (len kvs) ++ flat_map encEntry kvs.

(** The entry loop of [decodeMap]: every decoded entry is stored at once
    ([SetMapIndex]), so the map keeps the entries read before an error. The
    second component is the rest of the buffer, [None] after an error. *)
Fixpoint decEntries (fuel : nat) (n : Z) (b : list byte) (m : http.Header)
    : http.Header * option (list byte) :=
  if n <=? 0 then (m, Some b)
  else
    match fuel with
    | O => (m, None)
    | S fuel' =>
        match decString b with
        | None => (m, None)
        | Some (k, b') =>
            match decStringSlice b' with
            | None => (m, None)
            | Some (vs, b'') => decEntries fuel' (n - 1) b'' (<[k := vs]> m)
            end
        end
    end.

(** [decodeMap]: the count is converted to [int]
    ([n := int(state.decodeUint())]), and a nil map is allocated as soon as
    it is read; a count that is negative as an [int] gives no entry. *)
Definition decMap (b : list byte) (h : option http.Header)
    : option http.Header * option (list byte) :=
  match decodeUint b with
  | None => (h, None)
  | Some (n, b') =>
      let '(m, rest) :=
        decEntries (length b') (to_int64 n) b' (default ∅ h) in
      (Some m, rest)
  end.

(** [Time.MarshalBinary], version 1: the version, the seconds in eight
    bytes, the nanoseconds in four, the zone offset in minutes in two. The
    model holds no location: the offset is written as for a time in UTC
    ([-1]); for a time in another zone the package writes the offset of
    the zone in these two bytes, which [UnmarshalBinary] uses for the
    location alone. *)
Definition timeBinaryVersionV1 : Z := 1.
Definition timeBinaryVersionV2 : Z := 2.

Definition MarshalBinary (t : Time) : list byte :=
  byte_of timeBinaryVersionV1
    :: bigEndian 8 (time.sec t) ++ bigEndian 4 (time.nsec t)
    ++ [byte_of (-1); byte_of (-1)].

(** [nsecMask = 1<<30 - 1]: the bits of the wall word [Time.nsec()] reads. *)
Definition nsecMask : Z := Z.ones 30.

(** [wallToInternal]: the seconds from year 1 to year 1885. *)
Definition wallToInternal : Z :=
  (1884 * 365 + 1884 / 4 - 1884 / 100 + 1884 / 400) * 86400.

(** The seconds and nanoseconds a [Time] reads ([Time.sec], [Time.nsec])
    after [t.wall = uint64(nsec); t.ext = sec] for an [int32] given by its
    bits [nsec32]: the conversion extends the sign, and with bit 63 of the
    wall word set the seconds are read from that word. (That bit also says
    that [ext] holds a monotonic clock reading; the model has none.) *)
Definition wallTime (sec nsec32 : Z) : Time :=
  let wall := if nsec32 <? 2 ^ 31 then nsec32 else nsec32 + (2 ^ 64 - 2 ^ 32) in
  if Z.testbit wall 63
  then time.mkTime
         (wallToInternal + Z.shiftr (Z.land (Z.shiftl wall 1) (Z.ones 64)) 31)
         (Z.land wall nsecMask)
  else time.mkTime sec (Z.land wall nsecMask).

(** [Time.UnmarshalBinary]; the zone offset sets the location, which the
    model does not hold. *)
Definition UnmarshalBinary (data : list byte) : option Time :=
  match data with
  | [] => None
  | version :: buf =>
      if negb ((byte_val version =? timeBinaryVersionV1)
               || (byte_val version =? timeBinaryVersionV2)) then None
      else
        let wantLen :=
          if byte_val version =? timeBinaryVersionV2 then 16 else 15 in
        if negb (len data =? wantLen) then None
        else
          let sec := to_int64 (beValue (take 8 buf)) in
          let nsec := beValue (take 4 (drop 8 buf)) in
          Some (wallTime sec nsec)
  end.

(** A [GobEncoder] value travels as a byte slice. *)
Definition encTime (t : Time) : list byte := encBytes (MarshalBinary t).

(** [decodeGobDecoder]. *)
Definition decTime (b : list byte) : option (Time * list byte) :=
  match decBytes b with
  | None => None
  | Some (bs, b') =>
      match UnmarshalBinary bs with
      | None => None
      | Some t => Some (t, b')
      end
  end.

(** A structure is the sequence of its fields that are not zero, each
    preceded by its distance to the field sent before it ([state.update]),
    and closed by a zero. *)
Fixpoint encodeStruct (fieldnum : Z) (fs : list (Z * list byte)) : list byte :=
  match fs with
  | [] => [x00]
  | (i, v) :: fs' => encodeUint (i - fieldnum) ++ v ++ encodeStruct i fs'
  end.

(** The fields of a [Response] that are transmitted, with their numbers. An
    empty slice, a nil map, a zero time and a zero integer are left out. *)
Definition fields (r : Response) : list (Z * list byte) :=
  (if 0 <? len (Value r) then [(0, encBytes (Value r))] else [])
  ++ match Header r with
     | None => []
     | Some m => [(1, encMap (map_to_list m))]
     end
  ++ (if time.IsZero (Expiration r) then [] else [(2, encTime (Expiration r))])
  ++ (if time.IsZero (LastAccess r) then [] else [(3, encTime (LastAccess r))])
  ++ (if Frequency r =? 0 then [] else [(4, encodeInt (Frequency r))]).

Definition numFields : Z := 5.

(** The decoding instruction of field [fieldnum], storing into [r]. The
    second component is the rest of the buffer, [None] after an error; what
    was stored before the error stays in [r]. *)
Definition decodeField (fieldnum : Z) (b : list byte) (r : Response)
    : Response * option (list byte) :=
  if fieldnum =? 0 then
    match decBytes b with
    | None => (r, None)
    | Some (v, b') =>
        (mkResponse v (Header r) (Expiration r) (LastAccess r) (Frequency r),
         Some b')
    end
  else if fieldnum =? 1 then
    let '(h, rest) := decMap b (Header r) in
    (mkResponse (Value r) h (Expiration r) (LastAccess r) (Frequency r), rest)
  else if fieldnum =? 2 then
    match decTime b with
    | None => (r, None)
    | Some (t, b') =>
        (mkResponse (Value r) (Header r) t (LastAccess r) (Frequency r),
         Some b')
    end
  else if fieldnum =? 3 then
    match decTime b with
    | None => (r, None)
    | Some (t, b') =>
        (mkResponse (Value r) (Header r) (Expiration r) t (Frequency r),
         Some b')
    end
  else
    match decodeInt b with
    | None => (r, None)
    | Some (i, b') =>
        (mkResponse (Value r) (Header r) (Expiration r) (LastAccess r) i,
         Some b')
    end.

(** [decodeStruct]: the loop runs while the buffer is not empty, ends at a
    zero delta and fails on a field number past the last field. The field
    number grows with every round and is bounded by [numFields], so
    [numFields] rounds of [fuel] are never used up ([decodeStruct_fuel]
    below). The boolean tells whether decoding ended without an error. *)
Fixpoint decodeStruct (fuel : nat) (fieldnum : Z) (b : list byte)
    (r : Response) : Response * bool :=
  match b with
  | [] => (r, true)
  | _ :: _ =>
      match decodeUint b with
      | None => (r, false)
      | Some (delta, b1) =>
          if max_int64 <? delta then (r, false)
          else if delta =? 0 then (r, true)
          else if numFields - delta <=? fieldnum then (r, false)
          else
            match fuel with
            | O => (r, false)
            | S fuel' =>
                match decodeField (fieldnum + delta) b1 r with
                | (r', None) => (r', false)
                | (r', Some b2) => decodeStruct fuel' (fieldnum + delta) b2 r'
                end
            end
      end
  end.

(** *** The stream *)

(** Type ids: the built-in ones, and those of the four types a stream of
    [Response] values describes. User ids are handed out at run time from
    [firstUserId] on, in the order the package meets the types; the model
    fixes the assignment of a process whose first encoded type is
    [Response]. *)
Definition tInt : Z := 2.
Definition tBytes : Z := 5.
Definition tString : Z := 6.
Definition firstUserId : Z := 64.
Definition idResponse : Z := firstUserId + 1.
Definition idStrings : Z := firstUserId + 2.
Definition idHeader : Z := firstUserId + 3.
Definition idTime : Z := firstUserId + 4.

(** [CommonType{Name, Id}]. *)
Definition commonType (name : string) (id : Z) : list byte :=
  encodeStruct (-1)
    ((if bool_decide (name = ""%string) then [] else [(0, encString name)])
     ++ [(1, encodeInt id)]).

(** [fieldType{Name, Id}]. *)
Definition fieldType (name : string) (id : Z) : list byte :=
  encodeStruct (-1) [(0, encString name); (1, encodeInt id)].

(** A message: the byte count, then the bytes. *)
Definition message (body : list byte) : list byte :=
  encodeUint (len body) ++ body.

(** A type definition is the message [(-id, wireType)]; the field of the
    [wireType] that is set tells the kind: [SliceT] is field 1, [StructT]
    field 2, [MapT] field 3 and [GobEncoderT] field 4. *)
Definition typeDef (id : Z) (kind : Z) (descr : list byte) : list byte :=
  message (encodeInt (- id) ++ encodeStruct (-1) [(kind, descr)]).

Definition responseFields : list (string * Z) :=
  [("Value"%string, tBytes); ("Header"%string, idHeader);
   ("Expiration"%string, idTime); ("LastAccess"%string, idTime);
   ("Frequency"%string, tInt)].

(** What [sendTypeDescriptor] writes ahead of the first [Response]: the
    structure, then the types of its fields in order, each followed by the
    types it is made of. *)
Definition typeDefs : list byte :=
  typeDef idResponse 2
    (encodeStruct (-1)
       [(0, commonType "Response" idResponse);
        (1, encodeUint (len responseFields)
              ++ flat_map (fun f => fieldType f.1 f.2) responseFields)])
  ++ typeDef idHeader 3
       (encodeStruct (-1)
          [(0, commonType "Header" idHeader);
           (1, encodeInt tString); (2, encodeInt idStrings)])
  ++ typeDef idStrings 1
       (encodeStruct (-1)
          [(0, commonType "" idStrings); (1, encodeInt tString)])
  ++ typeDef idTime 4
       (encodeStruct (-1) [(0, commonType "Time" idTime)]).

(** The value message of [r], without its byte count. *)
Definition encodeValue (r : Response) : list byte :=
  encodeInt idResponse ++ encodeStruct (-1) (fields r).

(** [NewEncoder(&b).Encode(&r)] on an empty buffer: the type definitions,
    then the value. A value of [tooBig] bytes or more is an encoding error,
    which leaves the buffer with the definitions alone. *)
Definition Encode (r : Response) : list byte :=
  let m := encodeValue r in
  if tooBig <=? len m then typeDefs else typeDefs ++ message m.

(** [l] without its prefix [p], if it starts with [p]. *)
Fixpoint stripPrefix (p l : list byte) : option (list byte) :=
  match p, l with
  | [], _ => Some l
  | _ :: _, [] => None
  | x :: p', y :: l' => if Byte.eqb x y then stripPrefix p' l' else None
  end.

(** [recvMessage]: read the count, then that many bytes. *)
Definition recvMessage (b : list byte) : option (list byte * list byte) :=
  match decodeUint b with
  | None => None
  | Some (nbytes, b') =>
      if tooBig <=? nbytes then None
      else if len b' <? nbytes then None
      else Some (take (Z.to_nat nbytes) b', drop (Z.to_nat nbytes) b')
  end.

(** [NewDecoder(bytes.NewReader(b)).Decode(&r)]. The decoder is modelled on
    the streams of this program: it reads the type definitions the encoder
    writes and treats any other opening of the stream as an error met
    before a field is stored. The value message is then decoded into [r]
    field by field. *)
Definition Decode (b : list byte) (r : Response) : Response * bool :=
  match stripPrefix typeDefs b with
  | None => (r, false)
  | Some b1 =>
      match recvMessage b1 with
      | None => (r, false)
      | Some (msg, _) =>
          match decodeInt msg with
          | None => (r, false)
          | Some (id, body) =>
              if id =? idResponse
              then decodeStruct (Z.to_nat numFields) (-1) body r
              else (r, false)
          end
      end
  end.

End gob.

(** [BytesToResponse] converts a byte array into a [Response]; the error of
    [Decode] is dropped. *)
Definition BytesToResponse (b : list byte) : Response :=
  (gob.Decode b zeroResponse).1.

(** [Bytes] converts a [Response] into a byte array; the error of [Encode]
    is dropped. *)
Definition Bytes (r : Response) : list byte := gob.Encode r.

(** ** net/url: the query string *)

(** [a <= b] on Go strings: bytewise lexicographic order. *)
Definition string_le (a b : string) : Prop := String.leb a b = true.

#[global] Instance string_le_dec : RelDecision string_le :=
  fun a b => decide (String.leb a b = true).

Module url.

(** [url.Values] maps a parameter name to its values. *)
Abbreviation Values := (gmap string (list string)).

(** The part of a [url.URL] the middleware works on. [Path] stands for what
    [URL.String] writes before the query (scheme, authority and escaped
    path) and [Fragment] for what it writes after it. *)
Record URL := mkURL {
  Path : string;
  ForceQuery : bool;
  RawQuery : string;
  Fragment : string
}.

Definition String (u : URL) : string :=
  Path u
  ++ (if ForceQuery u || negb (String.eqb (RawQuery u) "")
      then "?" ++ RawQuery u else "")
  ++ Fragment u.

Definition code (c : ascii) : Z := Z.of_N (N_of_ascii c).

Definition between (lo hi c : ascii) : bool :=
  (code lo <=? code c) && (code c <=? code hi).

(** [shouldEscape(c, encodeQueryComponent)]: letters, digits and the marks
    [-_.~] are kept; everything else is escaped. *)
Definition shouldEscape (c : ascii) : bool :=
  negb (between "a" "z" c || between "A" "Z" c || between "0" "9" c
        || Ascii.eqb c "-" || Ascii.eqb c "_" || Ascii.eqb c "."
        || Ascii.eqb c "~").

(** [upperhex[i]] for [i < 16]. *)
Definition upperhex (i : Z) : ascii :=
  if i <? 10 then ascii_of_N (Z.to_N (code "0" + i))
  else ascii_of_N (Z.to_N (code "A" + (i - 10))).

Definition ishex (c : ascii) : bool :=
  between "0" "9" c || between "a" "f" c || between "A" "F" c.

Definition unhex (c : ascii) : Z :=
  if between "0" "9" c then code c - code "0"
  else if between "a" "f" c then code c - code "a" + 10
  else if between "A" "F" c then code c - code "A" + 10
  else 0.

(** [QueryEscape]. *)
Fixpoint QueryEscape (s : string) : string :=
  match s with
  | EmptyString => EmptyString
  | String.String c s' =>
      if Ascii.eqb c " " then String.String "+" (QueryEscape s')
      else if shouldEscape c then
        String.String "%"
          (String.String (upperhex (Z.shiftr (code c) 4))
             (String.String (upperhex (Z.land (code c) 15)) (QueryEscape s')))
      else String.String c (QueryEscape s')
  end.

(** [QueryUnescape]; [None] is an [EscapeError]: a [%] that is not followed
    by two hexadecimal digits. *)
Fixpoint QueryUnescape (s : string) : option string :=
  match s with
  | EmptyString => Some EmptyString
  | String.String c s' =>
      if Ascii.eqb c "%" then
        match s' with
        | String.String h1 (String.String h2 s'') =>
            if ishex h1 && ishex h2 then
              match QueryUnescape s'' with
              | None => None
              | Some t =>
                  Some (String.String
                          (ascii_of_N
                             (Z.to_N (Z.lor (Z.shiftl (unhex h1) 4) (unhex h2))))
                          t)
              end
            else None
        | _ => None
        end
      else
        match QueryUnescape s' with
        | None => None
        | Some t => Some (String.String (if Ascii.eqb c "+" then " "%char else c) t)
        end
  end.

(** [strings.Cut(s, sep)] for a one-byte separator: the text before the
    first [sep] and the text after it. *)
Fixpoint Cut (sep : ascii) (s : string) : string * string :=
  match s with
  | EmptyString => (EmptyString, EmptyString)
  | String.String c s' =>
      if Ascii.eqb c sep then (EmptyString, s')
      else let '(a, b) := Cut sep s' in (String.String c a, b)
  end.

(** The pieces [Cut(query, "&")] yields when it is applied again and again
    to what it left, as the loop of [parseQuery] does. *)
Fixpoint segments (sep : ascii) (s : string) : list string :=
  match s with
  | EmptyString => []
  | String.String c s' =>
      if Ascii.eqb c sep then EmptyString :: segments sep s'
      else
        match segments sep s' with
        | [] => [String.String c EmptyString]
        | x :: xs => String.String c x :: xs
        end
  end.

Fixpoint contains (c : ascii) (s : string) : bool :=
  match s with
  | EmptyString => false
  | String.String c' s' => Ascii.eqb c' c || contains c s'
  end.

(** One round of the loop of [parseQuery]: a piece with a semicolon, an
    empty piece and a piece that does not unescape are skipped. *)
Definition parsePair (piece : string) : option (string * string) :=
  if contains ";" piece then None
  else if String.eqb piece "" then None
  else
    let '(key, value) := Cut "=" piece in
    match QueryUnescape key with
    | None => None
    | Some key =>
        match QueryUnescape value with
        | None => None
        | Some value => Some (key, value)
        end
    end.

(** [m[key] = append(m[key], value)]. *)
Definition add (m : Values) (kv : string * string) : Values :=
  <[kv.1 := default [] (m !! kv.1) ++ [kv.2]]> m.

(** The key-value pairs of a query string, in the order they appear. *)
Definition pairs (query : string) : list (string * string) :=
  omap parsePair (segments "&" query).

(** [ParseQuery]; the error is not part of the result, as [URL.Query]
    discards it. *)
Definition ParseQuery (query : string) : Values :=
  foldl add ∅ (pairs query).

(** [u.Query()]. *)
Definition Query (u : URL) : Values := ParseQuery (RawQuery u).

(** The order of [slices.Sort(keys)], on the entries of the map. *)
Definition entry_le (a b : string * list string) : Prop := string_le a.1 b.1.

#[global] Instance entry_le_dec : RelDecision entry_le :=
  fun a b => decide (String.leb a.1 b.1 = true).

(** The keys of [v] in increasing order, with their values. *)
Definition sortedEntries (v : Values) : list (string * list string) :=
  merge_sort entry_le (map_to_list v).

(** One step of the inner loop of [Encode]: an ampersand unless the buffer
    is empty, then [key=value], both escaped. *)
Definition writePair (buf : string) (kv : string * string) : string :=
  (if String.eqb buf "" then buf else buf ++ "&")
  ++ QueryEscape kv.1 ++ "=" ++ QueryEscape kv.2.

(** [v.Encode()]: the "URL encoded" form of the values, sorted by key. *)
Definition Encode (v : Values) : string :=
  foldl writePair ""
    (flat_map (fun e => (fun x => (e.1, x)) <$> e.2) (sortedEntries v)).

End url.

(** [sort.Slice(param, func(i, j) bool { return param[i] < param[j] })]. *)
Definition sortStrings (param : list string) : list string :=
  merge_sort string_le param.

(** [sortURLParams] sorts the values of every parameter and writes the
    query back. *)
Definition sortURLParams (u : url.URL) : url.URL :=
  let params := sortStrings <$> url.Query u in
  url.mkURL (url.Path u) (url.ForceQuery u) (url.Encode params) (url.Fragment u).

(** ** strconv: keys as strings *)

Module strconv.

(** [digits], and [digits[i]] for [i < 36]. *)
Definition digits : string := "0123456789abcdefghijklmnopqrstuvwxyz".

Definition digit (i : Z) : ascii :=
  default "0"%char (String.get (Z.to_nat i) digits).

(** The general case of [formatBits], for a base that is neither 10 nor a
    power of two. The digits are written into a buffer from its end; [a] is
    what is written so far and [free] the number of bytes of the buffer that
    are left:
    [for u >= b { i--; q := u / b; a[i] = digits[u-q*b]; u = q }]
    [i--; a[i] = digits[u]]. *)
Fixpoint formatBits (free : nat) (u b : Z) (a : string) : string :=
  match free with
  | O => a
  | S free' =>
      if b <=? u then
        let q := u / b in
        formatBits free' q b (String (digit (u - q * b)) a)
      else String (digit u) a
  end.

(** [strconv.FormatUint(i, base)] for such a base; the buffer has 65
    bytes. *)
Definition FormatUint (i base : Z) : string := formatBits 65 i base "".

End strconv.

(** [KeyAsString] can be used by adapters to convert the cache key from
    uint64 to string. *)
Definition KeyAsString (key : Z) : string := strconv.FormatUint key 36.

(** ** hash/fnv, 64-bit FNV-1a *)

Module fnv.

Definition offset64 : Z := 14695981039346656037.
Definition prime64 : Z := 1099511628211.

(** [New64a()]. *)
Definition New64a : Z := offset64.

(** [hash.Write(data)]: [hash ^= c; hash *= prime64] for every byte. *)
Definition Write (h : Z) (data : list byte) : Z :=
  fold_left (fun h c => to_uint64 (Z.lxor h (byte_val c) * prime64)) data h.

End fnv.

(** ** net/http: requests, response writers and handlers *)

Definition MethodGet : string := "GET".
Definition MethodPost : string := "POST".

(** What [io.ReadAll] finds in a body: its bytes, or an error. *)
Inductive Reader :=
  | Reads (b : list byte)
  | Fails.

(** The parts of an [http.Request] the middleware and the key generators
    read: [HeaderValues r key] is [r.Header.Values(key)], and [Body] what
    the body stream holds when there is one ([None] is a nil [r.Body]). *)
Record Request := mkRequest {
  Method : string;
  URL : url.URL;
  HeaderValues : string -> list string;
  Body : option Reader
}.

Definition withURL (r : Request) (u : url.URL) : Request :=
  mkRequest (Method r) u (HeaderValues r) (Body r).

(** [r.URL.RawQuery = q]. *)
Definition withRawQuery (r : Request) (q : string) : Request :=
  withURL r (url.mkURL (url.Path (URL r)) (url.ForceQuery (URL r)) q
               (url.Fragment (URL r))).

(** The interface [http.ResponseWriter]: [headerOf] and [updHeader] read
    and change the map [Header()] returns. A byte slice is handed to [Write]
    by reference: [Overwritten b w] is what becomes of the writer when the
    caller afterwards copies [b] into the buffer of its last [Write]; a
    writer that did not keep the slice is as before. *)
Class ResponseWriter (W : Type) := {
  headerOf : W -> http.Header;
  updHeader : (http.Header -> http.Header) -> W -> W;
  WriteHeader : Z -> W -> W;
  Write : list byte -> W -> W;
  Overwritten : list byte -> W -> W
}.

(** The writer the server hands to the middleware: its header map and the
    calls it received. It takes the bytes of a [Write] out of the slice
    before it returns. *)
Inductive WriterCall :=
  | CallWriteHeader (statusCode : Z)
  | CallWrite (b : list byte).

Record Recorder := mkRecorder {
  header : http.Header;
  calls : list WriterCall
}.

#[global] Instance Recorder_writer : ResponseWriter Recorder := {|
  headerOf := header;
  updHeader f w := mkRecorder (f (header w)) (calls w);
  WriteHeader statusCode w :=
    mkRecorder (header w) (calls w ++ [CallWriteHeader statusCode]);
  Write b w := mkRecorder (header w) (calls w ++ [CallWrite b]);
  Overwritten _ w := w
|}.

(** What a handler does with the writer it is given, and with the buffer
    it writes from: [DoOverwrite b] is [copy(buf, b)] on the buffer [buf]
    whose slice it passed to its last [Write]. *)
Inductive HandlerStep :=
  | DoHeader (f : http.Header -> http.Header)
  | DoWriteHeader (statusCode : Z)
  | DoWrite (b : list byte)
  | DoOverwrite (b : list byte).

(** An [http.Handler], by the steps it takes on a request. *)
Definition Handler : Type := Request -> list HandlerStep.

Definition step {W} `{ResponseWriter W} (w : W) (s : HandlerStep) : W :=
  match s with
  | DoHeader f => updHeader f w
  | DoWriteHeader statusCode => WriteHeader statusCode w
  | DoWrite b => Write b w
  | DoOverwrite b => Overwritten b w
  end.

(** [next.ServeHTTP(w, r)]. *)
Definition ServeHTTP {W} `{ResponseWriter W} (next : Handler) (w : W)
    (r : Request) : W :=
  foldl step w (next r).

(** ** The capturing writer *)

Module responseWriter.

(** [type responseWriter struct { http.ResponseWriter; statusCode int;
    body []byte }]. [body] is the content of the slice the field holds. *)
Record t := mk {
  ResponseWriter : Recorder;
  statusCode : Z;
  body : list byte
}.

(** [&responseWriter{ResponseWriter: w}] *)
Definition new (w : Recorder) : t := mk w 0 [].

Definition WriteHeader (code : Z) (w : t) : t :=
  mk (WriteHeader code (ResponseWriter w)) code (body w).

(** [w.body = b]: the writer keeps the slice of the caller, not a copy of
    its bytes. *)
Definition Write (b : list byte) (w : t) : t :=
  mk (Write b (ResponseWriter w)) (statusCode w) b.

(** [copy(old, b)]: [b] over the start of a slice that holds [old]. *)
Definition overwrite (old b : list byte) : list byte :=
  take (length old) (b ++ drop (length b) old).

(** The caller copies [b] into the buffer of its last [Write]: the slice in
    [body] is a slice of that buffer. *)
Definition Overwritten (b : list byte) (w : t) : t :=
  mk (Overwritten b (ResponseWriter w)) (statusCode w) (overwrite (body w) b).

End responseWriter.

#[global] Instance responseWriter_writer : ResponseWriter responseWriter.t := {|
  headerOf w := headerOf (responseWriter.ResponseWriter w);
  updHeader f w :=
    responseWriter.mk (updHeader f (responseWriter.ResponseWriter w))
      (responseWriter.statusCode w) (responseWriter.body w);
  WriteHeader := responseWriter.WriteHeader;
  Write := responseWriter.Write;
  Overwritten := responseWriter.Overwritten
|}.

(** ** The client *)

Definition GenerateKey : Type := Request -> list byte.

(** [Client]. The field [adapter] tells whether an adapter is set; the
    store behind it is threaded through the run of the middleware. A nil
    slice of methods and a nil key function are [None]. *)
Record Client := mkClient {
  adapter : bool;
  ttl : time.Duration;
  refreshKey : string;
  methods : option (list string);
  writeExpiresHeader : bool;
  vary : list string;
  generateKey : option GenerateKey
}.

(** [Adapter]: the interface of the store. Every call may change the
    store. *)
Class Adapter (A : Type) := {
  Get : Z -> A -> (list byte * bool) * A;
  Set_ : Z -> list byte -> Time -> A -> A;
  Release : Z -> A -> A
}.

Definition cacheableMethod (c : Client) (method : string) : bool :=
  existsb (String.eqb method) (default [] (methods c)).

(** [DefaultGenerateKey]: the URL, followed by the body of a POST; nil when
    the body of a POST cannot be read. The function reads the body to its
    end and puts a buffer of the bytes read in its place
    ([r.Body = io.NopCloser(bytes.NewBuffer(body))]): what the body holds
    for the handler is what it held before, so the request is given back as
    it was. *)
Definition DefaultGenerateKey (r : Request) : list byte :=
  match Body r with
  | Some body =>
      if String.eqb (Method r) MethodPost then
        match body with
        | Reads body => bytes_of_string (url.String (URL r)) ++ body
        | Fails => []
        end
      else bytes_of_string (url.String (URL r))
  | None => bytes_of_string (url.String (URL r))
  end.

(** [c.generateKey(r)]. [NewClient] leaves no client without a key
    function; for the zero client the call is given no bytes. *)
Definition callGenerateKey (c : Client) (r : Request) : list byte :=
  match generateKey c with
  | Some fn => fn r
  | None => []
  end.

(** [c.hash(r)]. *)
Definition hash (c : Client) (r : Request) : Z :=
  fold_left
    (fun h header =>
       let value := String.concat "" (HeaderValues r header) in
       if String.eqb value "" then h
       else fnv.Write h (bytes_of_string value))
    (vary c)
    (fnv.Write fnv.New64a (callGenerateKey c r)).

(** *** Construction *)

(** The options. [ClientWithAdapter a] is [ClientWithAdapter] of a nil
    adapter when [a] is [false]. *)
Inductive ClientOption :=
  | ClientWithAdapter (a : bool)
  | ClientWithTTL (ttl : time.Duration)
  | ClientWithRefreshKey (refreshKey : string)
  | ClientWithMethods (methods : option (list string))
  | ClientWithGenerateKey (fn : option GenerateKey)
  | ClientWithVary (headers : list string)
  | ClientWithExpiresHeader.

Inductive error :=
  | ErrAdapterNotSet
  | ErrTTLNotSet
  | ErrInvalidTTL (ttl : time.Duration)
  | ErrInvalidMethod (method : string).

(** [&Client{}] *)
Definition zeroClient : Client := mkClient false 0 "" None false [] None.

Definition applyOption (opt : ClientOption) (c : Client) : Client + error :=
  match opt with
  | ClientWithAdapter a =>
      inl (mkClient a (ttl c) (refreshKey c) (methods c)
             (writeExpiresHeader c) (vary c) (generateKey c))
  | ClientWithTTL d =>
      if d <? 1 then inr (ErrInvalidTTL d)
      else inl (mkClient (adapter c) d (refreshKey c) (methods c)
                  (writeExpiresHeader c) (vary c) (generateKey c))
  | ClientWithRefreshKey k =>
      inl (mkClient (adapter c) (ttl c) k (methods c)
             (writeExpiresHeader c) (vary c) (generateKey c))
  | ClientWithMethods ms =>
      match
        List.find (fun m => negb (String.eqb m MethodGet || String.eqb m MethodPost))
          (default [] ms)
      with
      | Some m => inr (ErrInvalidMethod m)
      | None =>
          inl (mkClient (adapter c) (ttl c) (refreshKey c) ms
                 (writeExpiresHeader c) (vary c) (generateKey c))
      end
  | ClientWithGenerateKey fn =>
      inl (mkClient (adapter c) (ttl c) (refreshKey c) (methods c)
             (writeExpiresHeader c) (vary c) fn)
  | ClientWithVary headers =>
      inl (mkClient (adapter c) (ttl c) (refreshKey c) (methods c)
             (writeExpiresHeader c) headers (generateKey c))
  | ClientWithExpiresHeader =>
      inl (mkClient (adapter c) (ttl c) (refreshKey c) (methods c) true
             (vary c) (generateKey c))
  end.

Fixpoint applyOptions (opts : list ClientOption) (c : Client) : Client + error :=
  match opts with
  | [] => inl c
  | opt :: opts' =>
      match applyOption opt c with
      | inl c' => applyOptions opts' c'
      | inr e => inr e
      end
  end.

(** [NewClient] initializes the client with the given options. *)
Definition NewClient (opts : list ClientOption) : Client + error :=
  match applyOptions opts zeroClient with
  | inr e => inr e
  | inl c =>
      if negb (adapter c) then inr ErrAdapterNotSet
      else if ttl c <? 1 then inr ErrTTLNotSet
      else
        inl (mkClient (adapter c) (ttl c) (refreshKey c)
               (Some (default [MethodGet] (methods c)))
               (writeExpiresHeader c) (vary c)
               (Some (default DefaultGenerateKey (generateKey c))))
  end.

(** ** The middleware *)

(** What a run of the middleware does to the outside: the calls to the
    adapter and the call to the wrapped handler, with the request it was
    given and, when the call went through the capturing writer, that writer
    as the handler left it. *)
Inductive Event :=
  | AdapterGet (key : Z)
  | AdapterSet (key : Z) (response : list byte) (expiration : Time)
  | AdapterRelease (key : Z)
  | Served (r : Request) (captured : option responseWriter.t).

(** The state a run works on: the store behind the adapter, the clock
    ([clock n] is what the [n]-th call of [time.Now] returns), the writer of
    the outbound response and the events so far. *)
Record World (A : Type) := mkWorld {
  store : A;
  clock : nat -> Time;
  ticks : nat;
  writer : Recorder;
  trace : list Event
}.

Arguments mkWorld {A}.
Arguments store {A}.
Arguments clock {A}.
Arguments ticks {A}.
Arguments writer {A}.
Arguments trace {A}.

(** State passing. *)
Definition M (A X : Type) : Type := World A -> X * World A.

Definition ret {A X} (x : X) : M A X := fun w => (x, w).

Definition bind {A X Y} (m : M A X) (k : X -> M A Y) : M A Y :=
  fun w => let '(x, w') := m w in k x w'.

Notation "'let*' x := m 'in' k" := (bind m (fun x => k))
  (at level 10, x name, m at level 100, k at level 200).
Notation "m >> k" := (bind m (fun _ => k))
  (at level 100, k at level 200, right associativity).

Section Middleware.

Context {A : Type} `{Adapter A}.

(** [textproto.CanonicalMIMEHeaderKey], and
    [t.UTC().Format(http.TimeFormat)]. *)
Variable CanonicalMIMEHeaderKey : string -> string.
Variable FormatTime : Time -> string.

Definition emit (e : Event) : M A unit :=
  fun w => (tt, mkWorld (store w) (clock w) (ticks w) (writer w) (trace w ++ [e])).

(** [c.adapter.Get(key)] *)
Definition adapterGet (key : Z) : M A (list byte * bool) :=
  fun w =>
    let '(res, a) := Get key (store w) in
    (res, mkWorld a (clock w) (ticks w) (writer w) (trace w ++ [AdapterGet key])).

(** [c.adapter.Set(key, response, expiration)] *)
Definition adapterSet (key : Z) (response : list byte) (expiration : Time)
    : M A unit :=
  fun w =>
    (tt, mkWorld (Set_ key response expiration (store w)) (clock w) (ticks w)
           (writer w) (trace w ++ [AdapterSet key response expiration])).

(** [c.adapter.Release(key)] *)
Definition adapterRelease (key : Z) : M A unit :=
  fun w =>
    (tt, mkWorld (Release key (store w)) (clock w) (ticks w) (writer w)
           (trace w ++ [AdapterRelease key])).

(** [time.Now()] *)
Definition Now : M A Time :=
  fun w =>
    (clock w (ticks w),
     mkWorld (store w) (clock w) (S (ticks w)) (writer w) (trace w)).

Definition getWriter : M A Recorder := fun w => (writer w, w).

Definition putWriter (rec : Recorder) : M A unit :=
  fun w => (tt, mkWorld (store w) (clock w) (ticks w) rec (trace w)).

(** [w.Header().Set(key, value)] *)
Definition headerSet (key value : string) (w : Recorder) : Recorder :=
  updHeader (fun h => <[CanonicalMIMEHeaderKey key := [value]]> h) w.

(** The fresh hit is written out: the cached headers, [Expires] and [Vary]
    when configured, and the cached body. *)
Definition writeCached (c : Client) (response : Response) (w : Recorder)
    : Recorder :=
  let w :=
    foldl (fun w kv => headerSet kv.1 (String.concat "," kv.2) w) w
      (map_to_list (default ∅ (Header response))) in
  let w :=
    if writeExpiresHeader c
    then headerSet "Expires" (FormatTime (Expiration response)) w
    else w in
  let w :=
    if String.eqb (String.concat "," (vary c)) "" then w
    else headerSet "Vary" (String.concat "," (vary c)) w in
  Write (Value response) w.

(** [response.LastAccess = time.Now(); response.Frequency++] *)
Definition touch (response : Response) (now : Time) : Response :=
  mkResponse (Value response) (Header response) (Expiration response) now
    (to_int64 (Frequency response + 1)).

(** The end of the handler function, from
    [rw := &responseWriter{ResponseWriter: w}] on. *)
Definition forward (c : Client) (next : Handler) (key : Z) (r : Request)
    : M A unit :=
  let* w := getWriter in
  (* rw := &responseWriter{ResponseWriter: w}; next.ServeHTTP(rw, r) *)
  let rw := ServeHTTP next (responseWriter.new w) r in
  putWriter (responseWriter.ResponseWriter rw) >>
  emit (Served r (Some rw)) >>
  let statusCode := responseWriter.statusCode rw in
  let value := responseWriter.body rw in
  let* now := Now in
  let expires := time.Add now (ttl c) in
  if statusCode <? 400 then
    let response := mkResponse value (Some (headerOf rw)) expires now 1 in
    adapterSet key (Bytes response) (Expiration response)
  else ret tt.

(** The handler function [Middleware] returns. The request is a pointer in
    Go: what [sortURLParams] and the refresh path write into its URL is what
    the wrapped handler sees. *)
Definition Middleware (c : Client) (next : Handler) (r : Request) : M A unit :=
  if negb (cacheableMethod c (Method r)) then
    (* next.ServeHTTP(w, r); return *)
    let* w := getWriter in
    putWriter (ServeHTTP next w r) >>
    emit (Served r None)
  else
    (* sortURLParams(r.URL); key := c.hash(r) *)
    let r := withURL r (sortURLParams (URL r)) in
    let key := hash c r in
    (* params := r.URL.Query(); if _, ok := params[c.refreshKey]; ok *)
    let params := url.Query (URL r) in
    match params !! refreshKey c with
    | Some _ =>
        (* delete(params, c.refreshKey); r.URL.RawQuery = params.Encode() *)
        let params := delete (refreshKey c) params in
        let r := withRawQuery r (url.Encode params) in
        let key := hash c r in
        adapterRelease key >>
        forward c next key r
    | None =>
        (* b, ok := c.adapter.Get(key); response := BytesToResponse(b) *)
        let* res := adapterGet key in
        let response := BytesToResponse res.1 in
        if res.2 then
          (* if response.Expiration.After(time.Now()) *)
          let* now := Now in
          if time.After (Expiration response) now then
            (* response.LastAccess = time.Now(); response.Frequency++ *)
            let* now' := Now in
            let response := touch response now' in
            adapterSet key (Bytes response) (Expiration response) >>
            let* w := getWriter in
            putWriter (writeCached c response w)
          else
            adapterRelease key >>
            forward c next key r
        else forward c next key r
    end.

End Middleware.

(** *** Runs and what can be seen of them *)

Section Runs.

Context {A : Type} `{Adapter A}.
Variable CanonicalMIMEHeaderKey : string -> string.
Variable FormatTime : Time -> string.

(** One request handled: the store is [a], the clock reads [clk 0],
    [clk 1], ... and the outbound writer is [out]. *)
Definition handle (c : Client) (next : Handler) (r : Request) (a : A)
    (clk : nat -> Time) (out : Recorder) : World A :=
  (Middleware CanonicalMIMEHeaderKey FormatTime c next r
     (mkWorld a clk 0%nat out [])).2.

End Runs.

Definition isServed (e : Event) : bool :=
  match e with
  | Served _ _ => true
  | _ => false
  end.

(** The wrapped handler was called during the run. *)
Definition handlerCalled (t : list Event) : bool := existsb isServed t.

(** The request as the middleware normalizes it before deriving a key. *)
Definition normalized (r : Request) : Request :=
  withURL r (sortURLParams (URL r)).

(** The request after the refresh parameter of [c] is taken out. *)
Definition refreshed (c : Client) (r : Request) : Request :=
  withRawQuery (normalized r)
    (url.Encode (delete (refreshKey c) (url.Query (URL (normalized r))))).

(** The entry the miss path builds from what the capturing writer holds. *)
Definition captured (c : Client) (rw : responseWriter.t) (now : Time)
    : Response :=
  mkResponse (responseWriter.body rw) (Some (headerOf rw))
    (time.Add now (ttl c)) now 1.

(** A store in memory that never evicts: the bytes and the expiration of
    every key. *)
Abbreviation Memory := (gmap Z (list byte * Time)).

#[global] Instance Memory_adapter : Adapter Memory := {|
  Get key a :=
    match a !! key with
    | Some (b, _) => ((b, true), a)
    | None => (([], false), a)
    end;
  Set_ key response expiration a := <[key := (response, expiration)]> a;
  Release key a := delete key a
|}.

(** *** The paths of a run *)

(** The events of the miss path after the handler returned: the new entry is
    set when the captured status is below 400. *)
Definition stored (c : Client) (key : Z) (rw : responseWriter.t) (now : Time)
    : list Event :=
  if responseWriter.statusCode rw <? 400
  then [AdapterSet key (Bytes (captured c rw now))
          (Expiration (captured c rw now))]
  else [].

Section Paths.

Context {A : Type} `{Adapter A}.

(** The events of a request whose method is cacheable, path by path: the
    refresh, the lookup that finds nothing, the lookup that finds a stale
    entry and the lookup that finds a fresh one. *)
Inductive Path (c : Client) (next : Handler) (r : Request) (a : A)
    (clk : nat -> Time) (out : Recorder) : list Event -> Prop :=
  | PathRefresh rw :
      is_Some (url.Query (URL (normalized r)) !! refreshKey c) ->
      rw = ServeHTTP next (responseWriter.new out) (refreshed c r) ->
      Path c next r a clk out
        (AdapterRelease (hash c (refreshed c r))
           :: Served (refreshed c r) (Some rw)
           :: stored c (hash c (refreshed c r)) rw (clk 0%nat))
  | PathAbsent b a' rw :
      url.Query (URL (normalized r)) !! refreshKey c = None ->
      Get (hash c (normalized r)) a = ((b, false), a') ->
      rw = ServeHTTP next (responseWriter.new out) (normalized r) ->
      Path c next r a clk out
        (AdapterGet (hash c (normalized r))
           :: Served (normalized r) (Some rw)
           :: stored c (hash c (normalized r)) rw (clk 0%nat))
  | PathStale b a' rw :
      url.Query (URL (normalized r)) !! refreshKey c = None ->
      Get (hash c (normalized r)) a = ((b, true), a') ->
      time.After (Expiration (BytesToResponse b)) (clk 0%nat) = false ->
      rw = ServeHTTP next (responseWriter.new out) (normalized r) ->
      Path c next r a clk out
        (AdapterGet (hash c (normalized r))
           :: AdapterRelease (hash c (normalized r))
           :: Served (normalized r) (Some rw)
           :: stored c (hash c (normalized r)) rw (clk 1%nat))
  | PathHit b a' :
      url.Query (URL (normalized r)) !! refreshKey c = None ->
      Get (hash c (normalized r)) a = ((b, true), a') ->
      time.After (Expiration (BytesToResponse b)) (clk 0%nat) = true ->
      Path c next r a clk out
        [AdapterGet (hash c (normalized r));
         AdapterSet (hash c (normalized r))
           (Bytes (touch (BytesToResponse b) (clk 1%nat)))
           (Expiration (BytesToResponse b))].

End Paths.

(** The payloads of the entries a run has set, as they decode. *)
Definition storedPayloads (t : list Event) : list (list byte) :=
  omap (fun e => match e with
                 | AdapterSet _ b _ => Some (Value (BytesToResponse b))
                 | _ => None
                 end) t.

(** *** What the codec can carry *)

(** The fields of an entry are within the ranges of their Go types. *)
Definition validResponse (r : Response) : Prop :=
  time.valid (Expiration r) /\ time.valid (LastAccess r)
  /\ is_int64 (Frequency r).

(** The entry is within the sizes the codec accepts: its value message is
    shorter than [tooBig], and no header has more values than a slice of
    [tooBig] bytes holds. *)
Definition withinLimits (r : Response) : Prop :=
  len (gob.encodeValue r) < gob.tooBig
  /\ forall m k vs,
       Header r = Some m -> m !! k = Some vs ->
       len vs * gob.stringSize <= gob.tooBig.

Definition stringFits (s : string) : Prop :=
  len (bytes_of_string s) < gob.tooBig.

Definition sliceFits (vs : list string) : Prop :=
  len vs * gob.stringSize <= gob.tooBig /\ Forall stringFits vs.

Definition entryFits (kv : string * list string) : Prop :=
  stringFits kv.1 /\ sliceFits kv.2.

(** [value.SetMapIndex(key, elem)] *)
Definition store_entry (m : http.Header) (kv : string * list string)
    : http.Header :=
  <[kv.1 := kv.2]> m.

(** The bytes [iv.2] of field [iv.1] decode to the update [f], whatever
    follows them in the buffer. *)
Definition fieldOk (iv : Z * list byte) (f : Response -> Response) : Prop :=
  forall r rest, gob.decodeField iv.1 (iv.2 ++ rest) r = (f r, Some rest).

(** Field numbers grow from [p] on and stay below [numFields]. *)
Fixpoint increasing (p : Z) (fs : list (Z * list byte)) : Prop :=
  match fs with
  | [] => True
  | iv :: fs' => p < iv.1 < gob.numFields /\ increasing iv.1 fs'
  end.

Definition setValue (v : list byte) (r : Response) : Response :=
  mkResponse v (Header r) (Expiration r) (LastAccess r) (Frequency r).

Definition setHeader (kvs : list (string * list string)) (r : Response)
    : Response :=
  mkResponse (Value r) (Some (foldl store_entry (default ∅ (Header r)) kvs))
    (Expiration r) (LastAccess r) (Frequency r).

Definition setExpiration (t : Time) (r : Response) : Response :=
  mkResponse (Value r) (Header r) t (LastAccess r) (Frequency r).

Definition setLastAccess (t : Time) (r : Response) : Response :=
  mkResponse (Value r) (Header r) (Expiration r) t (Frequency r).

Definition setFrequency (i : Z) (r : Response) : Response :=
  mkResponse (Value r) (Header r) (Expiration r) (LastAccess r) i.

(** What decoding the transmitted fields of [r] does, field by field. *)
Definition setters (r : Response) : list (Response -> Response) :=
  (if 0 <? len (Value r) then [setValue (Value r)] else [])
  ++ match Header r with
     | None => []
     | Some m => [setHeader (map_to_list m)]
     end
  ++ (if time.IsZero (Expiration r) then [] else [setExpiration (Expiration r)])
  ++ (if time.IsZero (LastAccess r) then [] else [setLastAccess (LastAccess r)])
  ++ (if Frequency r =? 0 then [] else [setFrequency (Frequency r)]).

(** *** Queries *)

(** [key=value], escaped: what [Encode] writes for one pair. *)
Definition piece (kv : string * string) : string :=
  (url.QueryEscape kv.1 ++ "=" ++ url.QueryEscape kv.2)%string.

(** What [Encode] writes for the pairs after the first. *)
Fixpoint pieces (l : list (string * string)) : string :=
  match l with
  | [] => ""
  | kv :: l' => ("&" ++ piece kv ++ pieces l')%string
  end.

(** Every parameter of a parsed query has a value. *)
Definition nonemptyValues (m : url.Values) : Prop :=
  map_Forall (fun _ vs => vs <> []) m.

(** The parameter names of a query string, in the order they appear. *)
Definition paramNames (q : string) : list string := (url.pairs q).*1.

(** *** Keys as strings *)

(** The value of a digit of base 36, and the number a string of such digits
    denotes. *)
Definition digitValue (c : ascii) : Z :=
  if url.between "0" "9" c then url.code c - url.code "0"
  else url.code c - url.code "a" + 10.

Definition isDigit36 (c : ascii) : bool :=
  url.between "0" "9" c || url.between "a" "z" c.

Definition numeral36 (s : string) : Z :=
  fold_left (fun acc c => acc * 36 + digitValue c) (list_ascii_of_string s) 0.

(** The values of the [vary] headers of a request, one after the other. *)
Definition varyBytes (c : Client) (r : Request) : list byte :=
  flat_map (fun header =>
              bytes_of_string (String.concat "" (HeaderValues r header)))
    (vary c).

(** *** Options *)

(** The methods [ClientWithMethods] accepts. *)
Definition allowedMethod (m : string) : Prop :=
  m = MethodGet \/ m = MethodPost.

(** The last [ClientWithAdapter] among the options gave an adapter that is
    not nil. *)
Definition adapterGiven (opts : list ClientOption) : Prop :=
  exists pre post,
    opts = pre ++ ClientWithAdapter true :: post
    /\ forall a, ~ In (ClientWithAdapter a) post.

(** The options that return no error. *)
Definition accepted (opt : ClientOption) : Prop :=
  match opt with
  | ClientWithTTL d => 1 <= d
  | ClientWithMethods (Some ms) => forall m, In m ms -> allowedMethod m
  | _ => True
  end.

(** What holds of the client while the options are applied: the TTL is
    positive once it is set, and the methods are allowed ones. *)
Definition wellFormed (c : Client) : Prop :=
  (ttl c = 0 \/ 1 <= ttl c)
  /\ forall ms m, methods c = Some ms -> In m ms -> allowedMethod m.

(** *** Handlers and stores *)

(** The codes of the [WriteHeader] calls and the chunks of the [Write]
    calls among the steps of a handler, in order. *)
Definition statusCodes (steps : list HandlerStep) : list Z :=
  omap (fun s => match s with DoWriteHeader code => Some code | _ => None end)
    steps.

Definition chunks (steps : list HandlerStep) : list (list byte) :=
  omap (fun s => match s with DoWrite b => Some b | _ => None end) steps.

(** The store after the miss path set, or did not set, the new entry. *)
Definition storeAfter {A} `{Adapter A} (c : Client) (key : Z)
    (rw : responseWriter.t) (now : Time) (a : A) : A :=
  if responseWriter.statusCode rw <? 400
  then Set_ key (Bytes (captured c rw now)) (Expiration (captured c rw now)) a
  else a.

(** The pairs an entry of [url.Values] stands for. *)
Definition expand (e : string * list string) : list (string * string) :=
  (fun x => (e.1, x)) <$> e.2.

(** ** Sample clients, requests and handlers *)

Definition seconds (n : Z) : time.Duration := n * 10 ^ 9.

(** [NewClient(ClientWithAdapter(a), ClientWithTTL(10 * time.Second))] *)
Definition plainClient : Client :=
  mkClient true (seconds 10) "" (Some [MethodGet]) false []
    (Some DefaultGenerateKey).

(** The same with [ClientWithRefreshKey("_refresh")]. *)
Definition refreshClient : Client :=
  mkClient true (seconds 10) "_refresh" (Some [MethodGet]) false []
    (Some DefaultGenerateKey).

(** [GET path?query], without headers or body. *)
Definition get (path query : string) : Request :=
  mkRequest MethodGet (url.mkURL path false query "") (fun _ => []) None.

(** [POST path?query], without headers and with an empty body. *)
Definition post (path query : string) : Request :=
  mkRequest MethodPost (url.mkURL path false query "") (fun _ => [])
    (Some (Reads [])).

(** A handler that answers [200] with the body [hello]. *)
Definition hello : Handler :=
  fun _ => [DoHeader (insert "Content-Type"%string ["text/plain"%string]);
            DoWriteHeader 200; DoWrite (bytes_of_string "hello")].

(** The same body written in two calls. *)
Definition twoChunks : Handler :=
  fun _ => [DoWriteHeader 200; DoWrite (bytes_of_string "hel");
            DoWrite (bytes_of_string "lo")].

(** A handler that writes a body and never calls [WriteHeader]. *)
Definition silent : Handler :=
  fun _ => [DoWrite (bytes_of_string "hello")].

(** A clock that advances one second per reading, in the year 2025. *)
Definition wallClock (n : nat) : Time :=
  time.mkTime (63900000000 + Z.of_nat n) 0.

Definition blank : Recorder := mkRecorder ∅ [].

Definition noFormat (t : Time) : string := "".

Definition keyA : Z := hash plainClient (get "/a" "").

Definition helloWriter : responseWriter.t :=
  ServeHTTP hello (responseWriter.new blank) (get "/a" "").


(** The entry [hello] leaves for [GET /a], and the store that holds it. *)
Definition helloEntry : Response :=
  captured plainClient helloWriter (wallClock 0).

Definition warmStore : Memory :=
  {[ keyA := (Bytes helloEntry, Expiration helloEntry) ]}.

Definition future : Time := time.mkTime 100000000000 0.

(** A stored value whose message breaks off after two fields: the payload
    [x], an expiration far ahead, then a field number out of range. *)
Definition corruptEntry : list byte :=
  gob.typeDefs
  ++ gob.message
       (gob.encodeInt gob.idResponse
        ++ gob.encodeUint 1 ++ gob.encBytes (bytes_of_string "x")
        ++ gob.encodeUint 2 ++ gob.encTime future
        ++ gob.encodeUint 9).

Definition corruptStore : Memory := {[ keyA := (corruptEntry, future) ]}.

(** A store that holds no bytes at all under the key of [GET /a]. *)
Definition emptyEntryStore : Memory := {[ keyA := ([], future) ]}.

(** An entry with a header of two values. *)
Definition sampleEntry : Response :=
  mkResponse (bytes_of_string "hello")
    (Some {[ "Accept"%string := ["text/html"%string; "text/plain"%string] ]})
    (time.Add (wallClock 0) (seconds 10)) (wallClock 0) 1.

Definition unsortedURL : url.URL := url.mkURL "/a" false "b=1&a=2" "".

(** A client that varies on [Accept] and writes the [Expires] header. *)
Definition varyClient : Client :=
  mkClient true (seconds 10) "" (Some [MethodGet]) true ["Accept"%string]
    (Some DefaultGenerateKey).

(** [PUT path], without headers or body. *)
Definition put (path : string) : Request :=
  mkRequest "PUT" (url.mkURL path false "" "") (fun _ => []) None.

(** * Facts *)

(** ** Bytes *)

Lemma byte_val_range b : 0 <= byte_val b < 256.
Proof.
  unfold byte_val. pose proof (Byte.to_N_bounded b). lia.
Qed.

Lemma byte_val_of z : byte_val (byte_of z) = z mod 256.
Proof.
  unfold byte_val, byte_of.
  pose proof (Z.mod_pos_bound z 256 eq_refl) as Hz.
  destruct (Byte.of_N (Z.to_N (z mod 256))) as [b|] eqn:Hb.
  - apply Byte.to_of_N in Hb. rewrite Hb. lia.
  - apply Byte.of_N_None_iff in Hb. lia.
Qed.

Lemma byte_of_val b : byte_of (byte_val b) = b.
Proof.
  unfold byte_of, byte_val. pose proof (Byte.to_N_bounded b).
  rewrite Z.mod_small by lia. rewrite N2Z.id. by rewrite Byte.of_to_N.
Qed.

Lemma len_app {X} (l k : list X) : len (l ++ k) = len l + len k.
Proof. unfold len. rewrite length_app. lia. Qed.

Lemma len_nonneg {X} (l : list X) : 0 <= len l.
Proof. unfold len. lia. Qed.

Lemma len_cons {X} (x : X) l : len (x :: l) = 1 + len l.
Proof. unfold len. cbn [length]. lia. Qed.

(** ** Integers on the wire *)

Lemma lor_shiftl_low x n b :
  0 <= n -> 0 <= b < 2 ^ n -> Z.lor (Z.shiftl x n) b = x * 2 ^ n + b.
Proof.
  intros Hn Hb. rewrite <- Z.shiftl_mul_pow2 by done.
  symmetry. apply Z.add_nocarry_lor. apply Z.bits_inj'. intros m Hm.
  rewrite Z.land_spec, Z.bits_0.
  destruct (Z.lt_ge_cases m n).
  - by rewrite Z.shiftl_spec_low.
  - destruct (Z.eq_dec b 0) as [->|]; [by rewrite Z.bits_0, andb_false_r|].
    rewrite (Z.bits_above_log2 b m); [apply andb_false_r|lia|].
    apply Z.log2_lt_pow2; [lia|].
    eapply Z.lt_le_trans; [apply Hb|]. apply Z.pow_le_mono_r; lia.
Qed.

Lemma beValue_acc bs acc :
  fold_left (fun x b => Z.lor (Z.shiftl x 8) (byte_val b)) bs acc
  = acc * 256 ^ len bs + gob.beValue bs.
Proof.
  unfold gob.beValue. revert acc.
  induction bs as [|b bs IH]; intros acc; cbn [fold_left].
  - unfold len; cbn. lia.
  - rewrite IH, (IH (Z.lor _ _)).
    rewrite !lor_shiftl_low by (pose proof (byte_val_range b); lia).
    rewrite len_cons, Z.pow_add_r by (unfold len; lia). lia.
Qed.

Lemma beValue_cons b bs :
  gob.beValue (b :: bs) = byte_val b * 256 ^ len bs + gob.beValue bs.
Proof.
  unfold gob.beValue at 1. cbn [fold_left]. rewrite beValue_acc.
  rewrite lor_shiftl_low by (pose proof (byte_val_range b); lia). lia.
Qed.

Lemma beValue_bound bs : 0 <= gob.beValue bs < 256 ^ len bs.
Proof.
  induction bs as [|b bs IH].
  - unfold len; cbn. lia.
  - rewrite beValue_cons, len_cons, Z.pow_add_r by (unfold len; lia).
    pose proof (byte_val_range b). nia.
Qed.

Lemma length_bigEndian n x : length (gob.bigEndian n x) = n.
Proof. induction n; cbn; congruence. Qed.

Lemma beValue_bigEndian n x :
  gob.beValue (gob.bigEndian n x) = x mod 256 ^ Z.of_nat n.
Proof.
  induction n as [|n IH].
  - cbn. by rewrite Z.mod_1_r.
  - cbn [gob.bigEndian]. rewrite beValue_cons, IH, byte_val_of.
    unfold len. rewrite length_bigEndian.
    rewrite Z.shiftr_div_pow2 by lia.
    replace (2 ^ (8 * Z.of_nat n)) with (256 ^ Z.of_nat n)
      by (rewrite Z.pow_mul_r by lia; done).
    rewrite Nat2Z.inj_succ, Z.pow_succ_r by lia.
    rewrite (Z.mul_comm 256), Z.rem_mul_r by lia. lia.
Qed.

Lemma encodeUint_decode x rest :
  0 <= x < 2 ^ 64 ->
  gob.decodeUint (gob.encodeUint x ++ rest) = Some (x, rest).
Proof.
  intros Hx. unfold gob.encodeUint.
  destruct (Z.leb_spec x 127) as [Hs|Hs].
  - cbn. rewrite byte_val_of, Z.mod_small by lia.
    destruct (Z.leb_spec x 127); [done|lia].
  - set (L := Z.log2 x).
    assert (HL : 7 <= L < 64).
    { split; [apply Z.log2_le_pow2; lia|apply Z.log2_lt_pow2; lia]. }
    unfold gob.leadingZeros64, gob.uint64Size. fold L.
    rewrite Z.shiftr_div_pow2 by lia.
    set (bc := (64 - (L + 1)) / 2 ^ 3).
    assert (Hbc : 0 <= bc <= 7 /\ L < 8 * (8 - bc)).
    { subst bc. change (2 ^ 3) with 8.
      pose proof (Z.div_mod (64 - (L + 1)) 8 ltac:(lia)).
      pose proof (Z.mod_pos_bound (64 - (L + 1)) 8 ltac:(lia)). lia. }
    cbn [app gob.decodeUint]. rewrite byte_val_of.
    replace ((bc - 8) mod 256) with (256 - (8 - bc))
      by (apply Z.mod_unique with (-1); lia).
    destruct (Z.leb_spec (256 - (8 - bc)) 127); [lia|].
    replace (256 - (256 - (8 - bc))) with (8 - bc) by lia.
    unfold gob.uint64Size.
    destruct (Z.ltb_spec 8 (8 - bc)); [lia|].
    rewrite len_app. unfold len at 1. rewrite length_bigEndian.
    destruct (Z.ltb_spec (Z.of_nat (Z.to_nat (8 - bc)) + len rest) (8 - bc));
      [pose proof (len_nonneg rest); lia|].
    rewrite take_app_length', drop_app_length' by (by rewrite length_bigEndian).
    rewrite beValue_bigEndian, Z2Nat.id by lia.
    rewrite Z.mod_small; [done|]. split; [lia|].
    replace (256 ^ (8 - bc)) with (2 ^ (8 * (8 - bc)))
      by (rewrite Z.pow_mul_r by lia; done).
    apply Z.log2_lt_pow2; lia.
Qed.

Lemma decodeUint_range b x rest :
  gob.decodeUint b = Some (x, rest) -> 0 <= x < 2 ^ 64.
Proof.
  destruct b as [|c b]; [done|]. cbn [gob.decodeUint].
  pose proof (byte_val_range c).
  destruct (Z.leb_spec (byte_val c) 127).
  - intros [= <- <-]. lia.
  - unfold gob.uint64Size.
    destruct (Z.ltb_spec 8 (256 - byte_val c)); [done|].
    destruct (Z.ltb_spec (len b) (256 - byte_val c)); [done|].
    intros [= <- <-].
    pose proof (beValue_bound (take (Z.to_nat (256 - byte_val c)) b)) as Hb.
    assert (len (take (Z.to_nat (256 - byte_val c)) b) <= 8).
    { unfold len. rewrite length_take. lia. }
    split; [lia|]. eapply Z.lt_le_trans; [apply Hb|].
    change (2 ^ 64) with (256 ^ 8). apply Z.pow_le_mono_r; lia.
Qed.

Lemma decodeUint_shorter b x rest :
  gob.decodeUint b = Some (x, rest) -> len rest < len b.
Proof.
  destruct b as [|c b]; [done|]. cbn [gob.decodeUint]. rewrite len_cons.
  destruct (_ <=? 127).
  - intros [= <- <-]. lia.
  - destruct (_ <? _); [done|]. destruct (_ <? _); [done|].
    intros [= <- <-]. unfold len. rewrite length_drop. lia.
Qed.

Lemma encodeInt_decode i rest :
  is_int64 i -> gob.decodeInt (gob.encodeInt i ++ rest) = Some (i, rest).
Proof.
  unfold is_int64, min_int64, max_int64. intros Hi.
  unfold gob.encodeInt, gob.decodeInt, to_uint64.
  destruct (Z.ltb_spec i 0).
  - rewrite Z.shiftl_mul_pow2 by lia.
    assert (Hl : Z.lnot i = - i - 1) by (unfold Z.lnot; lia). rewrite Hl.
    rewrite Z.mod_small by lia.
    replace ((- i - 1) * 2 ^ 1) with (Z.shiftl (- i - 1) 1)
      by (rewrite Z.shiftl_mul_pow2; lia).
    rewrite lor_shiftl_low by lia.
    rewrite encodeUint_decode by lia.
    rewrite Z.bit0_odd.
    replace ((- i - 1) * 2 ^ 1 + 1) with (1 + 2 * (- i - 1)) by lia.
    rewrite Z.odd_add_mul_2. cbn [Z.odd].
    rewrite Z.shiftr_div_pow2 by lia.
    replace ((1 + 2 * (- i - 1)) / 2 ^ 1) with (- i - 1)
      by (change (2 ^ 1) with 2; rewrite Z.add_comm, Z.mul_comm, Z.div_add_l by lia;
          change (1 / 2) with 0; lia).
    f_equal. f_equal. unfold Z.lnot. lia.
  - rewrite Z.shiftl_mul_pow2 by lia. rewrite Z.mod_small by lia.
    rewrite encodeUint_decode by lia.
    rewrite Z.bit0_odd.
    replace (i * 2 ^ 1) with (0 + 2 * i) by lia.
    rewrite Z.odd_add_mul_2. cbn [Z.odd].
    rewrite Z.shiftr_div_pow2 by lia.
    replace ((0 + 2 * i) / 2 ^ 1) with i
      by (change (2 ^ 1) with 2; rewrite Z.add_0_l, Z.mul_comm, Z.div_mul by lia; done).
    done.
Qed.


(** ** Byte slices, strings, slices of strings and maps on the wire *)

Lemma encodeUint_nonempty x : 1 <= len (gob.encodeUint x).
Proof.
  unfold gob.encodeUint. destruct (x <=? 127); rewrite len_cons;
    pose proof (len_nonneg (gob.bigEndian (Z.to_nat (gob.uint64Size - Z.shiftr (gob.leadingZeros64 x) 3)) x));
    unfold len; cbn [length]; lia.
Qed.

Lemma encBytes_decode bs rest :
  len bs < gob.tooBig ->
  gob.decBytes (gob.encBytes bs ++ rest) = Some (bs, rest).
Proof.
  intros Hb. unfold gob.decBytes, gob.encBytes. rewrite <- app_assoc.
  pose proof (len_nonneg bs). unfold gob.tooBig in *.
  rewrite encodeUint_decode by lia.
  unfold max_int64, gob.tooBig. rewrite len_app.
  destruct (Z.ltb_spec (2 ^ 63 - 1) (len bs)); [lia|].
  destruct (Z.ltb_spec (len bs + len rest) (len bs));
    [pose proof (len_nonneg rest); lia|].
  destruct (Z.leb_spec (2 ^ 33) (len bs)); [lia|]. cbn [orb].
  unfold len. rewrite Nat2Z.id.
  by rewrite take_app_length, drop_app_length.
Qed.

Lemma encString_decode s rest :
  stringFits s -> gob.decString (gob.encString s ++ rest) = Some (s, rest).
Proof.
  intros Hs. unfold gob.decString, gob.encString.
  rewrite encBytes_decode by done.
  unfold string_of_bytes, bytes_of_string.
  by rewrite string_of_list_byte_of_string.
Qed.

Lemma encString_nonempty s : 1 <= len (gob.encString s).
Proof.
  unfold gob.encString, gob.encBytes. rewrite len_app.
  pose proof (encodeUint_nonempty (len (bytes_of_string s))).
  pose proof (len_nonneg (bytes_of_string s)). lia.
Qed.

Lemma flat_map_encString_len vs : len vs <= len (flat_map gob.encString vs).
Proof.
  induction vs as [|s vs IH]; cbn [flat_map]; [done|].
  rewrite len_cons, len_app. pose proof (encString_nonempty s). lia.
Qed.

Lemma encStrings_decode vs : forall fuel rest,
  (length vs <= fuel)%nat -> Forall stringFits vs ->
  gob.decStrings fuel (len vs) (flat_map gob.encString vs ++ rest)
  = Some (vs, rest).
Proof.
  induction vs as [|s vs IH]; intros fuel rest Hfuel Hfits.
  - by destruct fuel.
  - inversion Hfits as [|? ? Hs Hvs]; subst.
    destruct fuel as [|fuel]; [cbn in Hfuel; lia|].
    cbn [gob.decStrings flat_map]. rewrite len_cons.
    destruct (Z.leb_spec (1 + len vs) 0); [pose proof (len_nonneg vs); lia|].
    rewrite <- app_assoc, encString_decode by done.
    replace (1 + len vs - 1) with (len vs) by lia.
    rewrite IH; [done|cbn in Hfuel; lia|done].
Qed.

Lemma encStringSlice_decode vs rest :
  sliceFits vs ->
  gob.decStringSlice (gob.encStringSlice vs ++ rest) = Some (vs, rest).
Proof.
  intros [Hn Hfits]. unfold gob.decStringSlice, gob.encStringSlice.
  pose proof (len_nonneg vs). unfold gob.tooBig, gob.stringSize in *.
  rewrite <- app_assoc, encodeUint_decode by lia.
  unfold max_int64, gob.tooBig, gob.stringSize.
  destruct (Z.ltb_spec (2 ^ 63 - 1) (len vs)); [lia|].
  destruct (Z.ltb_spec (2 ^ 33) (len vs * 16)); [lia|]. cbn [orb].
  apply encStrings_decode; [|done].
  pose proof (flat_map_encString_len vs). rewrite length_app.
  unfold len in *. lia.
Qed.

Lemma encEntry_nonempty kv : 1 <= len (gob.encEntry kv).
Proof.
  unfold gob.encEntry. rewrite len_app.
  pose proof (encString_nonempty kv.1).
  pose proof (len_nonneg (gob.encStringSlice kv.2)). lia.
Qed.

Lemma flat_map_encEntry_len kvs : len kvs <= len (flat_map gob.encEntry kvs).
Proof.
  induction kvs as [|kv kvs IH]; cbn [flat_map]; [done|].
  rewrite len_cons, len_app. pose proof (encEntry_nonempty kv). lia.
Qed.

Lemma encEntries_decode kvs : forall fuel rest m,
  (length kvs <= fuel)%nat -> Forall entryFits kvs ->
  gob.decEntries fuel (len kvs) (flat_map gob.encEntry kvs ++ rest) m
  = (foldl store_entry m kvs, Some rest).
Proof.
  induction kvs as [|[k vs] kvs IH]; intros fuel rest m Hfuel Hfits.
  - by destruct fuel.
  - inversion Hfits as [|? ? [Hk Hvs] Hkvs]; subst. cbn [fst snd] in *.
    destruct fuel as [|fuel]; [cbn in Hfuel; lia|].
    cbn [gob.decEntries flat_map foldl]. rewrite len_cons.
    destruct (Z.leb_spec (1 + len kvs) 0); [pose proof (len_nonneg kvs); lia|].
    unfold gob.encEntry at 1. cbn [fst snd].
    rewrite <- !app_assoc, encString_decode by done.
    rewrite encStringSlice_decode by done.
    replace (1 + len kvs - 1) with (len kvs) by lia.
    rewrite IH; [done|cbn in Hfuel; lia|done].
Qed.

Lemma foldl_store_entry (l : list (string * list string)) : forall m0 : http.Header,
  NoDup l.*1 -> foldl store_entry m0 l = list_to_map l ∪ m0.
Proof.
  induction l as [|[k v] l IH]; intros m0 Hnd; cbn [foldl].
  - cbn. by rewrite (left_id_L ∅ (∪)).
  - cbn in Hnd. apply NoDup_cons in Hnd as [Hk Hnd].
    rewrite IH by done. unfold store_entry. cbn [fst snd list_to_map foldr].
    rewrite <- insert_union_l. symmetry. apply insert_union_r.
    by apply not_elem_of_list_to_map_1.
Qed.

Lemma foldl_store_map_to_list (m : http.Header) :
  foldl store_entry ∅ (map_to_list m) = m.
Proof.
  rewrite foldl_store_entry by apply NoDup_fst_map_to_list.
  by rewrite (right_id_L ∅ (∪)), list_to_map_to_list.
Qed.

Lemma encMap_decode kvs rest h :
  len kvs <= max_int64 -> Forall entryFits kvs ->
  gob.decMap (gob.encMap kvs ++ rest) h
  = (Some (foldl store_entry (default ∅ h) kvs), Some rest).
Proof.
  intros Hn Hfits. unfold gob.decMap, gob.encMap.
  pose proof (len_nonneg kvs). unfold max_int64 in *.
  rewrite <- app_assoc, encodeUint_decode by lia.
  replace (to_int64 (len kvs)) with (len kvs)
    by (unfold to_int64; rewrite Z.mod_small; lia).
  rewrite encEntries_decode; [done| |done].
  pose proof (flat_map_encEntry_len kvs). rewrite length_app.
  unfold len in *. lia.
Qed.

(** ** Times on the wire *)

Lemma to_int64_small z : is_int64 z -> to_int64 z = z.
Proof.
  unfold is_int64, min_int64, max_int64, to_int64. intros Hz.
  rewrite Z.mod_small by lia. lia.
Qed.

Lemma to_int64_mod z : to_int64 (z mod 2 ^ 64) = to_int64 z.
Proof.
  unfold to_int64.
  rewrite <- (Zplus_mod_idemp_l z). done.
Qed.

Lemma MarshalBinary_Unmarshal t :
  time.valid t -> gob.UnmarshalBinary (gob.MarshalBinary t) = Some t.
Proof.
  intros [Hs Hn]. destruct t as [s n]. cbn [time.sec time.nsec] in *.
  unfold gob.MarshalBinary, gob.UnmarshalBinary. cbn [time.sec time.nsec].
  rewrite byte_val_of.
  change (gob.timeBinaryVersionV1 mod 256) with 1. cbn [Z.eqb orb negb].
  replace (len (byte_of gob.timeBinaryVersionV1
     :: gob.bigEndian 8 s ++ gob.bigEndian 4 n ++ [byte_of (-1); byte_of (-1)]))
    with 15 by (rewrite len_cons, !len_app; unfold len;
                rewrite !length_bigEndian; cbn [length]; lia).
  cbn [Z.eqb negb].
  rewrite take_app_length' by (by rewrite length_bigEndian).
  rewrite drop_app_length' by (by rewrite length_bigEndian).
  rewrite take_app_length' by (by rewrite length_bigEndian).
  rewrite !beValue_bigEndian.
  change (256 ^ Z.of_nat 8) with (2 ^ 64).
  rewrite to_int64_mod, to_int64_small by done.
  change (256 ^ Z.of_nat 4) with (2 ^ 32).
  rewrite (Z.mod_small n) by lia.
  unfold gob.wallTime.
  destruct (Z.ltb_spec n (2 ^ 31)); [|lia].
  assert (Ht : Z.testbit n 63 = false).
  { destruct (Z.eq_dec n 0) as [->|]; [done|].
    apply Z.bits_above_log2; [lia|]. apply Z.log2_lt_pow2; lia. }
  rewrite Ht.
  unfold gob.nsecMask. rewrite Z.land_ones by lia.
  rewrite Z.mod_small by lia. done.
Qed.

Lemma len_MarshalBinary t : len (gob.MarshalBinary t) = 15.
Proof.
  unfold gob.MarshalBinary. rewrite len_cons, !len_app. unfold len.
  rewrite !length_bigEndian. cbn [length]. lia.
Qed.

Lemma encTime_decode t rest :
  time.valid t -> gob.decTime (gob.encTime t ++ rest) = Some (t, rest).
Proof.
  intros Ht. unfold gob.decTime, gob.encTime.
  rewrite encBytes_decode by (rewrite len_MarshalBinary; done).
  by rewrite MarshalBinary_Unmarshal.
Qed.

(** ** Structures on the wire *)

Lemma decodeStruct_encodeStruct fs : forall setters fuel p r rest,
  Forall2 fieldOk fs setters -> increasing p fs -> -1 <= p ->
  (length fs <= fuel)%nat ->
  gob.decodeStruct fuel p (gob.encodeStruct p fs ++ rest) r
  = (foldl (fun r f => f r) r setters, true).
Proof.
  induction fs as [|[i v] fs IH]; intros setters fuel p r rest Hok Hinc Hp Hfuel.
  - inversion Hok; subst. by destruct fuel.
  - inversion Hok as [|? f ? setters' Hf Hok']; subst.
    destruct Hinc as [Hi Hinc]. cbn [fst snd] in *. unfold gob.numFields in Hi.
    destruct fuel as [|fuel]; [cbn in Hfuel; lia|].
    cbn [gob.encodeStruct]. rewrite <- !app_assoc.
    pose proof (encodeUint_nonempty (i - p)) as Hne.
    destruct (gob.encodeUint (i - p) ++ v ++ gob.encodeStruct i fs ++ rest)
      as [|c b] eqn:Hb.
    { apply (f_equal len) in Hb. rewrite len_app in Hb. unfold len in *.
      cbn in Hb. lia. }
    cbn [gob.decodeStruct]. rewrite <- Hb.
    rewrite encodeUint_decode by lia.
    unfold max_int64, gob.numFields.
    destruct (Z.ltb_spec (2 ^ 63 - 1) (i - p)); [lia|].
    destruct (Z.eqb_spec (i - p) 0); [lia|].
    destruct (Z.leb_spec (5 - (i - p)) p); [lia|].
    replace (p + (i - p)) with i by lia.
    specialize (Hf r (gob.encodeStruct i fs ++ rest)). cbn [fst snd] in Hf.
    rewrite Hf. cbn [foldl].
    apply IH; [done|done|lia|cbn in Hfuel; lia].
Qed.

(** The round of [fuel] never runs out: [numFields] rounds are enough for
    any buffer. *)
Lemma decodeStruct_fuel fuel : forall fuel' p b r,
  -1 <= p -> (Z.to_nat (gob.numFields - 1 - p) <= fuel)%nat ->
  (Z.to_nat (gob.numFields - 1 - p) <= fuel')%nat ->
  gob.decodeStruct fuel p b r = gob.decodeStruct fuel' p b r.
Proof.
  unfold gob.numFields.
  induction fuel as [|fuel IH]; intros fuel' p b r Hp Hf Hf'.
  - destruct b as [|c b]; [by destruct fuel'|].
    destruct fuel' as [|fuel']; [done|]. cbn [gob.decodeStruct].
    destruct (gob.decodeUint (c :: b)) as [[delta b1]|] eqn:Hd; [|done].
    apply decodeUint_range in Hd.
    unfold gob.numFields.
    destruct (max_int64 <? delta); [done|].
    destruct (Z.eqb_spec delta 0); [done|].
    destruct (Z.leb_spec (5 - delta) p); [done|lia].
  - destruct b as [|c b]; [by destruct fuel'|].
    cbn [gob.decodeStruct].
    destruct fuel' as [|fuel'].
    + cbn [gob.decodeStruct].
      destruct (gob.decodeUint (c :: b)) as [[delta b1]|] eqn:Hd; [|done].
      apply decodeUint_range in Hd. unfold gob.numFields.
      destruct (max_int64 <? delta); [done|].
      destruct (Z.eqb_spec delta 0); [done|].
      destruct (Z.leb_spec (5 - delta) p); [done|lia].
    + cbn [gob.decodeStruct].
      destruct (gob.decodeUint (c :: b)) as [[delta b1]|] eqn:Hd; [|done].
      apply decodeUint_range in Hd. unfold gob.numFields.
      destruct (max_int64 <? delta); [done|].
      destruct (Z.eqb_spec delta 0); [done|].
      destruct (Z.leb_spec (5 - delta) p); [done|].
      destruct (gob.decodeField (p + delta) b1 r) as [r' [b2|]]; [|done].
      apply IH; lia.
Qed.

(** *** Sizes *)

Lemma len_flat_map_In {X} (f : X -> list byte) x l :
  In x l -> len (f x) <= len (flat_map f l).
Proof.
  induction l as [|y l IH]; [done|]. cbn [flat_map]. rewrite len_app.
  intros [->|Hx].
  - pose proof (len_nonneg (flat_map f l)). lia.
  - specialize (IH Hx). pose proof (len_nonneg (f y)). lia.
Qed.

Lemma len_encodeStruct_In fs : forall p i v,
  In (i, v) fs -> len v <= len (gob.encodeStruct p fs).
Proof.
  induction fs as [|[j u] fs IH]; intros p i v; [done|].
  cbn [gob.encodeStruct]. rewrite !len_app.
  pose proof (len_nonneg (gob.encodeUint (j - p))).
  intros [[= -> ->]|Hin].
  - pose proof (len_nonneg (gob.encodeStruct i fs)). lia.
  - specialize (IH j i v Hin). pose proof (len_nonneg u). lia.
Qed.

Lemma len_encBytes bs : len bs <= len (gob.encBytes bs).
Proof.
  unfold gob.encBytes. rewrite len_app.
  pose proof (len_nonneg (gob.encodeUint (len bs))). lia.
Qed.

Lemma len_field_value r i v :
  In (i, v) (gob.fields r) -> len v <= len (gob.encodeValue r).
Proof.
  intros Hin. unfold gob.encodeValue. rewrite len_app.
  pose proof (len_encodeStruct_In _ (-1) _ _ Hin).
  pose proof (len_nonneg (gob.encodeInt gob.idResponse)). lia.
Qed.

Lemma stringFits_le s B :
  len (gob.encString s) <= B -> B < gob.tooBig -> stringFits s.
Proof.
  unfold stringFits, gob.encString. intros H1 H2.
  pose proof (len_encBytes (bytes_of_string s)). lia.
Qed.

Lemma entries_fit (kvs : list (string * list string)) :
  len (gob.encMap kvs) < gob.tooBig ->
  Forall (fun kv => len kv.2 * gob.stringSize <= gob.tooBig) kvs ->
  len kvs <= max_int64 /\ Forall entryFits kvs.
Proof.
  intros Hlen Hcount. unfold gob.encMap in Hlen. rewrite len_app in Hlen.
  pose proof (len_nonneg (gob.encodeUint (len kvs))).
  split.
  - pose proof (flat_map_encEntry_len kvs). unfold max_int64, gob.tooBig in *. lia.
  - apply Forall_forall. intros [k vs] Hin.
    rewrite Forall_forall in Hcount. specialize (Hcount _ Hin).
    apply list_elem_of_In in Hin.
    pose proof (len_flat_map_In gob.encEntry _ _ Hin) as He.
    unfold gob.encEntry in He at 1. cbn [fst snd] in *. rewrite len_app in He.
    pose proof (len_nonneg (gob.encString k)).
    pose proof (len_nonneg (gob.encStringSlice vs)).
    split; [|split]; cbn [fst snd].
    + apply (stringFits_le _ (len (gob.encString k))); lia.
    + done.
    + apply Forall_forall. intros s Hs. apply list_elem_of_In in Hs.
      pose proof (len_flat_map_In gob.encString _ _ Hs) as Hv.
      unfold gob.encStringSlice in He. rewrite len_app in He.
      pose proof (len_nonneg (gob.encodeUint (len vs))).
      apply (stringFits_le _ (len (gob.encString s))); lia.
Qed.

(** ** The round trip *)

Lemma IsZero_zero t : time.IsZero t = true -> t = time.zero.
Proof.
  destruct t as [s n]. unfold time.IsZero. cbn.
  rewrite andb_true_iff, !Z.eqb_eq. by intros [-> ->].
Qed.

Lemma setters_zero r : foldl (fun r f => f r) zeroResponse (setters r) = r.
Proof.
  destruct r as [v h e l f]. unfold setters. cbn [Value Header Expiration LastAccess Frequency].
  assert (Hv : (if 0 <? len v then [setValue v] else []) = [setValue v]
               \/ ((if 0 <? len v then [setValue v] else []) = [] /\ v = [])).
  { destruct (Z.ltb_spec 0 (len v)); [by left|right]. split; [done|].
    destruct v; [done|]. rewrite len_cons in *. pose proof (len_nonneg v). lia. }
  assert (He : (if time.IsZero e then [] else [setExpiration e]) = [setExpiration e]
               \/ ((if time.IsZero e then [] else [setExpiration e]) = [] /\ e = time.zero)).
  { destruct (time.IsZero e) eqn:Hz; [right|by left]. by apply IsZero_zero in Hz. }
  assert (Hl : (if time.IsZero l then [] else [setLastAccess l]) = [setLastAccess l]
               \/ ((if time.IsZero l then [] else [setLastAccess l]) = [] /\ l = time.zero)).
  { destruct (time.IsZero l) eqn:Hz; [right|by left]. by apply IsZero_zero in Hz. }
  assert (Hf : (if f =? 0 then [] else [setFrequency f]) = [setFrequency f]
               \/ ((if f =? 0 then [] else [setFrequency f]) = [] /\ f = 0)).
  { destruct (Z.eqb_spec f 0); [by right|by left]. }
  destruct Hv as [->|[-> ->]], He as [->|[-> ->]], Hl as [->|[-> ->]],
    Hf as [->|[-> ->]], h as [m|];
    cbn; unfold setHeader, zeroResponse; cbn;
    rewrite ?foldl_store_map_to_list; reflexivity.
Qed.

Lemma fields_increasing r : increasing (-1) (gob.fields r).
Proof.
  unfold gob.fields, gob.numFields.
  destruct (0 <? len (Value r)), (Header r), (time.IsZero (Expiration r)),
    (time.IsZero (LastAccess r)), (Frequency r =? 0); cbn; unfold gob.numFields; lia.
Qed.

Lemma fields_length r : (length (gob.fields r) <= Z.to_nat gob.numFields)%nat.
Proof.
  unfold gob.fields, gob.numFields.
  destruct (0 <? len (Value r)), (Header r), (time.IsZero (Expiration r)),
    (time.IsZero (LastAccess r)), (Frequency r =? 0); cbn; lia.
Qed.

Lemma fields_ok r :
  validResponse r -> withinLimits r ->
  Forall2 fieldOk (gob.fields r) (setters r).
Proof.
  intros (He & Hl & Hf) [Hlen Hcount].
  assert (Hin : forall i v, In (i, v) (gob.fields r) -> len v < gob.tooBig).
  { intros i v Hiv. pose proof (len_field_value r i v Hiv). lia. }
  unfold gob.fields, setters in *.
  repeat apply Forall2_app.
  - destruct (0 <? len (Value r)); [|constructor].
    constructor; [|constructor]. intros r0 rest. cbn [fst snd].
    unfold gob.decodeField. cbn [Z.eqb].
    rewrite encBytes_decode; [done|].
    pose proof (len_encBytes (Value r)).
    specialize (Hin 0 (gob.encBytes (Value r))). cbn in Hin.
    specialize (Hin (or_introl eq_refl)). lia.
  - destruct (Header r) as [m|] eqn:Hh; [|constructor].
    constructor; [|constructor]. intros r0 rest. cbn [fst snd].
    unfold gob.decodeField. cbn [Z.eqb].
    destruct (entries_fit (map_to_list m)) as [Hn Hfits].
    { apply (Hin 1). apply in_or_app. right. by left. }
    { apply Forall_forall. intros [k vs] Hkv. cbn [snd].
      apply elem_of_map_to_list in Hkv. by eapply Hcount. }
    by rewrite encMap_decode.
  - destruct (time.IsZero (Expiration r)); [constructor|].
    constructor; [|constructor]. intros r0 rest. cbn [fst snd].
    unfold gob.decodeField. cbn [Z.eqb]. by rewrite encTime_decode.
  - destruct (time.IsZero (LastAccess r)); [constructor|].
    constructor; [|constructor]. intros r0 rest. cbn [fst snd].
    unfold gob.decodeField. cbn [Z.eqb]. by rewrite encTime_decode.
  - destruct (Frequency r =? 0); [constructor|].
    constructor; [|constructor]. intros r0 rest. cbn [fst snd].
    unfold gob.decodeField. cbn [Z.eqb]. by rewrite encodeInt_decode.
Qed.

Lemma stripPrefix_app p l : gob.stripPrefix p (p ++ l) = Some l.
Proof.
  induction p as [|x p IH]; cbn; [by destruct l|].
  replace (Byte.eqb x x) with true; [done|].
  symmetry. by apply Byte.byte_dec_lb.
Qed.

Lemma message_recv body rest :
  len body < gob.tooBig ->
  gob.recvMessage (gob.message body ++ rest) = Some (body, rest).
Proof.
  intros Hb. unfold gob.recvMessage, gob.message. rewrite <- app_assoc.
  pose proof (len_nonneg body). unfold gob.tooBig in *.
  rewrite encodeUint_decode by lia. unfold gob.tooBig.
  destruct (Z.leb_spec (2 ^ 33) (len body)); [lia|].
  rewrite len_app.
  destruct (Z.ltb_spec (len body + len rest) (len body));
    [pose proof (len_nonneg rest); lia|].
  unfold len. rewrite Nat2Z.id.
  by rewrite take_app_length, drop_app_length.
Qed.

Lemma Decode_Encode r :
  validResponse r -> withinLimits r ->
  gob.Decode (gob.Encode r) zeroResponse = (r, true).
Proof.
  intros Hv Hl. pose proof Hl as [Hlen _].
  unfold gob.Decode, gob.Encode.
  destruct (Z.leb_spec gob.tooBig (len (gob.encodeValue r))); [lia|].
  rewrite stripPrefix_app.
  rewrite <- (app_nil_r (gob.message _)), message_recv by done.
  unfold gob.encodeValue at 1.
  rewrite encodeInt_decode
    by (unfold is_int64, min_int64, max_int64, gob.idResponse, gob.firstUserId; lia).
  rewrite Z.eqb_refl.
  rewrite <- (app_nil_r (gob.encodeStruct _ _)).
  rewrite (decodeStruct_encodeStruct _ (setters r));
    [by rewrite setters_zero|by apply fields_ok|apply fields_increasing|lia|apply fields_length].
Qed.

(** ** What decoding can yield *)




(** *** Truncated streams *)

Lemma stripPrefix_short p : forall b k,
  p = b ++ k -> k <> [] -> gob.stripPrefix p b = None.
Proof.
  induction p as [|x p IH]; intros b k Hp Hk.
  - by destruct b, k.
  - destruct b as [|y b]; [done|]. cbn in Hp. injection Hp as -> ->.
    cbn. replace (Byte.eqb y y) with true by (symmetry; by apply Byte.byte_dec_lb).
    by eapply IH.
Qed.

Lemma encodeUint_large x :
  127 < x < 2 ^ 64 ->
  exists n, 1 <= n <= 8
    /\ gob.encodeUint x = byte_of (- n) :: gob.bigEndian (Z.to_nat n) x.
Proof.
  intros Hx. unfold gob.encodeUint.
  destruct (Z.leb_spec x 127); [lia|].
  set (L := Z.log2 x).
  assert (HL : 7 <= L < 64).
  { split; [apply Z.log2_le_pow2; lia|apply Z.log2_lt_pow2; lia]. }
  unfold gob.leadingZeros64, gob.uint64Size. fold L.
  rewrite Z.shiftr_div_pow2 by lia.
  set (bc := (64 - (L + 1)) / 2 ^ 3).
  assert (Hbc : 0 <= bc <= 7).
  { subst bc. change (2 ^ 3) with 8.
    pose proof (Z.div_mod (64 - (L + 1)) 8 ltac:(lia)).
    pose proof (Z.mod_pos_bound (64 - (L + 1)) 8 ltac:(lia)). lia. }
  exists (8 - bc). split; [lia|]. f_equal. f_equal. lia.
Qed.

Lemma encodeUint_truncated x b k :
  0 <= x < 2 ^ 64 ->
  gob.encodeUint x = b ++ k -> k <> [] -> gob.decodeUint b = None.
Proof.
  intros Hr Hx Hk. destruct b as [|c b]; [done|].
  destruct (Z.le_gt_cases x 127) as [Hs|Hs].
  - unfold gob.encodeUint in Hx. destruct (Z.leb_spec x 127); [|lia].
    injection Hx as _ Hx. by destruct b, k.
  - destruct (encodeUint_large x) as (n & Hn & He); [lia|].
    rewrite He in Hx. cbn in Hx. injection Hx as <- Hx.
    assert (Hlen : (length b + length k = Z.to_nat n)%nat).
    { apply (f_equal length) in Hx. by rewrite length_bigEndian, length_app in Hx. }
    assert (0 < length k)%nat by (destruct k; [done|cbn; lia]).
    cbn [gob.decodeUint]. rewrite byte_val_of.
    replace ((- n) mod 256) with (256 - n) by (apply Z.mod_unique with (-1); lia).
    destruct (Z.leb_spec (256 - n) 127); [lia|].
    unfold gob.uint64Size.
    destruct (Z.ltb_spec 8 (256 - (256 - n))); [done|].
    destruct (Z.ltb_spec (len b) (256 - (256 - n))); [done|].
    unfold len in *. lia.
Qed.

Lemma message_truncated body b k :
  len body < gob.tooBig ->
  gob.message body = b ++ k -> k <> [] -> gob.recvMessage b = None.
Proof.
  intros Hlen Hm Hk. unfold gob.message in Hm. unfold gob.recvMessage.
  pose proof (len_nonneg body). unfold gob.tooBig in Hlen.
  apply app_eq_app in Hm as [l [[Hu Hb]|[Hu Hb]]].
  - (* the cut is in the byte count *)
    destruct l as [|x l].
    + rewrite app_nil_r in Hu. subst b. rewrite <- (app_nil_r (gob.encodeUint _)).
      rewrite encodeUint_decode by lia.
      destruct (gob.tooBig <=? len body); [done|].
      cbn in Hb. subst k.
      assert (0 < len body) by (destruct body; [done|rewrite len_cons; pose proof (len_nonneg body); lia]).
      destruct (Z.ltb_spec (len (@nil byte)) (len body)); [done|].
      unfold len in *. cbn in *. lia.
    + by rewrite (encodeUint_truncated (len body) b (x :: l)) by (done || lia).
  - (* the cut is in the body *)
    subst b. rewrite encodeUint_decode by lia.
    destruct (gob.tooBig <=? len body); [done|].
    apply (f_equal len) in Hb. rewrite len_app in Hb.
    assert (0 < len k) by (destruct k; [done|rewrite len_cons; pose proof (len_nonneg k); lia]).
    destruct (Z.ltb_spec (len l) (len body)); [done|lia].
Qed.

(** A stream cut short anywhere decodes to the zero value: nothing is
    stored before the whole value message has arrived. *)
Lemma Decode_truncated r b k :
  gob.Encode r = b ++ k -> k <> [] ->
  gob.Decode b zeroResponse = (zeroResponse, false).
Proof.
  intros He Hk. unfold gob.Decode.
  assert (Hcases :
    (exists k', gob.typeDefs = b ++ k' /\ k' <> [])
    \/ b = gob.typeDefs
    \/ (exists b', b = gob.typeDefs ++ b' /\
          gob.message (gob.encodeValue r) = b' ++ k /\
          len (gob.encodeValue r) < gob.tooBig)).
  { unfold gob.Encode in He.
    destruct (Z.leb_spec gob.tooBig (len (gob.encodeValue r))).
    - left. by exists k.
    - apply app_eq_app in He as [l [[Hu Hb]|[Hu Hb]]].
      + destruct l as [|x l].
        * right. left. by rewrite app_nil_r in Hu.
        * left. by exists (x :: l).
      + right. right. exists l. done. }
  destruct Hcases as [(k' & Ht & Hk')|[->|(b' & -> & Hm & Hlen)]].
  - by rewrite (stripPrefix_short _ b k').
  - rewrite <- (app_nil_r gob.typeDefs) at 2. by rewrite stripPrefix_app.
  - rewrite stripPrefix_app.
    by rewrite (message_truncated (gob.encodeValue r) b' k).
Qed.

(** ** The order on strings *)

Lemma ascii_compare_spec (a b : ascii) :
  CompareSpec (a = b) (N_of_ascii a < N_of_ascii b)%N
    (N_of_ascii b < N_of_ascii a)%N (Ascii.compare a b).
Proof.
  unfold Ascii.compare. destruct (N.compare_spec (N_of_ascii a) (N_of_ascii b)) as [He| |];
    constructor; try done.
  rewrite <- (ascii_N_embedding a), <- (ascii_N_embedding b). by rewrite He.
Qed.

Lemma string_compare_refl s : String.compare s s = Eq.
Proof.
  induction s as [|c s IH]; cbn; [done|].
  destruct (ascii_compare_spec c c); [done|lia|lia].
Qed.

Lemma string_le_trans : Transitive string_le.
Proof.
  unfold string_le, String.leb. intros a.
  induction a as [|x a IH]; intros [|y b] [|z c]; cbn; try done.
  destruct (ascii_compare_spec x y) as [->|Hxy|Hxy];
    destruct (ascii_compare_spec y z) as [->|Hyz|Hyz]; try done.
  all: try (destruct (ascii_compare_spec x z) as [->| |]; done || lia).
  apply IH.
Qed.

#[global] Existing Instance string_le_trans.

Lemma string_le_total : Total string_le.
Proof. intros a b. apply String.leb_total. Qed.

#[global] Existing Instance string_le_total.

Lemma string_le_antisym : AntiSymm eq string_le.
Proof. intros a b. apply String.leb_antisym. Qed.

#[global] Existing Instance string_le_antisym.

Lemma sortStrings_perm vs : sortStrings vs ≡ₚ vs.
Proof. apply merge_sort_Permutation. Qed.

Lemma sortStrings_sorted vs : StronglySorted string_le (sortStrings vs).
Proof.
  apply StronglySorted_merge_sort; apply _.
Qed.

(** Sorting forgets the order the values came in. *)
Lemma sortStrings_proper vs ws : vs ≡ₚ ws -> sortStrings vs = sortStrings ws.
Proof.
  intros Hp. apply (StronglySorted_unique string_le).
  - apply sortStrings_sorted.
  - apply sortStrings_sorted.
  - by rewrite !sortStrings_perm.
Qed.

Lemma sortStrings_nil vs : sortStrings vs = [] -> vs = [].
Proof.
  intros Hs. apply Permutation_nil_r. rewrite <- Hs. symmetry.
  apply sortStrings_perm.
Qed.

(** ** Escaping *)

Lemma QueryEscape_cons c s :
  url.QueryEscape (String c s) = (url.QueryEscape (String c "") ++ url.QueryEscape s)%string.
Proof.
  cbn. destruct (Ascii.eqb c " "); [done|]. by destruct (url.shouldEscape c).
Qed.

Lemma append_cons c (s t : string) : (String c s ++ t = String c (s ++ t))%string.
Proof. reflexivity. Qed.

Lemma append_nil_l (t : string) : ("" ++ t = t)%string.
Proof. reflexivity. Qed.

Lemma contains_app x s t :
  url.contains x (s ++ t)%string = url.contains x s || url.contains x t.
Proof.
  induction s as [|c s IH]; [done|].
  rewrite append_cons. cbn [url.contains]. by rewrite IH, orb_assoc.
Qed.

Lemma escape_char_clean c :
  url.contains "&" (url.QueryEscape (String c "")) = false
  /\ url.contains "=" (url.QueryEscape (String c "")) = false
  /\ url.contains ";" (url.QueryEscape (String c "")) = false.
Proof.
  destruct c as [[] [] [] [] [] [] [] []]; vm_compute; done.
Qed.

Lemma QueryEscape_clean s :
  url.contains "&" (url.QueryEscape s) = false
  /\ url.contains "=" (url.QueryEscape s) = false
  /\ url.contains ";" (url.QueryEscape s) = false.
Proof.
  induction s as [|c s (IH1 & IH2 & IH3)]; [done|].
  rewrite QueryEscape_cons, !contains_app.
  destruct (escape_char_clean c) as (-> & -> & ->). by rewrite IH1, IH2, IH3.
Qed.

Lemma QueryUnescape_percent h1 h2 s :
  url.QueryUnescape (String "%" (String h1 (String h2 s)))
  = if url.ishex h1 && url.ishex h2 then
      match url.QueryUnescape s with
      | None => None
      | Some t =>
          Some (String
                  (ascii_of_N
                     (Z.to_N (Z.lor (Z.shiftl (url.unhex h1) 4) (url.unhex h2))))
                  t)
      end
    else None.
Proof. reflexivity. Qed.

Lemma QueryUnescape_plain c s :
  Ascii.eqb c "%" = false ->
  url.QueryUnescape (String c s)
  = match url.QueryUnescape s with
    | None => None
    | Some t => Some (String (if Ascii.eqb c "+" then " "%char else c) t)
    end.
Proof. intros Hc. cbn [url.QueryUnescape]. by rewrite Hc. Qed.

Lemma escaped_char c :
  Ascii.eqb c " " = false -> url.shouldEscape c = true ->
  url.ishex (url.upperhex (Z.shiftr (url.code c) 4)) = true
  /\ url.ishex (url.upperhex (Z.land (url.code c) 15)) = true
  /\ ascii_of_N
       (Z.to_N
          (Z.lor (Z.shiftl (url.unhex (url.upperhex (Z.shiftr (url.code c) 4))) 4)
             (url.unhex (url.upperhex (Z.land (url.code c) 15))))) = c.
Proof.
  destruct c as [[] [] [] [] [] [] [] []]; vm_compute; done.
Qed.

Lemma kept_char c :
  url.shouldEscape c = false ->
  Ascii.eqb c "%" = false /\ Ascii.eqb c "+" = false.
Proof.
  destruct c as [[] [] [] [] [] [] [] []]; vm_compute; done.
Qed.

Lemma unescape_char c s :
  url.QueryUnescape (url.QueryEscape (String c "") ++ s)%string
  = match url.QueryUnescape s with
    | None => None
    | Some t => Some (String c t)
    end.
Proof.
  cbn [url.QueryEscape].
  destruct (Ascii.eqb_spec c " ") as [->|Hsp].
  - rewrite append_cons, append_nil_l. by rewrite QueryUnescape_plain.
  - destruct (url.shouldEscape c) eqn:He.
    + rewrite !append_cons, append_nil_l, QueryUnescape_percent.
      destruct (escaped_char c) as (-> & -> & ->); [by apply Ascii.eqb_neq|done|].
      done.
    + rewrite append_cons, append_nil_l.
      destruct (kept_char c He) as [H1 H2].
      by rewrite QueryUnescape_plain, H2.
Qed.

Lemma QueryUnescape_Escape s : url.QueryUnescape (url.QueryEscape s) = Some s.
Proof.
  induction s as [|c s IH]; [done|].
  by rewrite QueryEscape_cons, unescape_char, IH.
Qed.

(** ** Cutting a query into pieces *)

(** [segments] walks the pieces the loop of [parseQuery] cuts off. *)
Lemma segments_Cut sep c s :
  url.segments sep (String c s)
  = (url.Cut sep (String c s)).1 :: url.segments sep (url.Cut sep (String c s)).2.
Proof.
  revert c. induction s as [|c' s IH]; intros c; cbn.
  - by destruct (Ascii.eqb c sep).
  - destruct (Ascii.eqb c sep); [done|].
    specialize (IH c'). cbn in IH. rewrite IH.
    destruct (Ascii.eqb c' sep); [done|].
    by destruct (url.Cut sep s).
Qed.

Lemma segments_clean sep p :
  url.contains sep p = false -> p <> ""%string -> url.segments sep p = [p].
Proof.
  induction p as [|c p IH]; [done|]. cbn. intros Hc _.
  apply orb_false_iff in Hc as [-> Hc].
  destruct p as [|c' p]; [done|]. by rewrite IH.
Qed.

Lemma segments_app sep p s :
  url.contains sep p = false ->
  url.segments sep (p ++ String sep s)%string = p :: url.segments sep s.
Proof.
  induction p as [|c p IH]; intros Hc.
  - rewrite append_nil_l. cbn. by rewrite Ascii.eqb_refl.
  - cbn in Hc. apply orb_false_iff in Hc as [Hc Hp].
    rewrite append_cons. cbn [url.segments]. rewrite Hc, IH by done. done.
Qed.

Lemma Cut_app sep p s :
  url.contains sep p = false ->
  url.Cut sep (p ++ String sep s)%string = (p, s).
Proof.
  induction p as [|c p IH]; intros Hc.
  - rewrite append_nil_l. cbn. by rewrite Ascii.eqb_refl.
  - cbn in Hc. apply orb_false_iff in Hc as [Hc Hp].
    rewrite append_cons. cbn [url.Cut]. by rewrite Hc, IH.
Qed.

(** ** Encoding and parsing back *)

Lemma string_app_assoc (a b c : string) : ((a ++ b) ++ c = a ++ (b ++ c))%string.
Proof. induction a as [|x a IH]; [done|]. by rewrite !append_cons, IH. Qed.

Lemma string_app_nil_r (a : string) : (a ++ "" = a)%string.
Proof. induction a as [|x a IH]; [done|]. by rewrite append_cons, IH. Qed.

Lemma piece_clean kv :
  url.contains "&" (piece kv) = false /\ url.contains ";" (piece kv) = false
  /\ piece kv <> ""%string.
Proof.
  unfold piece. rewrite !contains_app.
  destruct (QueryEscape_clean kv.1) as (-> & _ & ->).
  destruct (QueryEscape_clean kv.2) as (-> & _ & ->).
  repeat split; [done..|]. by destruct (url.QueryEscape kv.1).
Qed.

Lemma foldl_writePair l : forall buf,
  buf <> ""%string -> foldl url.writePair buf l = (buf ++ pieces l)%string.
Proof.
  induction l as [|kv l IH]; intros buf Hbuf; cbn [foldl pieces].
  - by rewrite string_app_nil_r.
  - assert (Hw : url.writePair buf kv = (buf ++ "&" ++ piece kv)%string).
    { unfold url.writePair. destruct (String.eqb_spec buf ""); [done|].
      by rewrite !string_app_assoc. }
    rewrite Hw, IH.
    + by rewrite !string_app_assoc.
    + by destruct buf.
Qed.

Lemma foldl_writePair_start kv l :
  foldl url.writePair "" (kv :: l) = (piece kv ++ pieces l)%string.
Proof.
  cbn [foldl]. rewrite foldl_writePair.
  - done.
  - unfold url.writePair. cbn. apply piece_clean.
Qed.

Lemma segments_pieces l : forall kv,
  url.segments "&" (piece kv ++ pieces l) = piece kv :: (piece <$> l).
Proof.
  induction l as [|kv' l IH]; intros kv; cbn [pieces fmap list_fmap].
  - rewrite string_app_nil_r. apply segments_clean; apply piece_clean.
  - change ("&" ++ piece kv' ++ pieces l)%string
      with (String "&" (piece kv' ++ pieces l)).
    rewrite segments_app by apply piece_clean. by rewrite IH.
Qed.

Lemma parsePair_piece kv : url.parsePair (piece kv) = Some kv.
Proof.
  unfold url.parsePair. destruct (piece_clean kv) as (_ & -> & Hne).
  destruct (String.eqb_spec (piece kv) ""); [done|].
  unfold piece.
  change ("=" ++ url.QueryEscape kv.2)%string with (String "=" (url.QueryEscape kv.2)).
  rewrite Cut_app by apply QueryEscape_clean.
  rewrite !QueryUnescape_Escape. by destruct kv.
Qed.

(** Parsing what was encoded gives the pairs back, in order. *)
Lemma pairs_encoded l : url.pairs (foldl url.writePair "" l) = l.
Proof.
  unfold url.pairs. destruct l as [|kv l]; [done|].
  rewrite foldl_writePair_start, segments_pieces.
  change (piece kv :: (piece <$> l)) with (piece <$> (kv :: l)).
  induction (kv :: l) as [|x xs IH]; [done|].
  cbn [fmap list_fmap omap list_omap]. rewrite parsePair_piece.
  cbn. f_equal. apply IH.
Qed.

(** ** Queries as maps *)

Lemma add_nonempty m kv : nonemptyValues m -> nonemptyValues (url.add m kv).
Proof.
  intros Hm. unfold url.add. apply map_Forall_insert_2; [|done].
  by destruct (default [] (m !! kv.1)).
Qed.

Lemma ParseQuery_nonempty q : nonemptyValues (url.ParseQuery q).
Proof.
  unfold url.ParseQuery.
  assert (Hgen : forall l m, nonemptyValues m -> nonemptyValues (foldl url.add m l)).
  { induction l as [|kv l IH]; intros m Hm; [done|]. cbn. apply IH.
    by apply add_nonempty. }
  apply Hgen. apply map_Forall_empty.
Qed.

Lemma sorted_nonempty m : nonemptyValues m -> nonemptyValues (sortStrings <$> m).
Proof.
  intros Hm. apply map_Forall_fmap. intros k vs Hk Hs. cbn in Hs.
  apply sortStrings_nil in Hs. by apply (Hm k vs).
Qed.

Lemma foldl_add_cons vs : forall (m0 : url.Values) k v,
  foldl url.add m0 ((fun x => (k, x)) <$> (v :: vs))
  = <[k := default [] (m0 !! k) ++ v :: vs]> m0.
Proof.
  induction vs as [|v' vs IH]; intros m0 k v.
  - reflexivity.
  - change (foldl url.add m0 ((fun x => (k, x)) <$> (v :: v' :: vs)))
      with (foldl url.add (url.add m0 (k, v)) ((fun x => (k, x)) <$> (v' :: vs))).
    rewrite IH. unfold url.add. cbn [fst snd].
    rewrite lookup_insert_eq. cbn [default]. rewrite insert_insert_eq.
    unfold id. by rewrite <- app_assoc.
Qed.

Lemma foldl_add_values vs (m0 : url.Values) k :
  vs <> [] ->
  foldl url.add m0 ((fun x => (k, x)) <$> vs)
  = <[k := default [] (m0 !! k) ++ vs]> m0.
Proof. destruct vs as [|v vs]; [done|]. intros _. apply foldl_add_cons. Qed.

Lemma foldl_add_entries (l : list (string * list string)) : forall m0 : url.Values,
  Forall (fun e => e.2 <> []) l -> NoDup l.*1 ->
  Forall (fun e => m0 !! e.1 = None) l ->
  foldl url.add m0 (flat_map (fun e => (fun x => (e.1, x)) <$> e.2) l)
  = foldl store_entry m0 l.
Proof.
  induction l as [|[k vs] l IH]; intros m0 Hne Hnd Hfresh; [done|].
  inversion Hne as [|? ? Hvs Hne']; subst.
  inversion Hfresh as [|? ? Hk Hfresh']; subst.
  cbn in Hnd. apply NoDup_cons in Hnd as [Hkl Hnd]. cbn [fst snd] in *.
  cbn [flat_map foldl]. rewrite foldl_app. cbn [fst snd].
  rewrite foldl_add_values, Hk by done. cbn [default app].
  apply IH; [done|done|].
  apply Forall_forall. intros [k' vs'] Hin. cbn [fst].
  rewrite Forall_forall in Hfresh'. specialize (Hfresh' _ Hin). cbn in Hfresh'.
  unfold store_entry. cbn [fst snd].
  rewrite lookup_insert_ne; [done|]. intros ->. apply Hkl.
  apply list_elem_of_fmap. by exists (k', vs').
Qed.

Lemma sortedEntries_perm (m : url.Values) : url.sortedEntries m ≡ₚ map_to_list m.
Proof. apply merge_sort_Permutation. Qed.

(** A query written by [Encode] parses back to the values encoded. *)
Lemma ParseQuery_Encode (m : url.Values) :
  nonemptyValues m -> url.ParseQuery (url.Encode m) = m.
Proof.
  intros Hm. unfold url.ParseQuery, url.Encode. rewrite pairs_encoded.
  assert (Hnd : NoDup (url.sortedEntries m).*1).
  { rewrite sortedEntries_perm. apply NoDup_fst_map_to_list. }
  rewrite foldl_add_entries.
  - rewrite foldl_store_entry, (right_id_L ∅ (∪)) by done.
    rewrite (list_to_map_proper _ (map_to_list m)) by (done || apply sortedEntries_perm).
    apply list_to_map_to_list.
  - apply Forall_forall. intros [k vs] Hin. cbn.
    rewrite sortedEntries_perm in Hin. apply elem_of_map_to_list in Hin.
    by apply (Hm k vs).
  - done.
  - apply Forall_forall. intros e _. apply lookup_empty.
Qed.

Lemma Query_sortURLParams u :
  url.Query (sortURLParams u) = sortStrings <$> url.Query u.
Proof.
  unfold url.Query at 1, sortURLParams. cbn [url.RawQuery].
  apply ParseQuery_Encode. apply sorted_nonempty, ParseQuery_nonempty.
Qed.

Lemma Query_normalized r :
  url.Query (URL (normalized r)) = sortStrings <$> url.Query (URL r).
Proof. apply Query_sortURLParams. Qed.


(** ** Time *)

Lemma After_later t u : time.After t u = true <-> time.later t u.
Proof.
  unfold time.After, time.later.
  rewrite orb_true_iff, andb_true_iff, !Z.ltb_lt, Z.eqb_eq. tauto.
Qed.

Lemma After_irrefl t : time.After t t = false.
Proof.
  apply not_true_iff_false. rewrite After_later. unfold time.later. lia.
Qed.

(** [Add] moves the instant by the duration, as long as the seconds stay
    far from the ends of [int64]. *)
Lemma Add_nanos t d :
  0 <= time.nsec t < 10 ^ 9 -> is_int64 d ->
  - 2 ^ 62 <= time.sec t <= 2 ^ 62 ->
  time.nanos (time.Add t d) = time.nanos t + d
  /\ 0 <= time.nsec (time.Add t d) < 10 ^ 9.
Proof.
  unfold is_int64, min_int64, max_int64. intros Hn Hd Hs.
  destruct t as [s n]. cbn [time.sec time.nsec] in *.
  pose proof (Z.quot_rem' d (10 ^ 9)) as Hqr.
  assert (Hr : - 10 ^ 9 < Z.rem d (10 ^ 9) < 10 ^ 9).
  { pose proof (Z.rem_bound_abs d (10 ^ 9) ltac:(lia)). lia. }
  assert (Hq : - 2 ^ 34 <= Z.quot d (10 ^ 9) <= 2 ^ 34).
  { assert (Z.abs (Z.quot d (10 ^ 9)) <= 2 ^ 34); [|lia].
    rewrite <- Z.quot_abs by lia.
    apply Z.quot_le_upper_bound; lia. }
  set (q := Z.quot d (10 ^ 9)) in *. set (r := Z.rem d (10 ^ 9)) in *.
  assert (Hadd : forall n' ds, - 2 ^ 35 <= ds <= 2 ^ 35 ->
    time.addSec (time.mkTime s n') ds = time.mkTime (s + ds) n').
  { intros n' ds Hds. unfold time.addSec. cbn [time.sec time.nsec].
    rewrite to_int64_small by (unfold is_int64, min_int64, max_int64; lia).
    destruct (Z.ltb_spec s (s + ds)), (Z.ltb_spec 0 ds); cbn; (done || lia). }
  unfold time.Add, time.nanos. cbn [time.sec time.nsec]. fold q r.
  destruct (Z.leb_spec (10 ^ 9) (n + r)).
  - rewrite Hadd by lia. cbn [time.sec time.nsec]. lia.
  - destruct (Z.ltb_spec (n + r) 0).
    + rewrite Hadd by lia. cbn [time.sec time.nsec]. lia.
    + rewrite Hadd by lia. cbn [time.sec time.nsec]. lia.
Qed.

(** The zero entry expires at the zero time: it is stale at every time from
    the zero time on. *)
Lemma zero_never_fresh now :
  0 <= time.sec now -> 0 <= time.nsec now ->
  time.After (Expiration zeroResponse) now = false.
Proof.
  intros Hs Hn. apply not_true_iff_false. rewrite After_later.
  unfold time.later. cbn. lia.
Qed.

(** ** The capturing writer *)



Lemma last_cons {X} (l : list X) : forall x d,
  List.last (x :: l) d = List.last l x.
Proof.
  induction l as [|y l IH]; intros x d; [done|].
  change (List.last (x :: y :: l) d) with (List.last (y :: l) d).
  by rewrite !IH.
Qed.

(** The status the capturing writer holds is the code of the last
    [WriteHeader] call. *)
Lemma steps_lastStatus steps : forall rw : responseWriter.t,
  responseWriter.statusCode (foldl step rw steps)
  = List.last (statusCodes steps) (responseWriter.statusCode rw).
Proof.
  induction steps as [|s steps IH]; intros rw; cbn [foldl]; [done|].
  rewrite IH. destruct s as [f|code|b|b]; try done.
  change (statusCodes (DoWriteHeader code :: steps))
    with (code :: statusCodes steps).
  by rewrite last_cons.
Qed.

(** ** Runs of the middleware *)

Section RunFacts.

Context {A : Type} `{Adapter A}.
Variable canon : string -> string.
Variable fmt : Time -> string.

Lemma forward_trace c next key r (w : World A) :
  let rw := ServeHTTP next (responseWriter.new (writer w)) r in
  trace (forward c next key r w).2
  = trace w ++ Served r (Some rw) :: stored c key rw (clock w (ticks w)).
Proof.
  intros rw. unfold forward, stored, bind, getWriter, putWriter, emit, Now, ret.
  cbn. fold rw. destruct (responseWriter.statusCode rw <? 400); cbn.
  - by rewrite <- app_assoc.
  - done.
Qed.

Lemma forward_ticks c next key r (w : World A) :
  ticks (forward c next key r w).2 = S (ticks w)
  /\ clock (forward c next key r w).2 = clock w.
Proof.
  unfold forward, bind, getWriter, putWriter, emit, Now, ret. cbn.
  destruct (_ <? 400); cbn; done.
Qed.

Lemma handle_paths c next r a clk out :
  cacheableMethod c (Method r) = true ->
  Path c next r a clk out (trace (handle canon fmt c next r a clk out)).
Proof.
  intros Hm. unfold handle, Middleware. rewrite Hm. cbn [negb].
  fold (normalized r).
  destruct (url.Query (URL (normalized r)) !! refreshKey c) as [vs|] eqn:Hq.
  - fold (refreshed c r). unfold bind at 1, adapterRelease.
    rewrite forward_trace. cbn [trace writer clock ticks app].
    eapply PathRefresh; eauto.
  - unfold bind at 1, adapterGet. cbn [store].
    destruct (Get (hash c (normalized r)) a) as [[b ok] a'] eqn:Hg.
    cbn [fst snd]. destruct ok.
    + unfold bind at 1, Now. cbn [clock ticks].
      destruct (time.After (Expiration (BytesToResponse b)) (clk 0%nat)) eqn:Haf.
      * unfold bind, adapterSet, getWriter, putWriter, Now.
        cbn [trace clock ticks snd app]. eapply PathHit; eauto.
      * unfold bind at 1, adapterRelease. rewrite forward_trace.
        cbn [trace writer clock ticks app]. eapply PathStale; eauto.
    + rewrite forward_trace. cbn [trace writer clock ticks app].
      eapply PathAbsent; eauto.
Qed.

Lemma handle_hit_writer c next r a clk out b a' :
  cacheableMethod c (Method r) = true ->
  url.Query (URL (normalized r)) !! refreshKey c = None ->
  Get (hash c (normalized r)) a = ((b, true), a') ->
  time.After (Expiration (BytesToResponse b)) (clk 0%nat) = true ->
  writer (handle canon fmt c next r a clk out)
  = writeCached canon fmt c (touch (BytesToResponse b) (clk 1%nat)) out.
Proof.
  intros Hm Hq Hg Haf. unfold handle, Middleware. rewrite Hm. cbn [negb].
  fold (normalized r). rewrite Hq.
  unfold bind at 1, adapterGet. cbn [store]. rewrite Hg. cbn [fst snd].
  unfold bind at 1, Now. cbn [clock ticks]. rewrite Haf.
  reflexivity.
Qed.

Lemma stored_not_served c key rw now :
  existsb isServed (stored c key rw now) = false.
Proof. unfold stored. by destruct (_ <? 400). Qed.

(** A list has one place at most for an element that is the only one of
    its kind. *)
Lemma served_unique (l1 l2 p q : list Event) x y :
  existsb isServed l1 = false -> existsb isServed l2 = false ->
  isServed y = true ->
  l1 ++ x :: l2 = p ++ y :: q ->
  p = l1 /\ y = x /\ q = l2.
Proof.
  intros H1 H2 Hy. revert p. induction l1 as [|e l1 IH]; intros p Heq.
  - destruct p as [|e' p]; cbn in Heq.
    + by inversion Heq.
    + inversion Heq; subst. exfalso.
      rewrite existsb_app in H2. cbn in H2. rewrite Hy in H2.
      by rewrite orb_true_r in H2.
  - cbn in H1. apply orb_false_iff in H1 as [He H1].
    destruct p as [|e' p]; cbn in Heq.
    + inversion Heq; subst. congruence.
    + inversion Heq; subst. destruct (IH H1 p) as (-> & -> & ->); auto.
Qed.


Lemma handle_refresh c next r a clk out :
  cacheableMethod c (Method r) = true ->
  is_Some (url.Query (URL r) !! refreshKey c) ->
  trace (handle canon fmt c next r a clk out)
  = AdapterRelease (hash c (refreshed c r))
      :: Served (refreshed c r)
           (Some (ServeHTTP next (responseWriter.new out) (refreshed c r)))
      :: stored c (hash c (refreshed c r))
           (ServeHTTP next (responseWriter.new out) (refreshed c r))
           (clk 0%nat).
Proof.
  intros Hm [vs Hq].
  assert (Hn : url.Query (URL (normalized r)) !! refreshKey c
               = Some (sortStrings vs)).
  { by rewrite Query_normalized, lookup_fmap, Hq. }
  pose proof (handle_paths c next r a clk out Hm) as HP.
  inversion HP as [rw0 Hq' Hrw Heq|b a' rw0 Hq' Hg Hrw Heq
      |b a' rw0 Hq' Hg Haf Hrw Heq|b a' Hq' Hg Haf Heq];
    try congruence.
Qed.

Lemma headerSet_calls k v (w : Recorder) : calls (headerSet canon k v w) = calls w.
Proof. reflexivity. Qed.

Lemma writeCached_calls c response (w : Recorder) :
  calls (writeCached canon fmt c response w) = calls w ++ [CallWrite (Value response)].
Proof.
  unfold writeCached. cbn [Write Recorder_writer calls]. f_equal.
  assert (Hfold : forall l (w0 : Recorder),
    calls (foldl (fun w kv => headerSet canon kv.1 (String.concat "," kv.2) w) w0 l)
    = calls w0).
  { induction l as [|kv l IH]; intros w0; cbn [foldl]; [done|].
    by rewrite IH. }
  destruct (writeExpiresHeader c), (String.eqb _ ""); by rewrite ?headerSet_calls, Hfold.
Qed.

End RunFacts.

(** ** The order of the parameters in a normalized query *)

Lemma entry_le_trans : Transitive url.entry_le.
Proof. intros x y z. unfold url.entry_le. apply string_le_trans. Qed.

#[global] Existing Instance entry_le_trans.

Lemma entry_le_total : Total url.entry_le.
Proof. intros x y. unfold url.entry_le. apply string_le_total. Qed.

#[global] Existing Instance entry_le_total.

Lemma string_le_refl s : string_le s s.
Proof. destruct (string_le_total s s); done. Qed.

Lemma names_sorted (l : list (string * list string)) :
  StronglySorted url.entry_le l ->
  StronglySorted string_le
    (flat_map (fun e => (fun x => (e.1, x)) <$> e.2) l).*1.
Proof.
  induction 1 as [|e l Hl IH He]; [constructor|].
  cbn [flat_map]. rewrite fmap_app. apply StronglySorted_app_2.
  - intros x1 x2 H1 H2.
    apply list_elem_of_fmap in H1 as ([k1 v1] & -> & H1).
    apply list_elem_of_fmap in H1 as (v & [= -> ->] & _).
    apply list_elem_of_fmap in H2 as ([k2 v2] & -> & H2).
    apply list_elem_of_In, in_flat_map in H2 as (e' & He' & H2).
    rewrite <- ?list_elem_of_In in H2. rewrite <- ?list_elem_of_In in He'.
    apply list_elem_of_fmap in H2 as (v' & [= -> ->] & _).
    rewrite Forall_forall in He. by apply (He e').
  - induction (e.2) as [|v vs IHv]; [constructor|].
    cbn. constructor; [done|]. apply Forall_forall. intros x Hx.
    apply list_elem_of_fmap in Hx as ([k1 v1] & -> & Hx).
    apply list_elem_of_fmap in Hx as (v' & [= -> ->] & _). apply string_le_refl.
  - done.
Qed.

Lemma pairs_sortURLParams u :
  url.pairs (url.RawQuery (sortURLParams u))
  = flat_map (fun e => (fun x => (e.1, x)) <$> e.2)
      (url.sortedEntries (sortStrings <$> url.Query u)).
Proof. unfold sortURLParams. cbn [url.RawQuery]. apply pairs_encoded. Qed.

Lemma sorted_values_eq (m1 m2 : url.Values) :
  (forall k, option_Forall2 Permutation (m1 !! k) (m2 !! k)) ->
  sortStrings <$> m1 = sortStrings <$> m2.
Proof.
  intros Hp. apply map_eq. intros k. rewrite !lookup_fmap.
  destruct (Hp k) as [vs ws Hvw|]; [|done]. cbn. f_equal.
  by apply sortStrings_proper.
Qed.

(** ** Construction *)

Lemma plainClient_constructed :
  NewClient [ClientWithAdapter true; ClientWithTTL (seconds 10)]
  = inl plainClient.
Proof. reflexivity. Qed.

(** * The properties of the specification *)


(** C2. A stored entry is served from the cache exactly when its expiration
    is strictly later than the time read at the lookup; the cached body is
    then written out. An entry that expires at that very time is stale: the
    request goes to the handler. *)
Theorem C2_fresh_iff_expiration_after_now {A : Type} `{Adapter A}
    (canon : string -> string) (fmt : Time -> string)
    c next r (a : A) clk out b a' :
  cacheableMethod c (Method r) = true ->
  url.Query (URL r) !! refreshKey c = None ->
  Get (hash c (normalized r)) a = ((b, true), a') ->
  let entry := BytesToResponse b in
  let w := handle canon fmt c next r a clk out in
  (time.later (Expiration entry) (clk 0%nat)
   <-> handlerCalled (trace w) = false)
  /\ (time.later (Expiration entry) (clk 0%nat) ->
      calls (writer w) = calls out ++ [CallWrite (Value entry)])
  /\ (Expiration entry = clk 0%nat -> handlerCalled (trace w) = true).
Proof.
  intros Hm Hq0 Hg entry w.
  assert (Hq : url.Query (URL (normalized r)) !! refreshKey c = None)
    by (by rewrite Query_normalized, lookup_fmap, Hq0).
  pose proof (handle_paths canon fmt c next r a clk out Hm) as HP.
  fold w in HP.
  assert (Hcases :
    (time.After (Expiration entry) (clk 0%nat) = true
     /\ handlerCalled (trace w) = false)
    \/ (time.After (Expiration entry) (clk 0%nat) = false
        /\ handlerCalled (trace w) = true)).
  { inversion HP as [rw0 Hq' Hrw Heq|b0 a0 rw0 Hq' Hg' Hrw Heq
      |b0 a0 rw0 Hq' Hg' Haf Hrw Heq|b0 a0 Hq' Hg' Haf Heq].
    - rewrite Hq in Hq'. by destruct Hq'.
    - congruence.
    - right. assert (b0 = b) as -> by congruence. done.
    - left. assert (b0 = b) as -> by congruence. done. }
  split; [|split].
  - rewrite <- After_later.
    destruct Hcases as [[-> ->]|[-> ->]]; split; congruence.
  - intros Hl. apply After_later in Hl. subst w.
    rewrite (handle_hit_writer canon fmt c next r a clk out b a'),
      writeCached_calls by done.
    done.
  - intros He. destruct Hcases as [[Haf _]|[_ Hc]]; [|done].
    rewrite He, After_irrefl in Haf. done.
Qed.


(** C4. Decoding the encoding of an entry gives the entry back, all five
    fields of it: the payload (which is not empty), the headers with their
    names as given and all their values in order, both times and the
    frequency. The entry is one the codec accepts: its numbers are in range
    and its sizes below the limit of the codec. *)
Theorem C4_decode_encode_roundtrip e :
  validResponse e -> withinLimits e ->
  BytesToResponse (Bytes e) = e.
Proof.
  intros Hv Hl. unfold BytesToResponse, Bytes. by rewrite Decode_Encode.
Qed.

(** C5, as amended. Decoding returns an entry for every input and hands no
    error on. On the empty input, and on an encoding cut short anywhere, the
    entry is the zero value; the zero value is stale at every time from the
    zero time on, so such stored bytes, like absent ones, send the request
    to the handler. *)
Theorem C5_decode_swallows_errors :
  (forall b, exists r ok,
     gob.Decode b zeroResponse = (r, ok) /\ BytesToResponse b = r)
  /\ BytesToResponse [] = zeroResponse
  /\ (forall e b k,
        Bytes e = b ++ k -> k <> [] -> BytesToResponse b = zeroResponse)
  /\ (forall now,
        0 <= time.sec now -> 0 <= time.nsec now ->
        time.After (Expiration zeroResponse) now = false)
  /\ (forall (A : Type) (HA : Adapter A) canon fmt c next r (a : A) clk out
             b ok a',
        cacheableMethod c (Method r) = true ->
        url.Query (URL r) !! refreshKey c = None ->
        Get (hash c (normalized r)) a = ((b, ok), a') ->
        BytesToResponse b = zeroResponse ->
        0 <= time.sec (clk 0%nat) -> 0 <= time.nsec (clk 0%nat) ->
        handlerCalled (trace (handle canon fmt c next r a clk out)) = true).
Proof.
  split; [|split; [|split; [|split]]].
  - intros b. unfold BytesToResponse.
    destruct (gob.Decode b zeroResponse) as [r ok]. by exists r, ok.
  - reflexivity.
  - intros e b k He Hk. unfold BytesToResponse, Bytes in *.
    by rewrite (Decode_truncated e b k).
  - apply zero_never_fresh.
  - intros A HA canon fmt c next r a clk out b ok a' Hm Hq Hg Hz Hs Hn.
    pose proof (handle_paths canon fmt c next r a clk out Hm) as HP.
    inversion HP as [rw0 Hq' Hrw Heq|b0 a0 rw0 Hq' Hg' Hrw Heq
      |b0 a0 rw0 Hq' Hg' Haf Hrw Heq|b0 a0 Hq' Hg' Haf Heq]; try done.
    exfalso. assert (b0 = b) as -> by congruence.
    rewrite Hz, zero_never_fresh in Haf; done.
Qed.

(** C5, as stated, fails for stored bytes that go wrong after some fields
    were read: decoding fails and yet leaves an entry that is not the zero
    value, with the fields read before the error. With an expiration in the
    future among them the entry is fresh, and it is served from the
    cache. *)
Lemma C5_corrupt_entry_is_served :
  (gob.Decode corruptEntry zeroResponse).2 = false
  /\ BytesToResponse corruptEntry <> zeroResponse
  /\ Value (BytesToResponse corruptEntry) = bytes_of_string "x"
  /\ Expiration (BytesToResponse corruptEntry) = future
  /\ time.After (Expiration (BytesToResponse corruptEntry)) (wallClock 0) = true
  /\ handlerCalled
       (trace (handle id noFormat plainClient hello (get "/a" "") corruptStore
                 wallClock blank)) = false.
Proof. vm_compute. repeat split; (reflexivity || discriminate). Qed.

(** C6, as amended. Normalization sorts the values of every parameter and
    leaves the parameter names as they are, case included; it writes the
    parameters back in increasing order of their names. Two requests that
    differ only in the order of the values of their parameters derive the
    same key. *)
Theorem C6_query_normalization c :
  (forall u k,
     url.Query (sortURLParams u) !! k = sortStrings <$> (url.Query u !! k))
  /\ (forall vs,
        sortStrings vs ≡ₚ vs /\ StronglySorted string_le (sortStrings vs))
  /\ (forall u,
       StronglySorted string_le (paramNames (url.RawQuery (sortURLParams u))))
  /\ (forall r1 r2,
       Method r1 = Method r2 -> HeaderValues r1 = HeaderValues r2 ->
       Body r1 = Body r2 ->
       url.Path (URL r1) = url.Path (URL r2) ->
       url.ForceQuery (URL r1) = url.ForceQuery (URL r2) ->
       url.Fragment (URL r1) = url.Fragment (URL r2) ->
       (forall k, option_Forall2 Permutation
                    (url.Query (URL r1) !! k) (url.Query (URL r2) !! k)) ->
       hash c (normalized r1) = hash c (normalized r2)).
Proof.
  split; [|split; [|split]].
  - intros u k. by rewrite Query_sortURLParams, lookup_fmap.
  - intros vs. split; [apply sortStrings_perm|apply sortStrings_sorted].
  - intros u. unfold paramNames. rewrite pairs_sortURLParams.
    apply names_sorted. apply StronglySorted_merge_sort; apply _.
  - intros r1 r2 Hm Hh Hb Hp Hf Hg Hq. f_equal.
    unfold normalized, withURL, sortURLParams.
    rewrite Hm, Hh, Hb, Hp, Hf, Hg. do 2 f_equal.
    f_equal. by apply sorted_values_eq.
Qed.

(** C6, as stated, fails: the order of the parameters is not left
    untouched. [/a?b=1&a=2] is normalized to [/a?a=2&b=1]. *)
Lemma C6_parameter_order_changes :
  url.RawQuery (sortURLParams unsortedURL) = "a=2&b=1"%string
  /\ paramNames (url.RawQuery (sortURLParams unsortedURL))
     <> paramNames (url.RawQuery unsortedURL).
Proof. split; [by vm_compute|]. vm_compute. discriminate. Qed.

(** C7 fails on the code: [Write] of the capturing writer replaces the
    captured body by the chunk written. A handler that answers [GET /a] with
    status 200 and the body [hello] in the two chunks [hel] and [lo] sends
    both to the client, and the payload of the stored entry is [lo]. *)
Theorem C7_stored_body_is_last_chunk :
  let w := handle id noFormat plainClient twoChunks (get "/a" "") (∅ : Memory)
             wallClock blank in
  calls (writer w)
    = [CallWriteHeader 200; CallWrite (bytes_of_string "hel");
       CallWrite (bytes_of_string "lo")]
  /\ storedPayloads (trace w) = [bytes_of_string "lo"].
Proof. vm_compute. split; reflexivity. Qed.

(** C8 fails on the code: a client built without a refresh key has the
    empty string for one, and a query with a parameter of empty name, as in
    [GET /a?=1], takes the refresh path: no lookup, a release of the entry of
    [/a], and the handler called. *)
Theorem C8_unset_refresh_key_still_refreshes :
  NewClient [ClientWithAdapter true; ClientWithTTL (seconds 10)]
  = inl plainClient
  /\ refreshKey plainClient = ""%string
  /\ forall (A : Type) (HA : Adapter A) canon fmt next (a : A) clk out,
       let rw := ServeHTTP next (responseWriter.new out) (get "/a" "") in
       trace (handle canon fmt plainClient next (get "/a" "=1") a clk out)
       = AdapterRelease (hash plainClient (get "/a" ""))
           :: Served (get "/a" "") (Some rw)
           :: stored plainClient (hash plainClient (get "/a" "")) rw
                (clk 0%nat).
Proof.
  split; [reflexivity|split; [reflexivity|]].
  intros A HA canon fmt next a clk out rw.
  rewrite handle_refresh.
  - reflexivity.
  - reflexivity.
  - exists ["1"%string]. by vm_compute.
Qed.



(** * The properties at sample inputs *)


(** C2 for [GET /a] over the store that holds the entry of [hello]. *)
Lemma C2_witness :
  let entry := BytesToResponse (Bytes helloEntry) in
  let w := handle id noFormat plainClient hello (get "/a" "") warmStore
             wallClock blank in
  (time.later (Expiration entry) (wallClock 0)
   <-> handlerCalled (trace w) = false)
  /\ (time.later (Expiration entry) (wallClock 0) ->
      calls (writer w) = calls blank ++ [CallWrite (Value entry)])
  /\ (Expiration entry = wallClock 0 -> handlerCalled (trace w) = true).
Proof.
  apply (C2_fresh_iff_expiration_after_now id noFormat plainClient hello
           (get "/a" "") warmStore wallClock blank (Bytes helloEntry)
           warmStore).
  - reflexivity.
  - vm_compute. reflexivity.
  - vm_compute. reflexivity.
Defined.


(** C4 for an entry with a header of two values. *)
Lemma C4_witness :
  validResponse sampleEntry /\ withinLimits sampleEntry
  /\ BytesToResponse (Bytes sampleEntry) = sampleEntry.
Proof.
  assert (Hv : validResponse sampleEntry).
  { unfold validResponse, time.valid, is_int64, min_int64, max_int64.
    vm_compute. repeat split; discriminate. }
  assert (Hl : withinLimits sampleEntry).
  { split.
    - vm_compute. reflexivity.
    - intros m k vs [= <-] Hk.
      apply lookup_singleton_Some in Hk as [_ <-]. vm_compute. discriminate. }
  split; [exact Hv|split; [exact Hl|]].
  apply (C4_decode_encode_roundtrip sampleEntry Hv Hl).
Defined.

(** C5 for an encoding cut after 200 bytes, and for a store that holds the
    empty byte sequence under the key of [GET /a]. *)
Lemma C5_witness :
  BytesToResponse (take 200 (Bytes sampleEntry)) = zeroResponse
  /\ time.After (Expiration zeroResponse) (wallClock 0) = false
  /\ handlerCalled
       (trace (handle id noFormat plainClient hello (get "/a" "")
                 emptyEntryStore wallClock blank)) = true.
Proof.
  destruct C5_decode_swallows_errors as (_ & _ & Hcut & Hstale & Hmiss).
  split; [|split].
  - apply (Hcut sampleEntry _ (drop 200 (Bytes sampleEntry))).
    + symmetry. apply take_drop.
    + vm_compute. discriminate.
  - apply Hstale; vm_compute; discriminate.
  - apply (Hmiss Memory _ id noFormat plainClient hello (get "/a" "")
             emptyEntryStore wallClock blank [] true emptyEntryStore).
    + reflexivity.
    + vm_compute. reflexivity.
    + vm_compute. reflexivity.
    + reflexivity.
    + vm_compute. discriminate.
    + vm_compute. discriminate.
Defined.

(** C6 for [GET /a?x=2&x=1] and [GET /a?x=1&x=2]. *)
Lemma C6_witness :
  hash plainClient (normalized (get "/a" "x=2&x=1"))
  = hash plainClient (normalized (get "/a" "x=1&x=2")).
Proof.
  destruct (C6_query_normalization plainClient) as (_ & _ & _ & Hkey).
  apply Hkey; try reflexivity.
  intros k.
  replace (url.Query (URL (get "/a" "x=2&x=1")))
    with ({[ "x"%string := ["2"%string; "1"%string] ]} : url.Values)
    by (vm_compute; reflexivity).
  replace (url.Query (URL (get "/a" "x=1&x=2")))
    with ({[ "x"%string := ["1"%string; "2"%string] ]} : url.Values)
    by (vm_compute; reflexivity).
  destruct (decide (k = "x"%string)) as [->|Hk].
  - rewrite !lookup_singleton_eq. constructor. apply perm_swap.
  - rewrite !lookup_singleton_ne by done. constructor.
Defined.



(** * Further properties of the code *)

(** ** Construction *)

Lemma applyOptions_app l1 : forall l2 c,
  applyOptions (l1 ++ l2) c
  = match applyOptions l1 c with
    | inl c' => applyOptions l2 c'
    | inr e => inr e
    end.
Proof.
  induction l1 as [|opt l1 IH]; intros l2 c; cbn; [done|].
  destruct (applyOption opt c); [apply IH|done].
Qed.

Lemma find_invalid_method ms :
  List.find
    (fun m => negb (String.eqb m MethodGet || String.eqb m MethodPost)) ms
  = None
  <-> forall m, In m ms -> allowedMethod m.
Proof.
  unfold allowedMethod. split.
  - intros Hf m Hm. pose proof (find_none _ _ Hf m Hm) as Hn. cbn in Hn.
    apply negb_false_iff, orb_true_iff in Hn as [Hn|Hn];
      apply String.eqb_eq in Hn; auto.
  - intros Ha. induction ms as [|m ms IH]; cbn; [done|].
    destruct (Ha m (or_introl eq_refl)) as [->| ->]; cbn;
      apply IH; intros m' Hm'; apply Ha; by right.
Qed.

(** Whether an option is accepted does not depend on the client it is
    applied to. *)
Lemma applyOption_accepts opt c :
  (exists c', applyOption opt c = inl c')
  <-> accepted opt.
Proof.
  destruct opt as [a|d|k|[ms|]|fn|hs|]; cbn; try (split; eauto; fail).
  - destruct (Z.ltb_spec d 1); split; try lia; eauto. intros [? [=]].
  - rewrite <- find_invalid_method.
    destruct (List.find _ ms); split; eauto; try done. intros [? [=]].
Qed.

Lemma applyOptions_accepts opts : forall c,
  (exists c', applyOptions opts c = inl c') <-> Forall accepted opts.
Proof.
  induction opts as [|opt opts IH]; intros c; cbn.
  - split; eauto.
  - rewrite Forall_cons. pose proof (applyOption_accepts opt c) as Ha.
    rewrite <- Ha.
    destruct (applyOption opt c) as [c1|e].
    + rewrite IH. split; eauto. tauto.
    + split; [intros [? [=]]|intros [[? [=]] _]].
Qed.

(** What a run of accepted options leaves in the fields of the client. *)
Lemma applyOptions_fields opts : forall c c',
  applyOptions opts c = inl c' ->
  ((forall a, ~ In (ClientWithAdapter a) opts) -> adapter c' = adapter c)
  /\ ((forall d, ~ In (ClientWithTTL d) opts) -> ttl c' = ttl c)
  /\ ((forall k, ~ In (ClientWithRefreshKey k) opts) ->
      refreshKey c' = refreshKey c)
  /\ ((forall ms, ~ In (ClientWithMethods ms) opts) -> methods c' = methods c)
  /\ ((forall fn, ~ In (ClientWithGenerateKey fn) opts) ->
      generateKey c' = generateKey c)
  /\ ((forall hs, ~ In (ClientWithVary hs) opts) -> vary c' = vary c)
  /\ (writeExpiresHeader c' = true
      <-> writeExpiresHeader c = true \/ In ClientWithExpiresHeader opts).
Proof.
  induction opts as [|opt opts IH]; intros c c' Ha; cbn in Ha.
  - injection Ha as <-. cbn. intuition.
  - destruct (applyOption opt c) as [c1|e] eqn:Ho; [|done].
    specialize (IH c1 c' Ha) as (Iad & Ittl & Irk & Ims & Ifn & Ivary & Iex).
    destruct opt as [a|d|k|ms|fn|hs|]; cbn in Ho;
      try (destruct (d <? 1); [done|]);
      try (destruct (List.find _ _); [done|]);
      injection Ho as <-; cbn in *;
      (split; [|split; [|split; [|split; [|split; [|split]]]]]);
      try (rewrite Iex; intuition congruence);
      try (intros Hn; first
             [ rewrite Iad | rewrite Ittl | rewrite Irk | rewrite Ims
             | rewrite Ifn | rewrite Ivary ];
           [done|intros x Hx; apply (Hn x); by right]);
      try (intros Hn; exfalso; eapply Hn; left; reflexivity).
Qed.

Lemma adapterGiven_cons opt opts :
  adapterGiven (opt :: opts)
  <-> adapterGiven opts
      \/ (opt = ClientWithAdapter true
          /\ forall a, ~ In (ClientWithAdapter a) opts).
Proof.
  split.
  - intros (pre & post & He & Hno). destruct pre as [|x pre]; cbn in He.
    + injection He as -> ->. by right.
    + injection He as -> ->. left. by exists pre, post.
  - intros [(pre & post & -> & Hno)|[-> Hno]].
    + by exists (opt :: pre), post.
    + by exists [], opts.
Qed.

(** The adapter of the client is that of the last [ClientWithAdapter]. *)
Lemma applyOptions_adapter opts : forall c c',
  applyOptions opts c = inl c' ->
  adapter c' = true
  <-> adapterGiven opts
      \/ (adapter c = true /\ forall a, ~ In (ClientWithAdapter a) opts).
Proof.
  induction opts as [|opt opts IH]; intros c c' Ha; cbn in Ha.
  - injection Ha as <-. split.
    + intros Hc. right. split; [done|]. intros a [].
    + intros [(pre & post & He & _)|[Hc _]]; [|done].
      by destruct pre.
  - destruct (applyOption opt c) as [c1|e] eqn:Ho; [|done].
    rewrite (IH c1 c' Ha), adapterGiven_cons.
    destruct opt as [a|d|k|ms|fn|hs|]; cbn in Ho;
      try (destruct (d <? 1); [done|]);
      try (destruct (List.find _ _); [done|]);
      injection Ho as <-; cbn.
    1: { split.
         - intros [Hg|[-> Hno]]; [by left; left|]. left. by right.
         - intros [[Hg|[[= ->] Hno]]|[_ Hno]].
           + by left.
           + by right.
           + exfalso. apply (Hno a). by left. }
    all: split;
      [ intros [Hg|[Hc Hno]]; [by left; left|];
        right; split; [done|]; intros a [[=]|Hin]; by apply (Hno a)
      | intros [[Hg|[[=] _]]|[Hc Hno]]; [by left|];
        right; split; [done|]; intros a Hin; apply (Hno a); by right ].
Qed.

(** The last option of a kind decides its field. *)
Lemma applyOptions_last pre opt post c c' :
  applyOptions (pre ++ opt :: post) c = inl c' ->
  exists c0 c1,
    applyOptions pre c = inl c0 /\ applyOption opt c0 = inl c1
    /\ applyOptions post c1 = inl c'.
Proof.
  rewrite applyOptions_app. destruct (applyOptions pre c) as [c0|]; [|done].
  cbn. destruct (applyOption opt c0) as [c1|] eqn:Ho; [|done]. eauto.
Qed.

Lemma applyOption_wellFormed opt c c' :
  wellFormed c -> applyOption opt c = inl c' -> wellFormed c'.
Proof.
  intros [Ht Hm] Ho.
  destruct opt as [a|d|k|ms|fn|hs|]; cbn in Ho.
  1,3,5,6,7: injection Ho as <-; by split.
  - destruct (Z.ltb_spec d 1); [done|]. injection Ho as <-.
    split; cbn; [lia|done].
  - destruct (List.find _ _) eqn:Hf; [done|]. injection Ho as <-.
    split; [done|]. cbn. intros ms' m -> Hin.
    cbn in Hf. by apply (proj1 (find_invalid_method ms')).
Qed.

Lemma applyOptions_wellFormed opts : forall c c',
  wellFormed c -> applyOptions opts c = inl c' -> wellFormed c'.
Proof.
  induction opts as [|opt opts IH]; intros c c' Hw Ha; cbn in Ha.
  - by injection Ha as <-.
  - destruct (applyOption opt c) as [c1|] eqn:Ho; [|done].
    eapply IH; [|done]. by eapply applyOption_wellFormed.
Qed.

Lemma applyOptions_ttl opts : forall c c',
  applyOptions opts c = inl c' ->
  1 <= ttl c \/ (exists d, In (ClientWithTTL d) opts) -> 1 <= ttl c'.
Proof.
  induction opts as [|opt opts IH]; intros c c' Ha Hd; cbn in Ha.
  - injection Ha as <-. destruct Hd as [|[d []]]. done.
  - destruct (applyOption opt c) as [c1|] eqn:Ho; [|done].
    apply (IH c1 c' Ha).
    destruct opt as [a|d|k|ms|fn|hs|]; cbn in Ho;
      try (destruct (Z.ltb_spec d 1); [done|]);
      try (destruct (List.find _ _); [done|]);
      injection Ho as <-; cbn;
      try (left; lia);
      (destruct Hd as [|[d' [[=]|Hd]]]; [by left|right; eauto]).
Qed.

Lemma zeroClient_wellFormed : wellFormed zeroClient.
Proof. split; [by left|]. intros ms m [=]. Qed.

Lemma NewClient_inv opts c :
  NewClient opts = inl c ->
  exists c0,
    applyOptions opts zeroClient = inl c0
    /\ adapter c0 = true /\ 1 <= ttl c0
    /\ c = mkClient true (ttl c0) (refreshKey c0)
             (Some (default [MethodGet] (methods c0)))
             (writeExpiresHeader c0) (vary c0)
             (Some (default DefaultGenerateKey (generateKey c0))).
Proof.
  unfold NewClient. intros Hn.
  destruct (applyOptions opts zeroClient) as [c0|] eqn:Ha; [|done].
  destruct (adapter c0) eqn:Had; cbn in Hn; [|done].
  destruct (Z.ltb_spec (ttl c0) 1); [done|]. injection Hn as <-.
  exists c0. by rewrite Had.
Qed.

Lemma cacheableMethod_In c m :
  cacheableMethod c m = true <-> In m (default [] (methods c)).
Proof.
  unfold cacheableMethod. rewrite existsb_exists. split.
  - intros (x & Hx & He). apply String.eqb_eq in He. by subst.
  - intros Hin. exists m. split; [done|]. apply String.eqb_refl.
Qed.

Lemma TTL_option_dec opts :
  (exists d, In (ClientWithTTL d) opts)
  \/ (forall d, ~ In (ClientWithTTL d) opts).
Proof.
  induction opts as [|opt opts [[d Hd]|IH]].
  - right. intros d [].
  - left. exists d. by right.
  - destruct opt as [a|d|k|ms|fn|hs|];
      try (right; intros d' [[=]|Hd]; by apply (IH d')).
    left. exists d. by left.
Qed.

(** X1. [NewClient] returns a client exactly when the last
    [ClientWithAdapter] among the options gave an adapter that is not nil,
    there is a TTL among them, every TTL among them is at least one
    nanosecond and every method among them is [GET] or [POST]. *)
Theorem NewClient_succeeds_iff opts :
  (exists c, NewClient opts = inl c)
  <-> adapterGiven opts
      /\ (exists d, In (ClientWithTTL d) opts)
      /\ (forall d, In (ClientWithTTL d) opts -> 1 <= d)
      /\ (forall ms m, In (ClientWithMethods (Some ms)) opts -> In m ms ->
                       allowedMethod m).
Proof.
  assert (Hacc : Forall accepted opts
    <-> (forall d, In (ClientWithTTL d) opts -> 1 <= d)
        /\ (forall ms m, In (ClientWithMethods (Some ms)) opts -> In m ms ->
                         allowedMethod m)).
  { rewrite Forall_forall. split.
    - intros Hf. split.
      + intros d Hd. apply list_elem_of_In in Hd. apply (Hf _ Hd).
      + intros ms m Hin. apply list_elem_of_In in Hin. apply (Hf _ Hin).
    - intros [Ht Hm] opt Hin. apply list_elem_of_In in Hin.
      destruct opt as [a|d|k|[ms|]|fn|hs|]; cbn; auto.
      intros m. by apply Hm. }
  split.
  - intros [c Hn]. apply NewClient_inv in Hn as (c0 & Ha & Had & Ht & _).
    pose proof (applyOptions_fields _ _ _ Ha) as (_ & Ittl & _).
    assert (Hf : Forall accepted opts).
    { apply (applyOptions_accepts opts zeroClient). eauto. }
    apply Hacc in Hf as [Hf1 Hf2].
    split; [|split; [|split]]; try done.
    + apply (applyOptions_adapter _ _ _ Ha) in Had as [Had|[Had _]]; done.
    + destruct (TTL_option_dec opts) as [He|He]; [done|].
      rewrite Ittl in Ht by done. cbn in Ht. lia.
  - intros (Had & [d Hd] & Ht & Hm).
    assert (Hf : Forall accepted opts) by (by apply Hacc).
    apply (applyOptions_accepts opts zeroClient) in Hf as [c0 Ha].
    unfold NewClient. rewrite Ha.
    rewrite (proj2 (applyOptions_adapter _ _ _ Ha) (or_introl Had)). cbn.
    assert (1 <= ttl c0) by (eapply applyOptions_ttl; eauto).
    destruct (Z.ltb_spec (ttl c0) 1); [lia|]. eauto.
Qed.

(** X2. The error of [NewClient] is that of the first option that is not
    accepted: the TTL below one nanosecond, or the first method of the list
    that is neither [GET] nor [POST]. When every option is accepted, a
    missing adapter (none given, or the last one given nil) is reported,
    and a missing TTL only when the adapter is there. *)
Theorem NewClient_errors :
  (forall pre d post,
     Forall accepted pre -> d < 1 ->
     NewClient (pre ++ ClientWithTTL d :: post) = inr (ErrInvalidTTL d))
  /\ (forall pre ok m rest post,
        Forall accepted pre -> Forall allowedMethod ok -> ~ allowedMethod m ->
        NewClient (pre ++ ClientWithMethods (Some (ok ++ m :: rest)) :: post)
        = inr (ErrInvalidMethod m))
  /\ (forall opts,
        Forall accepted opts -> ~ adapterGiven opts ->
        NewClient opts = inr ErrAdapterNotSet)
  /\ (forall opts,
        Forall accepted opts -> adapterGiven opts ->
        (forall d, ~ In (ClientWithTTL d) opts) ->
        NewClient opts = inr ErrTTLNotSet).
Proof.
  split; [|split; [|split]].
  - intros pre d post Hpre Hd.
    apply (applyOptions_accepts pre zeroClient) in Hpre as [c0 Hc0].
    unfold NewClient. rewrite applyOptions_app, Hc0. cbn.
    by destruct (Z.ltb_spec d 1); [|lia].
  - intros pre ok m rest post Hpre Hok Hm.
    apply (applyOptions_accepts pre zeroClient) in Hpre as [c0 Hc0].
    unfold NewClient. rewrite applyOptions_app, Hc0. cbn.
    assert (Hf : List.find
              (fun m => negb (String.eqb m MethodGet || String.eqb m MethodPost))
              (ok ++ m :: rest) = Some m).
    { induction Hok as [|x ok Hx Hok IH]; cbn.
      - destruct (String.eqb_spec m MethodGet) as [->|];
          [exfalso; apply Hm; by left|].
        destruct (String.eqb_spec m MethodPost) as [->|];
          [exfalso; apply Hm; by right|]. done.
      - destruct Hx as [-> | ->]; cbn; apply IH. }
    by rewrite Hf.
  - intros opts Hacc Hno.
    apply (applyOptions_accepts opts zeroClient) in Hacc as [c0 Hc0].
    pose proof (applyOptions_adapter _ _ _ Hc0) as Iad.
    unfold NewClient. rewrite Hc0.
    destruct (adapter c0); [|done].
    destruct (proj1 Iad eq_refl) as [|[? _]]; done.
  - intros opts Hacc Had Hno.
    apply (applyOptions_accepts opts zeroClient) in Hacc as [c0 Hc0].
    pose proof (applyOptions_adapter _ _ _ Hc0) as Iad.
    pose proof (applyOptions_fields _ _ _ Hc0) as (_ & Ittl & _).
    unfold NewClient. rewrite Hc0, (proj2 Iad (or_introl Had)), Ittl by done.
    reflexivity.
Qed.

(** X3. The client [NewClient] returns has an adapter, a TTL of at least one
    nanosecond, a list of methods that holds nothing but [GET] and [POST],
    and a key function; no other method is cacheable for it. *)
Theorem NewClient_invariants opts c :
  NewClient opts = inl c ->
  adapter c = true
  /\ 1 <= ttl c
  /\ (exists ms, methods c = Some ms /\ forall m, In m ms -> allowedMethod m)
  /\ (exists fn, generateKey c = Some fn)
  /\ (forall m, cacheableMethod c m = true -> allowedMethod m).
Proof.
  intros Hn. apply NewClient_inv in Hn as (c0 & Ha & Had & Ht & ->).
  pose proof (applyOptions_wellFormed _ _ _ zeroClient_wellFormed Ha)
    as [_ Hm].
  assert (Hms : forall m, In m (default [MethodGet] (methods c0)) ->
                          allowedMethod m).
  { destruct (methods c0) as [ms|] eqn:Hms; cbn.
    - intros m. by apply Hm.
    - intros m [<-|[]]. by left. }
  split; [done|]. split; [done|].
  split; [eexists; split; [reflexivity|done]|]. split; [eauto|].
  intros m Hc. apply cacheableMethod_In in Hc. cbn in Hc. auto.
Qed.

(** X4. What no option sets keeps its default: the only method is [GET],
    the key function is [DefaultGenerateKey], the refresh key is empty and
    no header varies the key; the [Expires] header is written exactly when
    [ClientWithExpiresHeader] is among the options. *)
Theorem NewClient_defaults opts c :
  NewClient opts = inl c ->
  ((forall ms, ~ In (ClientWithMethods ms) opts) ->
   methods c = Some [MethodGet])
  /\ ((forall fn, ~ In (ClientWithGenerateKey fn) opts) ->
      generateKey c = Some DefaultGenerateKey)
  /\ ((forall k, ~ In (ClientWithRefreshKey k) opts) ->
      refreshKey c = ""%string)
  /\ ((forall hs, ~ In (ClientWithVary hs) opts) -> vary c = [])
  /\ (writeExpiresHeader c = true <-> In ClientWithExpiresHeader opts).
Proof.
  intros Hn. apply NewClient_inv in Hn as (c0 & Ha & _ & _ & ->).
  pose proof (applyOptions_fields _ _ _ Ha)
    as (_ & _ & Irk & Ims & Ifn & Ivary & Iex).
  cbn [methods generateKey refreshKey vary writeExpiresHeader].
  split; [|split; [|split; [|split]]].
  - intros Hno. by rewrite Ims.
  - intros Hno. by rewrite Ifn.
  - intros Hno. by rewrite Irk.
  - intros Hno. by rewrite Ivary.
  - rewrite Iex. cbn. intuition congruence.
Qed.

(** X5. Of several options that set the same field the last one decides:
    the TTL, the refresh key, the methods (a nil list giving the default
    [GET], an empty one no method at all) and the vary headers. *)
Theorem NewClient_last_option_wins pre post c :
  (forall d,
     NewClient (pre ++ ClientWithTTL d :: post) = inl c ->
     (forall d', ~ In (ClientWithTTL d') post) -> ttl c = d)
  /\ (forall k,
        NewClient (pre ++ ClientWithRefreshKey k :: post) = inl c ->
        (forall k', ~ In (ClientWithRefreshKey k') post) -> refreshKey c = k)
  /\ (forall ms,
        NewClient (pre ++ ClientWithMethods ms :: post) = inl c ->
        (forall ms', ~ In (ClientWithMethods ms') post) ->
        methods c = Some (default [MethodGet] ms))
  /\ (forall hs,
        NewClient (pre ++ ClientWithVary hs :: post) = inl c ->
        (forall hs', ~ In (ClientWithVary hs') post) -> vary c = hs).
Proof.
  split; [|split; [|split]].
  - intros d Hn Hno. apply NewClient_inv in Hn as (c0 & Ha & _ & _ & ->).
    apply applyOptions_last in Ha as (c1 & c2 & _ & Ho & Hp).
    pose proof (applyOptions_fields _ _ _ Hp) as (_ & Ittl & _).
    cbn in Ho. destruct (d <? 1); [done|]. injection Ho as <-.
    cbn. by rewrite Ittl.
  - intros k Hn Hno. apply NewClient_inv in Hn as (c0 & Ha & _ & _ & ->).
    apply applyOptions_last in Ha as (c1 & c2 & _ & Ho & Hp).
    pose proof (applyOptions_fields _ _ _ Hp) as (_ & _ & Irk & _).
    cbn in Ho. injection Ho as <-. cbn. by rewrite Irk.
  - intros ms Hn Hno. apply NewClient_inv in Hn as (c0 & Ha & _ & _ & ->).
    apply applyOptions_last in Ha as (c1 & c2 & _ & Ho & Hp).
    pose proof (applyOptions_fields _ _ _ Hp) as (_ & _ & _ & Ims & _).
    cbn in Ho. destruct (List.find _ _); [done|]. injection Ho as <-.
    cbn. by rewrite Ims.
  - intros hs Hn Hno. apply NewClient_inv in Hn as (c0 & Ha & _ & _ & ->).
    apply applyOptions_last in Ha as (c1 & c2 & _ & Ho & Hp).
    pose proof (applyOptions_fields _ _ _ Hp) as (_ & _ & _ & _ & _ & Iv & _).
    cbn in Ho. injection Ho as <-. cbn. by rewrite Iv.
Qed.

(** ** The capturing writer *)

Lemma step_transparent (rw : responseWriter.t) s :
  responseWriter.ResponseWriter (step rw s)
  = step (responseWriter.ResponseWriter rw) s.
Proof. by destruct s. Qed.

Lemma steps_transparent steps : forall rw : responseWriter.t,
  responseWriter.ResponseWriter (foldl step rw steps)
  = foldl step (responseWriter.ResponseWriter rw) steps.
Proof.
  induction steps as [|s steps IH]; intros rw; cbn [foldl]; [done|].
  by rewrite IH, step_transparent.
Qed.

Lemma ServeHTTP_transparent next out r :
  responseWriter.ResponseWriter (ServeHTTP next (responseWriter.new out) r)
  = ServeHTTP next out r.
Proof. unfold ServeHTTP. by rewrite steps_transparent. Qed.

(** A handler that leaves its buffers alone after writing them. *)
Lemma steps_lastChunk steps : forall rw : responseWriter.t,
  Forall (fun s => forall b, s <> DoOverwrite b) steps ->
  responseWriter.body (foldl step rw steps)
  = List.last (chunks steps) (responseWriter.body rw).
Proof.
  induction steps as [|s steps IH]; intros rw Hs; cbn [foldl]; [done|].
  apply Forall_cons in Hs as [Hs Hsteps]. rewrite IH by done.
  destruct s as [f|code|b|b]; try done.
  - change (chunks (DoWrite b :: steps)) with (b :: chunks steps).
    by rewrite last_cons.
  - by destruct (Hs b).
Qed.

Lemma overwrite_all (old b : list byte) :
  length b = length old -> responseWriter.overwrite old b = b.
Proof.
  intros Hl. unfold responseWriter.overwrite.
  rewrite drop_ge, app_nil_r by lia. rewrite <- Hl. apply firstn_all.
Qed.

(** X6. After the handler the capturing writer holds the code of the last
    [WriteHeader] call (0 without one) and the slice of the last [Write]
    call: the chunk written then (nothing without a call) if the handler
    leaves its buffers alone, and what the handler has put into the buffer
    since if it writes into it again. The writer it wraps has received
    every call as if the handler had been given it directly. *)
Theorem responseWriter_keeps_last_slice next out r :
  let rw := ServeHTTP next (responseWriter.new out) r in
  responseWriter.statusCode rw = List.last (statusCodes (next r)) 0
  /\ (Forall (fun s => forall b, s <> DoOverwrite b) (next r) ->
      responseWriter.body rw = List.last (chunks (next r)) [])
  /\ (forall steps b b',
        next r = steps ++ [DoWrite b; DoOverwrite b'] ->
        length b' = length b ->
        responseWriter.body rw = b')
  /\ responseWriter.ResponseWriter rw = ServeHTTP next out r.
Proof.
  intros rw. subst rw. split; [|split; [|split]].
  - unfold ServeHTTP. apply steps_lastStatus.
  - intros Hs. unfold ServeHTTP. by rewrite steps_lastChunk.
  - intros steps b b' Hn Hl. unfold ServeHTTP. rewrite Hn, foldl_app.
    cbn. by apply overwrite_all.
  - apply ServeHTTP_transparent.
Qed.

(** ** The state after a run *)

Lemma Memory_Get_found (a : Memory) k b e :
  a !! k = Some (b, e) -> Get k a = ((b, true), a).
Proof. intros Hk. cbn. by rewrite Hk. Qed.

Lemma Memory_Get_absent (a : Memory) k :
  a !! k = None -> Get k a = (([], false), a).
Proof. intros Hk. cbn. by rewrite Hk. Qed.

Section WorldFacts.

Context {A : Type} `{Adapter A}.
Variable canon : string -> string.
Variable fmt : Time -> string.

Lemma forward_world c next key r (w : World A) :
  let rw := ServeHTTP next (responseWriter.new (writer w)) r in
  (forward c next key r w).2
  = mkWorld (storeAfter c key rw (clock w (ticks w)) (store w)) (clock w)
      (S (ticks w)) (responseWriter.ResponseWriter rw)
      (trace w ++ Served r (Some rw) :: stored c key rw (clock w (ticks w))).
Proof.
  intros rw.
  unfold forward, stored, storeAfter, captured, bind, getWriter, putWriter,
    emit, Now, ret, adapterSet.
  cbn. fold rw. destruct (responseWriter.statusCode rw <? 400); cbn.
  - by rewrite <- app_assoc.
  - done.
Qed.

Lemma handle_bypass c next r a clk out :
  cacheableMethod c (Method r) = false ->
  handle canon fmt c next r a clk out
  = mkWorld a clk 0%nat (ServeHTTP next out r) [Served r None].
Proof. intros Hm. unfold handle, Middleware. by rewrite Hm. Qed.

Lemma handle_refresh_world c next r a clk out :
  cacheableMethod c (Method r) = true ->
  is_Some (url.Query (URL (normalized r)) !! refreshKey c) ->
  let r' := refreshed c r in
  let rw := ServeHTTP next (responseWriter.new out) r' in
  handle canon fmt c next r a clk out
  = mkWorld (storeAfter c (hash c r') rw (clk 0%nat) (Release (hash c r') a))
      clk 1%nat (ServeHTTP next out r')
      (AdapterRelease (hash c r') :: Served r' (Some rw)
         :: stored c (hash c r') rw (clk 0%nat)).
Proof.
  intros Hm [vs Hq] r' rw. unfold handle, Middleware. rewrite Hm. cbn [negb].
  fold (normalized r). rewrite Hq. fold (refreshed c r). fold r'.
  unfold bind at 1, adapterRelease. rewrite forward_world.
  cbn [trace writer clock ticks store app].
  by rewrite ServeHTTP_transparent.
Qed.

Lemma handle_absent_world c next r a clk out b a' :
  cacheableMethod c (Method r) = true ->
  url.Query (URL (normalized r)) !! refreshKey c = None ->
  Get (hash c (normalized r)) a = ((b, false), a') ->
  let r' := normalized r in
  let rw := ServeHTTP next (responseWriter.new out) r' in
  handle canon fmt c next r a clk out
  = mkWorld (storeAfter c (hash c r') rw (clk 0%nat) a')
      clk 1%nat (ServeHTTP next out r')
      (AdapterGet (hash c r') :: Served r' (Some rw)
         :: stored c (hash c r') rw (clk 0%nat)).
Proof.
  intros Hm Hq Hg r' rw. unfold handle, Middleware. rewrite Hm. cbn [negb].
  fold (normalized r). rewrite Hq.
  unfold bind at 1, adapterGet. cbn [store]. rewrite Hg. cbn [fst snd].
  rewrite forward_world. cbn [trace writer clock ticks store app].
  by rewrite ServeHTTP_transparent.
Qed.

Lemma handle_stale_world c next r a clk out b a' :
  cacheableMethod c (Method r) = true ->
  url.Query (URL (normalized r)) !! refreshKey c = None ->
  Get (hash c (normalized r)) a = ((b, true), a') ->
  time.After (Expiration (BytesToResponse b)) (clk 0%nat) = false ->
  let r' := normalized r in
  let rw := ServeHTTP next (responseWriter.new out) r' in
  handle canon fmt c next r a clk out
  = mkWorld (storeAfter c (hash c r') rw (clk 1%nat) (Release (hash c r') a'))
      clk 2%nat (ServeHTTP next out r')
      (AdapterGet (hash c r') :: AdapterRelease (hash c r')
         :: Served r' (Some rw) :: stored c (hash c r') rw (clk 1%nat)).
Proof.
  intros Hm Hq Hg Haf r' rw. unfold handle, Middleware. rewrite Hm. cbn [negb].
  fold (normalized r). rewrite Hq.
  unfold bind at 1, adapterGet. cbn [store]. rewrite Hg. cbn [fst snd].
  unfold bind at 1, Now. cbn [clock ticks]. rewrite Haf.
  unfold bind at 1, adapterRelease. rewrite forward_world.
  cbn [trace writer clock ticks store app].
  by rewrite ServeHTTP_transparent.
Qed.

Lemma handle_hit_world c next r a clk out b a' :
  cacheableMethod c (Method r) = true ->
  url.Query (URL (normalized r)) !! refreshKey c = None ->
  Get (hash c (normalized r)) a = ((b, true), a') ->
  time.After (Expiration (BytesToResponse b)) (clk 0%nat) = true ->
  let k := hash c (normalized r) in
  let entry := touch (BytesToResponse b) (clk 1%nat) in
  handle canon fmt c next r a clk out
  = mkWorld (Set_ k (Bytes entry) (Expiration entry) a') clk 2%nat
      (writeCached canon fmt c entry out)
      [AdapterGet k; AdapterSet k (Bytes entry) (Expiration entry)].
Proof.
  intros Hm Hq Hg Haf k entry. unfold handle, Middleware. rewrite Hm. cbn [negb].
  fold (normalized r). rewrite Hq.
  unfold bind at 1, adapterGet. cbn [store]. rewrite Hg. cbn [fst snd].
  unfold bind at 1, Now. cbn [clock ticks]. rewrite Haf.
  reflexivity.
Qed.

End WorldFacts.

(** ** Normal forms of queries *)

Lemma sortStrings_idem vs : sortStrings (sortStrings vs) = sortStrings vs.
Proof. apply sortStrings_proper, sortStrings_perm. Qed.

(** A query [Encode] wrote from sorted values is in normal form. *)
Lemma sortURLParams_Encode p f g (m : url.Values) :
  nonemptyValues m ->
  sortURLParams (url.mkURL p f (url.Encode (sortStrings <$> m)) g)
  = url.mkURL p f (url.Encode (sortStrings <$> m)) g.
Proof.
  intros Hm. unfold sortURLParams, url.Query.
  cbn [url.Path url.ForceQuery url.Fragment url.RawQuery].
  rewrite ParseQuery_Encode by (by apply sorted_nonempty).
  do 2 f_equal. rewrite <- map_fmap_compose.
  apply map_fmap_ext. intros k vs _. apply sortStrings_idem.
Qed.

Lemma normalized_normal r :
  sortURLParams (URL (normalized r)) = URL (normalized r).
Proof.
  unfold normalized, withURL. cbn [URL]. unfold sortURLParams at 2 3.
  apply sortURLParams_Encode, ParseQuery_nonempty.
Qed.

Lemma refreshed_normal c r :
  sortURLParams (URL (refreshed c r)) = URL (refreshed c r).
Proof.
  unfold refreshed, withRawQuery, withURL. cbn [URL].
  rewrite Query_normalized, <- fmap_delete.
  apply sortURLParams_Encode.
  apply map_Forall_delete, ParseQuery_nonempty.
Qed.

Lemma flat_map_perm {X Y} (f : X -> list Y) l1 l2 :
  l1 ≡ₚ l2 -> flat_map f l1 ≡ₚ flat_map f l2.
Proof.
  induction 1 as [|x l1 l2 _ IH|x y l|l1 l2 l3 _ IH1 _ IH2]; cbn.
  - done.
  - by rewrite IH.
  - rewrite !app_assoc. f_equiv. apply Permutation_app_comm.
  - by rewrite IH1.
Qed.

Lemma expand_add (m : url.Values) kv :
  flat_map expand (map_to_list (url.add m kv))
  ≡ₚ flat_map expand (map_to_list m) ++ [kv].
Proof.
  destruct kv as [k v]. unfold url.add. cbn [fst snd].
  destruct (m !! k) as [vs|] eqn:Hk; cbn [default].
  - rewrite <- (insert_delete_eq m k (vs ++ [v])).
    rewrite <- (insert_delete_id m k vs) at 2 by done.
    rewrite !(flat_map_perm _ _ _
                (map_to_list_insert _ _ _ (lookup_delete_eq m k))).
    cbn [flat_map]. unfold expand at 1 3. cbn [fst snd].
    rewrite fmap_app. cbn. rewrite <- !app_assoc. f_equiv.
    apply Permutation_app_comm.
  - rewrite (flat_map_perm _ _ _ (map_to_list_insert _ _ _ Hk)).
    cbn. apply Permutation_cons_append.
Qed.

Lemma expand_foldl_add l : forall m : url.Values,
  flat_map expand (map_to_list (foldl url.add m l))
  ≡ₚ flat_map expand (map_to_list m) ++ l.
Proof.
  induction l as [|kv l IH]; intros m; cbn [foldl].
  - by rewrite app_nil_r.
  - rewrite IH, expand_add, <- app_assoc. done.
Qed.

Lemma expand_sorted (m : url.Values) :
  flat_map expand (map_to_list (sortStrings <$> m))
  ≡ₚ flat_map expand (map_to_list m).
Proof.
  rewrite map_to_list_fmap.
  induction (map_to_list m) as [|[k vs] l IH]; [done|].
  cbn [fmap list_fmap flat_map]. rewrite IH. f_equiv.
  unfold expand. cbn [fst snd prod_map]. f_equiv. apply sortStrings_perm.
Qed.

(** X7. Normalizing a URL that is normalized changes nothing. *)
Theorem sortURLParams_idempotent u :
  sortURLParams (sortURLParams u) = sortURLParams u.
Proof.
  unfold sortURLParams at 2 3. apply sortURLParams_Encode, ParseQuery_nonempty.
Qed.

(** X8. The normalized query holds the key-value pairs of the query that
    parse, each as often as it occurred, and nothing else: every piece of
    it between ampersands parses. *)
Theorem sortURLParams_keeps_pairs u :
  url.pairs (url.RawQuery (sortURLParams u)) ≡ₚ url.pairs (url.RawQuery u)
  /\ length (url.segments "&" (url.RawQuery (sortURLParams u)))
     = length (url.pairs (url.RawQuery (sortURLParams u))).
Proof.
  split.
  - rewrite pairs_sortURLParams. fold expand.
    rewrite (flat_map_perm _ _ _ (sortedEntries_perm _)), expand_sorted.
    unfold url.Query, url.ParseQuery. rewrite expand_foldl_add.
    by rewrite map_to_list_empty.
  - rewrite pairs_sortURLParams. unfold sortURLParams. cbn [url.RawQuery].
    unfold url.Encode.
    generalize (flat_map (fun e => (fun x => (e.1, x)) <$> e.2)
                  (url.sortedEntries (sortStrings <$> url.Query u))).
    intros [|kv l]; [done|].
    by rewrite foldl_writePair_start, segments_pieces, length_cons,
      length_fmap.
Qed.

(** ** Keys *)

Lemma fnv_Write_app h a b :
  fnv.Write h (a ++ b) = fnv.Write (fnv.Write h a) b.
Proof. unfold fnv.Write. apply fold_left_app. Qed.

Lemma fnv_Write_range h data : is_uint64 h -> is_uint64 (fnv.Write h data).
Proof.
  unfold fnv.Write. revert h. induction data as [|x data IH]; intros h Hh; cbn.
  - done.
  - apply IH. unfold is_uint64, to_uint64. apply Z.mod_pos_bound. lia.
Qed.

Lemma bytes_of_string_app s t :
  bytes_of_string (s ++ t) = bytes_of_string s ++ bytes_of_string t.
Proof.
  unfold bytes_of_string, list_byte_of_string.
  induction s as [|c s IH]; [done|].
  rewrite append_cons. cbn [list_ascii_of_string map]. by rewrite IH.
Qed.

Lemma bytes_of_string_nil s : String.eqb s "" = true -> bytes_of_string s = [].
Proof. intros He. apply String.eqb_eq in He. by subst. Qed.

Lemma hash_fold r l : forall h,
  fold_left
    (fun h header =>
       let value := String.concat "" (HeaderValues r header) in
       if String.eqb value "" then h
       else fnv.Write h (bytes_of_string value)) l h
  = fnv.Write h
      (flat_map (fun header =>
                   bytes_of_string (String.concat "" (HeaderValues r header)))
         l).
Proof.
  induction l as [|x l IH]; intros h; cbn [fold_left flat_map]; [done|].
  rewrite IH, fnv_Write_app. cbv zeta.
  destruct (String.eqb _ "") eqn:He; [|done].
  by rewrite (bytes_of_string_nil _ He).
Qed.

Lemma hash_concat c r :
  hash c r = fnv.Write fnv.New64a (callGenerateKey c r ++ varyBytes c r).
Proof. unfold hash, varyBytes. by rewrite hash_fold, fnv_Write_app. Qed.

Lemma varyBytes_ext c r1 r2 :
  (forall header, In header (vary c) ->
                  HeaderValues r1 header = HeaderValues r2 header) ->
  varyBytes c r1 = varyBytes c r2.
Proof.
  unfold varyBytes. induction (vary c) as [|x l IH]; intros Hh; [done|].
  cbn [flat_map]. rewrite Hh by (by left). f_equal.
  apply IH. intros header Hin. apply Hh. by right.
Qed.

(** X9. The key is the FNV-1a hash of one byte string: what the key
    function returns, followed by the values of the vary headers with
    nothing between them. It is a [uint64]. *)
Theorem hash_of_concatenation c r :
  hash c r = fnv.Write fnv.New64a (callGenerateKey c r ++ varyBytes c r)
  /\ is_uint64 (hash c r).
Proof.
  split; [apply hash_concat|]. rewrite hash_concat.
  apply fnv_Write_range. by vm_compute.
Qed.

(** X10. The default key does not hold the method, and holds the body of a
    [POST] only: two requests with the same URL and the same values of the
    vary headers, neither of them a [POST] with a body that is not empty or
    cannot be read, have the same key. A [POST] whose body cannot be read
    has the key of the vary headers alone, whatever its URL. *)
Theorem default_key_ignores_method c :
  generateKey c = Some DefaultGenerateKey ->
  (forall r1 r2,
     URL r1 = URL r2 ->
     (forall header, In header (vary c) ->
                     HeaderValues r1 header = HeaderValues r2 header) ->
     (Method r1 = MethodPost ->
      Body r1 = None \/ Body r1 = Some (Reads [])) ->
     (Method r2 = MethodPost ->
      Body r2 = None \/ Body r2 = Some (Reads [])) ->
     hash c r1 = hash c r2)
  /\ (forall r,
        Method r = MethodPost -> Body r = Some Fails ->
        hash c r = fnv.Write fnv.New64a (varyBytes c r)).
Proof.
  intros Hg. split.
  - intros r1 r2 Hu Hh H1 H2.
    assert (Hkey : forall r,
      (Method r = MethodPost ->
       Body r = None \/ Body r = Some (Reads [])) ->
      DefaultGenerateKey r = bytes_of_string (url.String (URL r))).
    { intros r Hr. unfold DefaultGenerateKey.
      destruct (String.eqb_spec (Method r) MethodPost) as [Hp|].
      - destruct (Hr Hp) as [-> | ->]; [done|]. by rewrite app_nil_r.
      - by destruct (Body r). }
    rewrite !hash_concat, (varyBytes_ext c r1 r2) by done.
    unfold callGenerateKey. by rewrite Hg, !Hkey, Hu.
  - intros r Hm Hb. rewrite hash_concat. unfold callGenerateKey.
    rewrite Hg. unfold DefaultGenerateKey. rewrite Hb, Hm. done.
Qed.

(** ** Runs *)

Section RunTheorems.

Context {A : Type} `{Adapter A}.
Variable canon : string -> string.
Variable fmt : Time -> string.

(** X11. A client [NewClient] returned passes a request whose method is
    neither [GET] nor [POST] to the handler as it came, with the writer of
    the server: the adapter is not called, the clock is not read. *)
Theorem other_methods_bypass opts c next r (a : A) clk out :
  NewClient opts = inl c ->
  Method r <> MethodGet -> Method r <> MethodPost ->
  handle canon fmt c next r a clk out
  = mkWorld a clk 0%nat (ServeHTTP next out r) [Served r None].
Proof.
  intros Hn Hg Hp. apply handle_bypass.
  destruct (cacheableMethod c (Method r)) eqn:Hc; [|done].
  apply NewClient_inv in Hn as (c0 & Ha & _ & _ & ->).
  pose proof (applyOptions_wellFormed _ _ _ zeroClient_wellFormed Ha) as [_ Hw].
  apply cacheableMethod_In in Hc. cbn in Hc.
  destruct (methods c0) as [ms|] eqn:Hms; cbn in Hc.
  - destruct (Hw ms (Method r) eq_refl Hc); done.
  - destruct Hc as [Hc|[]]. by symmetry in Hc.
Qed.

(** X12. Whenever the handler is called, directly or through the capturing
    writer, the writer of the server ends as if the handler had been called
    on it with the request it was given. *)
Theorem handler_output_reaches_client c next r (a : A) clk out
    pre r' cap post :
  trace (handle canon fmt c next r a clk out) = pre ++ Served r' cap :: post ->
  writer (handle canon fmt c next r a clk out) = ServeHTTP next out r'.
Proof.
  destruct (cacheableMethod c (Method r)) eqn:Hm.
  - destruct (url.Query (URL (normalized r)) !! refreshKey c) as [vs|] eqn:Hq.
    + rewrite handle_refresh_world by eauto. cbn [trace writer]. intros Ht.
      apply (served_unique [_] _ pre post) in Ht
        as (_ & [= -> _] & _); auto using stored_not_served.
    + destruct (Get (hash c (normalized r)) a) as [[b [|]] a'] eqn:Hg.
      * destruct (time.After (Expiration (BytesToResponse b)) (clk 0%nat))
          eqn:Haf.
        -- rewrite (handle_hit_world canon fmt c next r a clk out b a') by done.
           cbn [trace]. intros Ht. exfalso.
           destruct pre as [|? [|? [|? ?]]]; cbn in Ht; discriminate.
        -- rewrite (handle_stale_world canon fmt c next r a clk out b a')
             by done.
           cbn [trace writer]. intros Ht.
           apply (served_unique [_; _] _ pre post) in Ht
             as (_ & [= -> _] & _); auto using stored_not_served.
      * rewrite (handle_absent_world canon fmt c next r a clk out b a') by done.
        cbn [trace writer]. intros Ht.
        apply (served_unique [_] _ pre post) in Ht
          as (_ & [= -> _] & _); auto using stored_not_served.
  - rewrite handle_bypass by done. cbn [trace writer]. intros Ht.
    apply (served_unique [] [] pre post) in Ht as (_ & [= -> _] & _); auto.
Qed.

(** X13. For a cacheable method the request the handler is given is the
    normalized request, or the one without the refresh parameter; its query
    is in normal form, and method, headers, body, path and fragment are
    those of the request that came in. *)
Theorem handler_sees_normalized_request c next r (a : A) clk out
    pre r' cap post :
  cacheableMethod c (Method r) = true ->
  trace (handle canon fmt c next r a clk out) = pre ++ Served r' cap :: post ->
  (r' = normalized r \/ r' = refreshed c r)
  /\ sortURLParams (URL r') = URL r'
  /\ Method r' = Method r /\ HeaderValues r' = HeaderValues r
  /\ Body r' = Body r
  /\ url.Path (URL r') = url.Path (URL r)
  /\ url.Fragment (URL r') = url.Fragment (URL r).
Proof.
  intros Hm Ht.
  assert (Hr : r' = normalized r \/ r' = refreshed c r).
  { pose proof (handle_paths canon fmt c next r a clk out Hm) as HP.
    rewrite Ht in HP.
    inversion HP as [rw0 Hq Hrw Heq|b a' rw0 Hq Hg Hrw Heq
      |b a' rw0 Hq Hg Haf Hrw Heq|b a' Hq Hg Haf Heq]; clear HP.
    - apply (served_unique [_] _ pre post) in Heq
        as (_ & [= -> _] & _); auto using stored_not_served.
    - apply (served_unique [_] _ pre post) in Heq
        as (_ & [= -> _] & _); auto using stored_not_served.
    - apply (served_unique [_; _] _ pre post) in Heq
        as (_ & [= -> _] & _); auto using stored_not_served.
    - exfalso. destruct pre as [|? [|? [|? ?]]]; cbn in Heq; discriminate. }
  split; [done|].
  destruct Hr as [-> | ->].
  - split; [apply normalized_normal|done].
  - split; [apply refreshed_normal|done].
Qed.

(** X14. On the lookup path [Release] is called exactly when the entry was
    found and is stale; a key that is not found is not released. No other
    key is released. *)
Theorem release_iff_found_stale c next r (a : A) clk out b ok a' :
  cacheableMethod c (Method r) = true ->
  url.Query (URL r) !! refreshKey c = None ->
  Get (hash c (normalized r)) a = ((b, ok), a') ->
  let t := trace (handle canon fmt c next r a clk out) in
  (In (AdapterRelease (hash c (normalized r))) t
   <-> ok = true
       /\ time.After (Expiration (BytesToResponse b)) (clk 0%nat) = false)
  /\ forall key, In (AdapterRelease key) t -> key = hash c (normalized r).
Proof.
  intros Hm Hq0 Hg t.
  assert (Hq : url.Query (URL (normalized r)) !! refreshKey c = None)
    by (by rewrite Query_normalized, lookup_fmap, Hq0).
  assert (Hstored : forall k rw now key,
            ~ In (AdapterRelease key) (stored c k rw now)).
  { intros k rw now key. unfold stored.
    destruct (_ <? 400); cbn; [intros [|[]]; done|tauto]. }
  subst t. destruct ok.
  - destruct (time.After (Expiration (BytesToResponse b)) (clk 0%nat)) eqn:Haf.
    + rewrite (handle_hit_world canon fmt c next r a clk out b a') by done.
      cbn [trace]. split.
      * split; [intros [|[|[]]]; done|intros [_ ?]; done].
      * intros key [|[|[]]]; done.
    + rewrite (handle_stale_world canon fmt c next r a clk out b a') by done.
      cbn [trace]. split.
      * split; [done|]. intros _. right. by left.
      * intros key [|[[= <-]|[|Hin]]]; try done. by apply Hstored in Hin.
  - rewrite (handle_absent_world canon fmt c next r a clk out b a') by done.
    cbn [trace]. split.
    + split; [|intros [? _]; done].
      intros [|[|Hin]]; try done. by apply Hstored in Hin.
    + intros key [|[|Hin]]; try done. by apply Hstored in Hin.
Qed.

(** X15. After a refresh the store is the one the release left, with the
    new entry set when the status is below 400: a refresh whose handler
    answers 400 or more leaves the key released. *)
Theorem refresh_replaces_or_evicts c next r (a : A) clk out :
  cacheableMethod c (Method r) = true ->
  is_Some (url.Query (URL r) !! refreshKey c) ->
  let r' := refreshed c r in
  let rw := ServeHTTP next (responseWriter.new out) r' in
  let w := handle canon fmt c next r a clk out in
  (responseWriter.statusCode rw < 400 ->
   store w = Set_ (hash c r') (Bytes (captured c rw (clk 0%nat)))
               (time.Add (clk 0%nat) (ttl c)) (Release (hash c r') a))
  /\ (400 <= responseWriter.statusCode rw -> store w = Release (hash c r') a).
Proof.
  intros Hm [vs Hq0] r' rw w.
  assert (Hq : is_Some (url.Query (URL (normalized r)) !! refreshKey c)).
  { rewrite Query_normalized, lookup_fmap, Hq0. by eexists. }
  subst w. rewrite handle_refresh_world by done. cbn [store].
  unfold storeAfter. fold r' rw.
  destruct (Z.ltb_spec (responseWriter.statusCode rw) 400); split; (done || lia).
Qed.

End RunTheorems.

(** X16. With a store that keeps what is set: after a miss whose response
    is stored, the same request, before the entry expires, is answered from
    the cache with the captured body, without the handler; the store then
    holds the entry with its last access and frequency updated. *)
Theorem miss_then_hit canon fmt c next next' r (a : Memory) clk clk' out out' :
  cacheableMethod c (Method r) = true ->
  url.Query (URL r) !! refreshKey c = None ->
  a !! hash c (normalized r) = None ->
  let rw := ServeHTTP next (responseWriter.new out) (normalized r) in
  let entry := captured c rw (clk 0%nat) in
  responseWriter.statusCode rw < 400 ->
  validResponse entry -> withinLimits entry ->
  time.later (Expiration entry) (clk' 0%nat) ->
  let w1 := handle canon fmt c next r a clk out in
  let w2 := handle canon fmt c next' r (store w1) clk' out' in
  handlerCalled (trace w2) = false
  /\ calls (writer w2) = calls out' ++ [CallWrite (responseWriter.body rw)]
  /\ store w2 !! hash c (normalized r)
     = Some (Bytes (touch entry (clk' 1%nat)), Expiration entry).
Proof.
  intros Hm Hq0 Ha rw entry Hs Hv Hl Hlater w1 w2.
  assert (Hq : url.Query (URL (normalized r)) !! refreshKey c = None)
    by (by rewrite Query_normalized, lookup_fmap, Hq0).
  assert (H1 : store w1
               = <[hash c (normalized r) := (Bytes entry, Expiration entry)]> a).
  { subst w1.
    rewrite (handle_absent_world canon fmt c next r a clk out [] a)
      by (done || by apply Memory_Get_absent).
    cbn [store]. unfold storeAfter. fold rw.
    destruct (Z.ltb_spec (responseWriter.statusCode rw) 400); [done|lia]. }
  assert (Hd : BytesToResponse (Bytes entry) = entry).
  { unfold BytesToResponse, Bytes. by rewrite Decode_Encode. }
  subst w2.
  rewrite (handle_hit_world canon fmt c next' r (store w1) clk' out'
             (Bytes entry) (store w1)).
  - cbn [trace writer store]. rewrite Hd. split; [done|split].
    + by rewrite writeCached_calls.
    + cbn. by rewrite lookup_insert_eq.
  - done.
  - done.
  - apply (Memory_Get_found _ _ _ (Expiration entry)).
    rewrite H1. apply lookup_insert_eq.
  - rewrite Hd. by apply After_later.
Qed.

(** X17. With a store that keeps what is set: a miss whose handler answers
    400 or more leaves the store as it was, and the same request asked
    again is a miss again: the handler is called. *)
Theorem error_is_not_cached canon fmt c next next' r (a : Memory)
    clk clk' out out' :
  cacheableMethod c (Method r) = true ->
  url.Query (URL r) !! refreshKey c = None ->
  a !! hash c (normalized r) = None ->
  400 <= responseWriter.statusCode
           (ServeHTTP next (responseWriter.new out) (normalized r)) ->
  let w1 := handle canon fmt c next r a clk out in
  let w2 := handle canon fmt c next' r (store w1) clk' out' in
  store w1 = a
  /\ trace w2
     = AdapterGet (hash c (normalized r))
         :: Served (normalized r)
              (Some (ServeHTTP next' (responseWriter.new out') (normalized r)))
         :: stored c (hash c (normalized r))
              (ServeHTTP next' (responseWriter.new out') (normalized r))
              (clk' 0%nat).
Proof.
  intros Hm Hq0 Ha Hs w1 w2.
  assert (Hq : url.Query (URL (normalized r)) !! refreshKey c = None)
    by (by rewrite Query_normalized, lookup_fmap, Hq0).
  assert (H1 : store w1 = a).
  { subst w1.
    rewrite (handle_absent_world canon fmt c next r a clk out [] a)
      by (done || by apply Memory_Get_absent).
    cbn [store]. unfold storeAfter.
    destruct (Z.ltb_spec
                (responseWriter.statusCode
                   (ServeHTTP next (responseWriter.new out) (normalized r)))
                400); [lia|done]. }
  split; [done|]. subst w2. rewrite H1.
  by rewrite (handle_absent_world canon fmt c next' r a clk' out' [] a)
    by (done || by apply Memory_Get_absent).
Qed.

(** X18. With a store that keeps what is set, a request leaves every key
    but its own as it was. *)
Theorem other_keys_untouched canon fmt c next r (a : Memory) clk out key :
  key <> hash c (normalized r) -> key <> hash c (refreshed c r) ->
  store (handle canon fmt c next r a clk out) !! key = a !! key.
Proof.
  intros Hn Hr.
  assert (Hafter : forall k rw now (s : Memory),
            key <> k -> storeAfter c k rw now s !! key = s !! key).
  { intros k rw now s Hk. unfold storeAfter.
    destruct (_ <? 400); [|done]. cbn. by rewrite lookup_insert_ne. }
  destruct (cacheableMethod c (Method r)) eqn:Hm.
  - destruct (url.Query (URL (normalized r)) !! refreshKey c) as [vs|] eqn:Hq.
    + rewrite handle_refresh_world by eauto. cbn [store].
      rewrite Hafter by done. cbn. by rewrite lookup_delete_ne.
    + destruct (a !! hash c (normalized r)) as [[b e]|] eqn:Ha.
      * pose proof (Memory_Get_found _ _ _ _ Ha) as Hg.
        destruct (time.After (Expiration (BytesToResponse b)) (clk 0%nat))
          eqn:Haf.
        -- rewrite (handle_hit_world canon fmt c next r a clk out b a) by done.
           cbn. by rewrite lookup_insert_ne.
        -- rewrite (handle_stale_world canon fmt c next r a clk out b a)
             by done.
           cbn [store]. rewrite Hafter by done. cbn.
           by rewrite lookup_delete_ne.
      * pose proof (Memory_Get_absent _ _ Ha) as Hg.
        rewrite (handle_absent_world canon fmt c next r a clk out [] a) by done.
        cbn [store]. by rewrite Hafter.
  - by rewrite handle_bypass.
Qed.

(** *** The headers of a hit *)

Section HitHeaders.

Variable canon : string -> string.
Variable fmt : Time -> string.

Lemma headerSet_header k v (w : Recorder) :
  header (headerSet canon k v w) = <[canon k := [v]]> (header w).
Proof. reflexivity. Qed.

Lemma foldl_headerSet_other j (l : list (string * list string)) :
  forall w : Recorder,
  Forall (fun kv => canon kv.1 <> j) l ->
  header (foldl (fun w kv => headerSet canon kv.1 (String.concat "," kv.2) w)
            w l) !! j
  = header w !! j.
Proof.
  induction l as [|kv l IH]; intros w Hl; cbn [foldl]; [done|].
  apply Forall_cons in Hl as [Hkv Hl].
  rewrite IH, headerSet_header by done. by rewrite lookup_insert_ne.
Qed.

Lemma foldl_headerSet_in k vs (l : list (string * list string)) :
  forall w : Recorder,
  (k, vs) ∈ l ->
  Forall (fun kv => canon kv.1 = canon k -> kv = (k, vs)) l ->
  header (foldl (fun w kv => headerSet canon kv.1 (String.concat "," kv.2) w)
            w l) !! canon k
  = Some [String.concat "," vs].
Proof.
  induction l as [|kv l IH]; intros w Hin Hl; [by apply elem_of_nil in Hin|].
  cbn [foldl]. apply Forall_cons in Hl as [Hkv Hl].
  destruct (decide ((k, vs) ∈ l)) as [Hin'|Hnot].
  - by apply IH.
  - apply elem_of_cons in Hin as [<-|]; [|done]. cbn [fst snd].
    rewrite foldl_headerSet_other, headerSet_header.
    + apply lookup_insert_eq.
    + apply Forall_forall. intros kv' Hkv' He.
      rewrite Forall_forall in Hl. rewrite (Hl kv' Hkv' He) in Hkv'. done.
Qed.

(** X19. A response served from the cache carries [Vary] with the names of
    the vary headers joined by commas when there are any, [Expires] with the
    expiration of the entry when the client is set to write it, and every
    cached header with its values joined by commas into one (for header
    names that stay apart in canonical form). *)
Theorem hit_headers {A : Type} `{Adapter A} c next r (a : A) clk out b a' :
  cacheableMethod c (Method r) = true ->
  url.Query (URL r) !! refreshKey c = None ->
  Get (hash c (normalized r)) a = ((b, true), a') ->
  time.After (Expiration (BytesToResponse b)) (clk 0%nat) = true ->
  let entry := BytesToResponse b in
  let h := header (writer (handle canon fmt c next r a clk out)) in
  (String.concat "," (vary c) <> ""%string ->
   h !! canon "Vary" = Some [String.concat "," (vary c)])
  /\ (writeExpiresHeader c = true -> canon "Expires" <> canon "Vary" ->
      h !! canon "Expires" = Some [fmt (Expiration entry)])
  /\ (forall hs k vs,
        Header entry = Some hs -> hs !! k = Some vs ->
        (forall k', is_Some (hs !! k') -> canon k' = canon k -> k' = k) ->
        canon k <> canon "Expires" -> canon k <> canon "Vary" ->
        h !! canon k = Some [String.concat "," vs]).
Proof.
  intros Hm Hq0 Hg Haf entry h.
  assert (Hq : url.Query (URL (normalized r)) !! refreshKey c = None)
    by (by rewrite Query_normalized, lookup_fmap, Hq0).
  subst h. rewrite (handle_hit_writer canon fmt c next r a clk out b a') by done.
  unfold writeCached. cbn [Header Expiration Value touch].
  change (header (Write ?b ?w)) with (header w). fold entry.
  set (w1 := foldl _ out _).
  split; [|split].
  - intros Hv. apply String.eqb_neq in Hv. rewrite Hv.
    rewrite headerSet_header. apply lookup_insert_eq.
  - intros He Hne. rewrite He.
    destruct (String.eqb (String.concat "," (vary c)) "");
      rewrite ?headerSet_header, ?lookup_insert_ne by done;
      apply lookup_insert_eq.
  - intros hs k vs Hh Hk Hinj Hne1 Hne2.
    assert (Hw1 : header w1 !! canon k = Some [String.concat "," vs]).
    { subst w1. rewrite Hh. cbn [default]. apply foldl_headerSet_in.
      - by apply elem_of_map_to_list.
      - apply Forall_forall. intros [k' vs'] Hin He.
        apply elem_of_map_to_list in Hin. cbn in He.
        assert (k' = k) as -> by (apply Hinj; [by eexists|done]).
        change (hs !! k = Some vs') in Hin. rewrite Hk in Hin.
        by injection Hin as <-. }
    destruct (writeExpiresHeader c),
      (String.eqb (String.concat "," (vary c)) "");
      rewrite ?headerSet_header, ?lookup_insert_ne by done; done.
Qed.

End HitHeaders.

(** ** Codec and time *)

(** X20. The encoder writes the entries of the header map in the order the
    map is iterated in, which Go does not fix; the bytes decode to the same
    map whatever that order is. *)
Theorem header_order_irrelevant (m : http.Header) kvs rest :
  kvs ≡ₚ map_to_list m ->
  len kvs <= max_int64 -> Forall entryFits kvs ->
  gob.decMap (gob.encMap kvs ++ rest) None = (Some m, Some rest).
Proof.
  intros Hp Hl Hf. rewrite encMap_decode by done. cbn [default].
  rewrite foldl_store_entry.
  - rewrite (right_id_L ∅ (∪)),
      (list_to_map_proper _ (map_to_list m)), list_to_map_to_list; [done| |done].
    rewrite Hp. apply NoDup_fst_map_to_list.
  - rewrite Hp. apply NoDup_fst_map_to_list.
Qed.

Lemma Decode_Encode_app r rest :
  validResponse r -> withinLimits r ->
  gob.Decode (gob.Encode r ++ rest) zeroResponse = (r, true).
Proof.
  intros Hv Hl. pose proof Hl as [Hlen _].
  unfold gob.Decode, gob.Encode.
  destruct (Z.leb_spec gob.tooBig (len (gob.encodeValue r))); [lia|].
  rewrite <- !app_assoc, stripPrefix_app, message_recv by done.
  unfold gob.encodeValue at 1.
  rewrite encodeInt_decode
    by (unfold is_int64, min_int64, max_int64, gob.idResponse,
          gob.firstUserId; lia).
  rewrite Z.eqb_refl.
  rewrite <- (app_nil_r (gob.encodeStruct _ _)).
  rewrite (decodeStruct_encodeStruct _ (setters r));
    [by rewrite setters_zero|by apply fields_ok|apply fields_increasing|lia
    |apply fields_length].
Qed.

(** X21. Decoding reads one value: the bytes that follow the encoding of an
    entry do not change what is decoded. *)
Theorem decode_ignores_trailing_bytes e rest :
  validResponse e -> withinLimits e ->
  BytesToResponse (Bytes e ++ rest) = e.
Proof.
  intros Hv Hl. unfold BytesToResponse, Bytes.
  by rewrite Decode_Encode_app.
Qed.

Lemma later_nanos t u :
  0 <= time.nsec t < 10 ^ 9 -> 0 <= time.nsec u < 10 ^ 9 ->
  time.later t u <-> time.nanos u < time.nanos t.
Proof.
  unfold time.later, time.nanos. intros Ht Hu. split; [nia|]. intros Hn. nia.
Qed.

(** X22. The entry built at [now] is fresh at [t] exactly when [t] is
    earlier than [now] plus the TTL, in nanoseconds. *)
Theorem entry_fresh_for_ttl c rw now t :
  is_int64 (ttl c) ->
  0 <= time.nsec now < 10 ^ 9 -> - 2 ^ 62 <= time.sec now <= 2 ^ 62 ->
  0 <= time.nsec t < 10 ^ 9 ->
  time.After (Expiration (captured c rw now)) t = true
  <-> time.nanos t < time.nanos now + ttl c.
Proof.
  intros Hd Hn Hs Ht. cbn [captured Expiration].
  destruct (Add_nanos now (ttl c) Hn Hd Hs) as [Ha Hr].
  by rewrite After_later, later_nanos, Ha.
Qed.

(** ** Keys as strings *)

Lemma digit_spec i :
  0 <= i < 36 ->
  digitValue (strconv.digit i) = i /\ isDigit36 (strconv.digit i) = true.
Proof.
  intros Hi. assert (Hn : (Z.to_nat i < 36)%nat) by lia.
  rewrite <- (Z2Nat.id i) at 2 by lia.
  unfold strconv.digit. generalize dependent (Z.to_nat i). clear.
  intros n Hn.
  do 36 (destruct n as [|n]; [by vm_compute|]). lia.
Qed.

Lemma numeral36_acc l acc :
  fold_left (fun acc c => acc * 36 + digitValue c) l acc
  = acc * 36 ^ len l + fold_left (fun acc c => acc * 36 + digitValue c) l 0.
Proof.
  revert acc. induction l as [|c l IH]; intros acc; cbn [fold_left].
  - unfold len. cbn. lia.
  - rewrite IH, (IH (0 * 36 + digitValue c)), len_cons.
    rewrite Z.pow_add_r by (pose proof (len_nonneg l); lia). lia.
Qed.

Lemma numeral36_cons c s :
  numeral36 (String c s)
  = digitValue c * 36 ^ Z.of_nat (String.length s) + numeral36 s.
Proof.
  unfold numeral36. cbn [list_ascii_of_string fold_left].
  rewrite numeral36_acc. unfold len.
  replace (length (list_ascii_of_string s)) with (String.length s); [lia|].
  induction s as [|c' s IH]; cbn; [done|]. by rewrite IH.
Qed.

Lemma formatBits_numeral free : forall u a,
  0 <= u < 36 ^ Z.of_nat free -> (0 < free)%nat ->
  numeral36 (strconv.formatBits free u 36 a)
  = u * 36 ^ Z.of_nat (String.length a) + numeral36 a.
Proof.
  induction free as [|free IH]; intros u a Hu Hf; [lia|].
  cbn [strconv.formatBits]. destruct (Z.leb_spec 36 u) as [Hb|Hb].
  - assert (Hfree : (0 < free)%nat).
    { destruct free; [|lia]. cbn in Hu. lia. }
    rewrite Nat2Z.inj_succ, Z.pow_succ_r in Hu by lia.
    rewrite IH; [|split; [apply Z.div_pos; lia|apply Z.div_lt_upper_bound; lia]|done].
    rewrite numeral36_cons.
    destruct (digit_spec (u - u / 36 * 36)) as [-> _].
    { pose proof (Z.mod_pos_bound u 36 ltac:(lia)).
      pose proof (Z.div_mod u 36 ltac:(lia)). lia. }
    cbn [String.length]. rewrite Nat2Z.inj_succ, Z.pow_succ_r by lia.
    pose proof (Z.div_mod u 36 ltac:(lia)). nia.
  - rewrite numeral36_cons. destruct (digit_spec u) as [-> _]; [lia|]. done.
Qed.

Lemma formatBits_length n : forall free u a,
  (0 < n <= free)%nat -> 0 <= u < 36 ^ Z.of_nat n ->
  (String.length a < String.length (strconv.formatBits free u 36 a)
   <= String.length a + n)%nat.
Proof.
  induction n as [|n IH]; intros free u a Hn Hu; [lia|].
  destruct free as [|free]; [lia|]. cbn [strconv.formatBits].
  destruct (Z.leb_spec 36 u) as [Hb|Hb]; [|cbn; lia].
  assert (Hpos : (0 < n)%nat).
  { destruct n; [|lia]. cbn in Hu. lia. }
  rewrite Nat2Z.inj_succ, Z.pow_succ_r in Hu by lia.
  specialize (IH free (u / 36) (String (strconv.digit (u - u / 36 * 36)) a)).
  cbn [String.length] in IH.
  assert (0 <= u / 36 < 36 ^ Z.of_nat n).
  { split; [apply Z.div_pos; lia|apply Z.div_lt_upper_bound; lia]. }
  lia.
Qed.

Lemma formatBits_digits free : forall u a,
  0 <= u ->
  Forall (fun c => isDigit36 c = true) (list_ascii_of_string a) ->
  Forall (fun c => isDigit36 c = true)
    (list_ascii_of_string (strconv.formatBits free u 36 a)).
Proof.
  induction free as [|free IH]; intros u a Hu Ha; [done|].
  cbn [strconv.formatBits]. destruct (Z.leb_spec 36 u) as [Hb|Hb].
  - apply IH; [apply Z.div_pos; lia|].
    cbn [list_ascii_of_string]. constructor; [|done].
    apply digit_spec.
    pose proof (Z.mod_pos_bound u 36 ltac:(lia)).
    pose proof (Z.div_mod u 36 ltac:(lia)). lia.
  - cbn [list_ascii_of_string]. constructor; [|done]. apply digit_spec. lia.
Qed.

Lemma KeyAsString_numeral key :
  is_uint64 key -> numeral36 (KeyAsString key) = key.
Proof.
  intros Hk. unfold KeyAsString, strconv.FormatUint, is_uint64 in *.
  rewrite formatBits_numeral; [cbn; lia| |lia].
  assert (2 ^ 64 < 36 ^ Z.of_nat 65) by (by vm_compute). lia.
Qed.

(** X23. [KeyAsString] writes a key in base 36: the string has between one
    and thirteen characters, all of them digits or lower-case letters, and
    read as a numeral of base 36 it is the key. *)
Theorem KeyAsString_base36 key :
  is_uint64 key ->
  numeral36 (KeyAsString key) = key
  /\ Forall (fun c => isDigit36 c = true) (list_ascii_of_string (KeyAsString key))
  /\ (1 <= String.length (KeyAsString key) <= 13)%nat.
Proof.
  intros Hk. split; [by apply KeyAsString_numeral|split].
  - apply formatBits_digits; [unfold is_uint64 in Hk; lia|constructor].
  - unfold KeyAsString, strconv.FormatUint.
    pose proof (formatBits_length 13 65 key "" ltac:(lia)) as Hl.
    cbn [String.length] in Hl.
    assert (2 ^ 64 < 36 ^ Z.of_nat 13) by (by vm_compute).
    unfold is_uint64 in Hk. lia.
Qed.

(** X24. Two different keys have different strings. *)
Theorem KeyAsString_injective k1 k2 :
  is_uint64 k1 -> is_uint64 k2 -> k1 <> k2 -> KeyAsString k1 <> KeyAsString k2.
Proof.
  intros H1 H2 Hne He. apply Hne.
  rewrite <- (KeyAsString_numeral k1), <- (KeyAsString_numeral k2) by done.
  by rewrite He.
Qed.

(** * The further properties at sample inputs *)

Lemma helloEntry_valid : validResponse helloEntry.
Proof.
  unfold validResponse, time.valid, is_int64, min_int64, max_int64.
  vm_compute. repeat split; discriminate.
Qed.

Lemma helloEntry_withinLimits : withinLimits helloEntry.
Proof.
  split.
  - vm_compute. reflexivity.
  - intros m k vs [= <-] Hk.
    change (headerOf helloWriter)
      with (<["Content-Type"%string := ["text/plain"%string]]>
              (∅ : http.Header)) in Hk.
    apply lookup_insert_Some in Hk as [[_ <-]|[_ Hk]]; [|done].
    vm_compute. discriminate.
Qed.

Lemma sampleEntry_valid : validResponse sampleEntry.
Proof.
  unfold validResponse, time.valid, is_int64, min_int64, max_int64.
  vm_compute. repeat split; discriminate.
Qed.

Lemma sampleEntry_withinLimits : withinLimits sampleEntry.
Proof.
  split.
  - vm_compute. reflexivity.
  - intros m k vs [= <-] Hk.
    apply lookup_singleton_Some in Hk as [_ <-]. vm_compute. discriminate.
Qed.

(** X1 for the options of an adapter and a TTL of ten seconds. *)
Lemma NewClient_succeeds_iff_witness :
  exists c,
    NewClient [ClientWithAdapter true; ClientWithTTL (seconds 10)] = inl c.
Proof.
  apply (NewClient_succeeds_iff
           [ClientWithAdapter true; ClientWithTTL (seconds 10)]).
  split; [|split; [exists (seconds 10); right; by left|split]].
  - exists [], [ClientWithTTL (seconds 10)].
    split; [reflexivity|]. intros a [[=]|[]].
  - intros d [[=]|[[= <-]|[]]]. vm_compute. discriminate.
  - intros ms m [[=]|[[=]|[]]].
Defined.

(** X2 for one list of options per error. *)
Lemma NewClient_errors_witness :
  NewClient [ClientWithAdapter true; ClientWithTTL 0] = inr (ErrInvalidTTL 0)
  /\ NewClient [ClientWithMethods (Some [MethodGet; "PUT"; "DELETE"]%string)]
     = inr (ErrInvalidMethod "PUT")
  /\ NewClient [ClientWithAdapter true; ClientWithTTL (seconds 10);
                ClientWithAdapter false]
     = inr ErrAdapterNotSet
  /\ NewClient [ClientWithAdapter true] = inr ErrTTLNotSet.
Proof.
  destruct NewClient_errors as (Httl & Hm & Had & Hno).
  split; [|split; [|split]].
  - apply (Httl [ClientWithAdapter true] 0 []); [repeat constructor|lia].
  - apply (Hm [] [MethodGet] "PUT"%string ["DELETE"%string] []).
    + constructor.
    + repeat constructor.
    + intros [|]; discriminate.
  - apply Had.
    + repeat constructor. vm_compute. discriminate.
    + intros (pre & post & He & Hn).
      destruct pre as [|? [|? [|? pre]]]; cbn in He.
      * injection He as <-. apply (Hn false). right. by left.
      * discriminate.
      * discriminate.
      * injection He as _ _ _ He. by destruct pre.
  - apply Hno.
    + repeat constructor.
    + exists [], []. split; [reflexivity|]. intros a [].
    + intros d [[=]|[]].
Defined.

(** X3 for the client of two options. *)
Lemma NewClient_invariants_witness :
  adapter plainClient = true
  /\ 1 <= ttl plainClient
  /\ (exists ms, methods plainClient = Some ms
                 /\ forall m, In m ms -> allowedMethod m)
  /\ (exists fn, generateKey plainClient = Some fn)
  /\ (forall m, cacheableMethod plainClient m = true -> allowedMethod m).
Proof.
  apply (NewClient_invariants
           [ClientWithAdapter true; ClientWithTTL (seconds 10)]).
  reflexivity.
Defined.

(** X4 for the client of two options. *)
Lemma NewClient_defaults_witness :
  ((forall ms, ~ In (ClientWithMethods ms)
                 [ClientWithAdapter true; ClientWithTTL (seconds 10)]) ->
   methods plainClient = Some [MethodGet])
  /\ ((forall fn, ~ In (ClientWithGenerateKey fn)
                    [ClientWithAdapter true; ClientWithTTL (seconds 10)]) ->
      generateKey plainClient = Some DefaultGenerateKey)
  /\ ((forall k, ~ In (ClientWithRefreshKey k)
                   [ClientWithAdapter true; ClientWithTTL (seconds 10)]) ->
      refreshKey plainClient = ""%string)
  /\ ((forall hs, ~ In (ClientWithVary hs)
                    [ClientWithAdapter true; ClientWithTTL (seconds 10)]) ->
      vary plainClient = [])
  /\ (writeExpiresHeader plainClient = true
      <-> In ClientWithExpiresHeader
            [ClientWithAdapter true; ClientWithTTL (seconds 10)]).
Proof.
  apply (NewClient_defaults
           [ClientWithAdapter true; ClientWithTTL (seconds 10)]).
  reflexivity.
Defined.

(** X5 for two TTL options. *)
Lemma NewClient_last_option_wins_witness : ttl plainClient = seconds 10.
Proof.
  destruct (NewClient_last_option_wins
              [ClientWithAdapter true; ClientWithTTL (seconds 1)] []
              plainClient)
    as (Httl & _).
  apply (Httl (seconds 10)); [reflexivity|intros d' []].
Defined.

(** X10 for [GET /a] and [POST /a] with an empty body, and for a [POST]
    whose body cannot be read. *)
Lemma default_key_ignores_method_witness :
  hash plainClient (get "/a" "") = hash plainClient (post "/a" "")
  /\ hash plainClient
       (mkRequest MethodPost (url.mkURL "/a" false "" "") (fun _ => [])
          (Some Fails))
     = fnv.New64a.
Proof.
  destruct (default_key_ignores_method plainClient eq_refl) as [Hsame Hfail].
  split.
  - apply Hsame.
    + reflexivity.
    + intros header [].
    + discriminate.
    + intros _. by right.
  - apply (Hfail (mkRequest MethodPost (url.mkURL "/a" false "" "")
                    (fun _ => []) (Some Fails))); reflexivity.
Defined.

(** X11 for [PUT /a]. *)
Lemma other_methods_bypass_witness :
  handle id noFormat plainClient hello (put "/a") warmStore wallClock blank
  = mkWorld warmStore wallClock 0%nat (ServeHTTP hello blank (put "/a"))
      [Served (put "/a") None].
Proof.
  apply (other_methods_bypass id noFormat
           [ClientWithAdapter true; ClientWithTTL (seconds 10)]).
  - reflexivity.
  - discriminate.
  - discriminate.
Defined.

(** X12 for [GET /a] over an empty store. *)
Lemma handler_output_reaches_client_witness :
  writer (handle id noFormat plainClient hello (get "/a" "") (∅ : Memory)
            wallClock blank)
  = ServeHTTP hello blank (get "/a" "").
Proof.
  apply (handler_output_reaches_client id noFormat plainClient hello
           (get "/a" "") (∅ : Memory) wallClock blank [AdapterGet keyA]
           (get "/a" "") (Some helloWriter)
           (stored plainClient keyA helloWriter (wallClock 0))).
  vm_compute. reflexivity.
Defined.

(** X13 for [GET /a?x=2&x=1]. *)
Lemma handler_sees_normalized_request_witness :
  (get "/a" "x=1&x=2" = normalized (get "/a" "x=2&x=1")
   \/ get "/a" "x=1&x=2" = refreshed plainClient (get "/a" "x=2&x=1"))
  /\ sortURLParams (URL (get "/a" "x=1&x=2")) = URL (get "/a" "x=1&x=2")
  /\ Method (get "/a" "x=1&x=2") = Method (get "/a" "x=2&x=1")
  /\ HeaderValues (get "/a" "x=1&x=2") = HeaderValues (get "/a" "x=2&x=1")
  /\ Body (get "/a" "x=1&x=2") = Body (get "/a" "x=2&x=1")
  /\ url.Path (URL (get "/a" "x=1&x=2")) = url.Path (URL (get "/a" "x=2&x=1"))
  /\ url.Fragment (URL (get "/a" "x=1&x=2"))
     = url.Fragment (URL (get "/a" "x=2&x=1")).
Proof.
  set (r' := get "/a" "x=1&x=2").
  apply (handler_sees_normalized_request id noFormat plainClient hello
           (get "/a" "x=2&x=1") (∅ : Memory) wallClock blank
           [AdapterGet (hash plainClient r')] r'
           (Some (ServeHTTP hello (responseWriter.new blank) r'))
           (stored plainClient (hash plainClient r')
              (ServeHTTP hello (responseWriter.new blank) r') (wallClock 0))).
  - reflexivity.
  - vm_compute. reflexivity.
Defined.

(** X14 for [GET /a] over the store that holds a fresh entry. *)
Lemma release_iff_found_stale_witness :
  let t := trace (handle id noFormat plainClient hello (get "/a" "") warmStore
                    wallClock blank) in
  (In (AdapterRelease (hash plainClient (normalized (get "/a" "")))) t
   <-> true = true
       /\ time.After (Expiration (BytesToResponse (Bytes helloEntry)))
            (wallClock 0) = false)
  /\ forall key, In (AdapterRelease key) t ->
                 key = hash plainClient (normalized (get "/a" "")).
Proof.
  apply (release_iff_found_stale id noFormat plainClient hello (get "/a" "")
           warmStore wallClock blank (Bytes helloEntry) true warmStore).
  - reflexivity.
  - vm_compute. reflexivity.
  - vm_compute. reflexivity.
Defined.

(** X15 for [GET /a?_refresh=1]. *)
Lemma refresh_replaces_or_evicts_witness :
  let r' := refreshed refreshClient (get "/a" "_refresh=1") in
  let rw := ServeHTTP hello (responseWriter.new blank) r' in
  let w := handle id noFormat refreshClient hello (get "/a" "_refresh=1")
             warmStore wallClock blank in
  (responseWriter.statusCode rw < 400 ->
   store w = Set_ (hash refreshClient r')
               (Bytes (captured refreshClient rw (wallClock 0)))
               (time.Add (wallClock 0) (ttl refreshClient))
               (Release (hash refreshClient r') warmStore))
  /\ (400 <= responseWriter.statusCode rw ->
      store w = Release (hash refreshClient r') warmStore).
Proof.
  apply (refresh_replaces_or_evicts id noFormat refreshClient hello
           (get "/a" "_refresh=1") warmStore wallClock blank).
  - reflexivity.
  - exists ["1"%string]. vm_compute. reflexivity.
Defined.

(** X16 for [GET /a], answered by [hello] and asked again. *)
Lemma miss_then_hit_witness :
  let rw := ServeHTTP hello (responseWriter.new blank)
              (normalized (get "/a" "")) in
  let entry := captured plainClient rw (wallClock 0) in
  let w1 := handle id noFormat plainClient hello (get "/a" "") (∅ : Memory)
              wallClock blank in
  let w2 := handle id noFormat plainClient silent (get "/a" "") (store w1)
              wallClock blank in
  handlerCalled (trace w2) = false
  /\ calls (writer w2) = calls blank ++ [CallWrite (responseWriter.body rw)]
  /\ store w2 !! hash plainClient (normalized (get "/a" ""))
     = Some (Bytes (touch entry (wallClock 1)), Expiration entry).
Proof.
  apply (miss_then_hit id noFormat plainClient hello silent (get "/a" "")
           (∅ : Memory) wallClock wallClock blank blank).
  - reflexivity.
  - vm_compute. reflexivity.
  - apply lookup_empty.
  - vm_compute. reflexivity.
  - exact helloEntry_valid.
  - exact helloEntry_withinLimits.
  - left. vm_compute. reflexivity.
Defined.

(** X17 for [GET /a] answered with status 500. *)
Lemma error_is_not_cached_witness :
  let failing : Handler := fun _ => [DoWriteHeader 500] in
  let w1 := handle id noFormat plainClient failing (get "/a" "") (∅ : Memory)
              wallClock blank in
  let w2 := handle id noFormat plainClient hello (get "/a" "") (store w1)
              wallClock blank in
  store w1 = ∅
  /\ trace w2
     = AdapterGet (hash plainClient (normalized (get "/a" "")))
         :: Served (normalized (get "/a" ""))
              (Some (ServeHTTP hello (responseWriter.new blank)
                       (normalized (get "/a" ""))))
         :: stored plainClient (hash plainClient (normalized (get "/a" "")))
              (ServeHTTP hello (responseWriter.new blank)
                 (normalized (get "/a" "")))
              (wallClock 0).
Proof.
  apply (error_is_not_cached id noFormat plainClient
           (fun _ => [DoWriteHeader 500]) hello (get "/a" "") (∅ : Memory)
           wallClock wallClock blank blank).
  - reflexivity.
  - vm_compute. reflexivity.
  - apply lookup_empty.
  - vm_compute. discriminate.
Defined.

(** X18 for [GET /b] and the key of [GET /a]. *)
Lemma other_keys_untouched_witness :
  store (handle id noFormat plainClient hello (get "/b" "") warmStore
           wallClock blank) !! keyA
  = warmStore !! keyA.
Proof.
  apply (other_keys_untouched id noFormat plainClient hello (get "/b" "")
           warmStore wallClock blank keyA).
  - vm_compute. discriminate.
  - vm_compute. discriminate.
Defined.

(** X19 for a client that varies on [Accept] and writes [Expires]. *)
Lemma hit_headers_witness :
  let entry := BytesToResponse (Bytes helloEntry) in
  let h := header (writer (handle id noFormat varyClient hello (get "/a" "")
                             warmStore wallClock blank)) in
  (String.concat "," (vary varyClient) <> ""%string ->
   h !! "Vary"%string = Some [String.concat "," (vary varyClient)])
  /\ (writeExpiresHeader varyClient = true ->
      "Expires"%string <> "Vary"%string ->
      h !! "Expires"%string = Some [noFormat (Expiration entry)])
  /\ (forall hs k vs,
        Header entry = Some hs -> hs !! k = Some vs ->
        (forall k', is_Some (hs !! k') -> id k' = id k -> k' = k) ->
        id k <> id "Expires"%string -> id k <> id "Vary"%string ->
        h !! id k = Some [String.concat "," vs]).
Proof.
  apply (hit_headers id noFormat varyClient hello (get "/a" "") warmStore
           wallClock blank (Bytes helloEntry) warmStore).
  - reflexivity.
  - vm_compute. reflexivity.
  - vm_compute. reflexivity.
  - vm_compute. reflexivity.
Defined.

(** X20 for a map of two headers. *)
Lemma header_order_irrelevant_witness :
  gob.decMap
    (gob.encMap [("B"%string, ["2"%string]); ("A"%string, ["1"%string])]
     ++ [])
    None
  = (Some ({[ "A"%string := ["1"%string]; "B"%string := ["2"%string] ]}
           : http.Header), Some []).
Proof.
  apply (header_order_irrelevant
           ({[ "A"%string := ["1"%string]; "B"%string := ["2"%string] ]}
            : http.Header)).
  - vm_compute. first [reflexivity|apply perm_swap].
  - vm_compute. discriminate.
  - repeat (constructor || split); vm_compute; (reflexivity || discriminate).
Defined.

(** X21 for an entry followed by four bytes. *)
Lemma decode_ignores_trailing_bytes_witness :
  BytesToResponse (Bytes sampleEntry ++ bytes_of_string "junk") = sampleEntry.
Proof.
  apply (decode_ignores_trailing_bytes sampleEntry (bytes_of_string "junk")).
  - exact sampleEntry_valid.
  - exact sampleEntry_withinLimits.
Defined.

(** X22 for an entry of ten seconds, nine seconds later. *)
Lemma entry_fresh_for_ttl_witness :
  time.After (Expiration (captured plainClient helloWriter (wallClock 0)))
    (wallClock 9) = true
  <-> time.nanos (wallClock 9) < time.nanos (wallClock 0) + ttl plainClient.
Proof.
  apply (entry_fresh_for_ttl plainClient helloWriter (wallClock 0)
           (wallClock 9)).
  - unfold is_int64, min_int64, max_int64. vm_compute. split; discriminate.
  - vm_compute. split; [discriminate|reflexivity].
  - vm_compute. split; discriminate.
  - vm_compute. split; [discriminate|reflexivity].
Defined.

(** X23 for the largest key. *)
Lemma KeyAsString_base36_witness :
  numeral36 (KeyAsString (2 ^ 64 - 1)) = 2 ^ 64 - 1
  /\ Forall (fun c => isDigit36 c = true)
       (list_ascii_of_string (KeyAsString (2 ^ 64 - 1)))
  /\ (1 <= String.length (KeyAsString (2 ^ 64 - 1)) <= 13)%nat.
Proof.
  apply (KeyAsString_base36 (2 ^ 64 - 1)). unfold is_uint64. lia.
Defined.

(** X24 for the keys 35 and 36. *)
Lemma KeyAsString_injective_witness : KeyAsString 35 <> KeyAsString 36.
Proof.
  apply (KeyAsString_injective 35 36); unfold is_uint64; lia.
Defined.
